(** * Gdk9: the attunement planner (gdk9/energy.py, gdk9/optimize.py)

    A shallow embedding of the checksum engine ([digital_root],
    [char_energy], [string_energy]) and of the two planners
    ([optimize_attunement], [optimize_substitution]) with the functions
    that apply their plans ([apply_plan], [apply_edit_plan]).

    Python [int] is [Z]; a Python [str] is the list of its code points;
    a function that can raise returns a [result]. *)

From stdpp Require Import gmap strings list pretty.
From Stdlib Require Import ZArith Lia.

Local Open Scope Z_scope.

(** ** Exceptions *)

(** The exceptions the modelled code can raise.  The planner raises
    [ValueError] with four different messages; the builtins [int] and [ord]
    raise on their own. *)
Inductive error : Type :=
| TargetOutOfRange       (* ValueError("Target energy must be 1..9") *)
| NoAllowedSymbols       (* ValueError("No valid allowed symbols; provide a non-empty set.") *)
| NoFeasibleCombination  (* ValueError("No feasible combination to reach target with given symbols.") *)
| NoFeasibleEdit         (* ValueError("No feasible substitution/deletion plan to reach target.") *)
| UnsupportedMethod (m : string) (* ValueError(f"Unsupported method: {plan.method}") *)
| OverflowError          (* s * n: n is no machine index, or the repeated string is too long *)
| IntValueError          (* int(ch): ValueError, invalid literal *)
| OrdTypeError           (* ord(ch): TypeError, ch is not of length 1 *)
| KeyError               (* a dict subscript on a missing key *)
| Unfinished             (* a [while] loop cut off by the bound the model gives it *).

Inductive result (A : Type) : Type :=
| Ok (a : A)
| Err (e : error).
Arguments Ok {A} a.
Arguments Err {A} e.

#[global] Instance result_ret : MRet result := fun A a => Ok a.
#[global] Instance result_bind : MBind result := fun A B k r =>
  match r with
  | Ok a => k a
  | Err e => Err e
  end.

(** [mapM]: the comprehension [f(x) for x in l], stopping at the first
    exception. *)
Fixpoint mapM {A B : Type} (f : A -> result B) (l : list A) : result (list B) :=
  match l with
  | [] => Ok []
  | x :: l' => y ← f x; ys ← mapM f l'; Ok (y :: ys)
  end.

(** [for x in l: a = f(a, x)], stopping at the first exception. *)
Fixpoint foldM {A B : Type} (f : A -> B -> result A) (a : A) (l : list B) : result A :=
  match l with
  | [] => Ok a
  | x :: l' => a' ← f a x; foldM f a' l'
  end.

Definition zsum (l : list Z) : Z := foldr Z.add 0 l.

(** ** Strings *)

(** A Python [str]: its code points. *)
Definition text : Type := list Z.

(** An ASCII literal as a [text]. *)
Definition py (s : string) : text :=
  map (fun a => Z.of_N (Ascii.N_of_ascii a)) (String.list_ascii_of_string s).

(** [s * n] on strings: empty for [n <= 0]. *)
Definition str_repeat (s : text) (n : Z) : text :=
  concat (replicate (Z.to_nat n) s).

(** The machine indices of a 64-bit build: [sys.maxsize] is [2**63 - 1]. *)
Definition index_max : Z := 2 ^ 63 - 1.
Definition index_min : Z := - 2 ^ 63.

Definition is_index (n : Z) : bool := (index_min <=? n) && (n <=? index_max).

(** [s * n] as Python evaluates it: [OverflowError] for a count that is no
    machine index (cannot fit 'int' into an index-sized integer), and for a
    count above 1 with which the string would be longer than [sys.maxsize]
    (repeated string is too long).  A [MemoryError], which any allocation
    can end in, is outside the model. *)
Definition str_mul (s : text) (n : Z) : result text :=
  if negb (is_index n) then Err OverflowError
  else if (1 <? n) && (index_max / n <? Z.of_nat (length s)) then Err OverflowError
  else Ok (str_repeat s n).

(** [[x] * n] on a list of one element: only the count can overflow. *)
Definition list_mul {A : Type} (x : A) (n : Z) : result (list A) :=
  if negb (is_index n) then Err OverflowError
  else Ok (replicate (Z.to_nat n) x).

(** [a <= b] on strings: code point by code point, a prefix first. *)
Fixpoint str_le (a b : text) : bool :=
  match a, b with
  | [], _ => true
  | _ :: _, [] => false
  | x :: a', y :: b' => if x <? y then true else if y <? x then false else str_le a' b'
  end.

(** The tables of the Unicode database behind [str.isspace], [str.isalpha],
    [str.isdigit], [str.upper], [str.swapcase] and [int] on code points
    from 128 on.  They belong to the Python runtime, not to the repository,
    so they are a parameter; on ASCII the functions below are Python's. *)
Record Unicode : Type := {
  u_isspace : Z -> bool;
  u_isalpha : Z -> bool;
  u_isdigit : Z -> bool;
  u_decimal : Z -> option Z;   (* the value [int] gives a digit, if any *)
  u_upper : Z -> text;         (* the full upper-case mapping *)
  u_swapcase : Z -> text
}.

Section Characters.
Variable U : Unicode.

Definition is_ascii (c : Z) : bool := (0 <=? c) && (c <? 128).

Definition chr_isspace (c : Z) : bool :=
  if is_ascii c
  then ((9 <=? c) && (c <=? 13)) || ((28 <=? c) && (c <=? 32))
  else u_isspace U c.

Definition chr_isupper (c : Z) : bool := (65 <=? c) && (c <=? 90).
Definition chr_islower (c : Z) : bool := (97 <=? c) && (c <=? 122).

Definition chr_isalpha (c : Z) : bool :=
  if is_ascii c then chr_isupper c || chr_islower c else u_isalpha U c.

Definition chr_isdigit (c : Z) : bool :=
  if is_ascii c then (48 <=? c) && (c <=? 57) else u_isdigit U c.

Definition chr_decimal (c : Z) : option Z :=
  if is_ascii c
  then (if (48 <=? c) && (c <=? 57) then Some (c - 48) else None)
  else u_decimal U c.

Definition chr_upper (c : Z) : text :=
  if is_ascii c then (if chr_islower c then [c - 32] else [c]) else u_upper U c.

Definition chr_swapcase (c : Z) : text :=
  if is_ascii c
  then (if chr_islower c then [c - 32] else if chr_isupper c then [c + 32] else [c])
  else u_swapcase U c.

(** The [str] methods: a predicate holds of a non-empty string all of
    whose characters satisfy it. *)
Definition str_all (p : Z -> bool) (s : text) : bool :=
  match s with [] => false | _ => forallb p s end.

Definition isspace (s : text) : bool := str_all chr_isspace s.
Definition isalpha (s : text) : bool := str_all chr_isalpha s.
Definition isdigit (s : text) : bool := str_all chr_isdigit s.
Definition upper (s : text) : text := flat_map chr_upper s.
Definition swapcase (s : text) : text := flat_map chr_swapcase s.

(** [ord(ch)]: defined on strings of length one. *)
Definition ord (s : text) : result Z :=
  match s with
  | [c] => Ok c
  | _ => Err OrdTypeError
  end.

(** [int(ch)] on a string of digits: its decimal value, when every
    character has one. *)
Fixpoint int_digits (acc : Z) (s : text) : result Z :=
  match s with
  | [] => Ok acc
  | c :: s' =>
      match chr_decimal c with
      | Some d => int_digits (10 * acc + d) s'
      | None => Err IntValueError
      end
  end.

Definition int (s : text) : result Z :=
  match s with
  | [] => Err IntValueError
  | _ => int_digits 0 s
  end.
End Characters.

(** Tables under which no code point beyond ASCII is a space, a letter or a
    digit: enough for ASCII inputs, where the tables are never consulted. *)
Definition ascii_only : Unicode :=
  {| u_isspace := fun _ => false;
     u_isalpha := fun _ => false;
     u_isdigit := fun _ => false;
     u_decimal := fun _ => None;
     u_upper := fun c => [c];
     u_swapcase := fun c => [c] |}.

(** Two entries of the real tables, the rest as in [ascii_only].
    U+00DF (sharp s): [isalpha()] is true, [upper()] and [swapcase()] are
    the two letters "SS".  U+00B2 (superscript two): [isdigit()] is true and
    [int] raises [ValueError]. *)
Definition latin1_sample : Unicode :=
  {| u_isspace := fun _ => false;
     u_isalpha := fun c => c =? 223;
     u_isdigit := fun c => c =? 178;
     u_decimal := fun _ => None;
     u_upper := fun c => if c =? 223 then [83; 83] else [c];
     u_swapcase := fun c => if c =? 223 then [83; 83] else [c] |}.

(** ** gdk9/principles.py *)

Record Principle : Type := {
  name : string;
  description : string;
  symbol_energy : gmap text Z;
  letter_mode : string;
  number_mode : string;
  normalize_zero_to_nine : bool;
  weights : gmap string Z;
  harmonics : bool
}.

(** [d.get(k, default)] *)
Definition dict_get `{Countable K} {V : Type} (d : gmap K V) (k : K) (default : V) : V :=
  match d !! k with
  | Some v => v
  | None => default
  end.

Definition default_weights : gmap string Z :=
  list_to_map [("letter"%string, 1); ("digit"%string, 1); ("symbol"%string, 1)].

(** The fallback of [Principle.default()]: the "Ninefold Grid". *)
Definition ninefold_symbols : list (string * Z) :=
  [ ("."%string, 1); (","%string, 2); ("!"%string, 3); ("?"%string, 4);
    (":"%string, 5); (";"%string, 6); ("-"%string, 7); ("_"%string, 8);
    ("*"%string, 9); ("#"%string, 5); ("+"%string, 4); ("="%string, 6);
    ("@"%string, 8); ("$"%string, 7); ("%"%string, 5); ("&"%string, 9);
    ("/"%string, 3); ("\"%string, 3); ("("%string, 2); (")"%string, 2);
    ("["%string, 2); ("]"%string, 2); ("{"%string, 2); ("}"%string, 2);
    ("<"%string, 1); (">"%string, 1); ("|"%string, 1); ("~"%string, 9);
    ("^"%string, 8) ].

Definition ninefold_grid : Principle :=
  {| name := "Ninefold Grid";
     description := "Default Gdk9 principle";
     symbol_energy := list_to_map (map (fun kv => (py (fst kv), snd kv)) ninefold_symbols);
     letter_mode := "a1z26";
     number_mode := "digital_root";
     normalize_zero_to_nine := true;
     weights := default_weights;
     harmonics := true |}.

(** ** gdk9/energy.py *)

Definition digital_root (n : Z) (zero_to_nine : bool) : Z :=
  let n := Z.abs n in
  if n =? 0 then (if zero_to_nine then 9 else 0)
  else if n mod 9 =? 0 then 9 else n mod 9.

Section Energy.
Variable U : Unicode.

Definition letter_value (ch : text) : result Z :=
  let c := upper U ch in
  if str_le (py "A") c && str_le c (py "Z")
  then o ← ord c; Ok (o - 65 + 1)
  else ord c.

(** The two lines each branch of [char_energy] ends with:
    [e = digital_root(base, ...)] and
    [return digital_root(e * principle.weights.get(kind, 1), ...)]. *)
Definition weighted (pr : Principle) (base : Z) (kind : string) : Z :=
  let e := digital_root base (normalize_zero_to_nine pr) in
  digital_root (e * dict_get (weights pr) kind 1) (normalize_zero_to_nine pr).

Definition char_energy (ch : text) (pr : Principle) : result Z :=
  if isspace U ch then Ok 0
  else if isalpha U ch then
    base ← (if String.eqb (letter_mode pr) "a1z26" then letter_value ch else ord ch);
    Ok (weighted pr base "letter")
  else if isdigit U ch then
    base ← int U ch;
    Ok (weighted pr base "digit")
  else
    match symbol_energy pr !! ch with
    | Some v => Ok (weighted pr v "symbol")
    | None => base ← ord ch; Ok (weighted pr base "symbol")
    end.

(** Iterating over a [str] yields its characters as strings of length one. *)
Definition chars_of (s : text) : list text := map (fun c => [c]) s.

Definition string_energy (s : text) (pr : Principle) : result (Z * Z) :=
  es ← mapM (fun ch => char_energy ch pr) (chars_of s);
  let total := zsum es in
  Ok (total, digital_root total (normalize_zero_to_nine pr)).
End Energy.


(** ** gdk9/optimize.py: the insertion planner *)

Record Plan : Type := {
  p_method : string;
  p_target : Z;
  steps : list (text * Z);   (* (symbol, count) *)
  p_total_before : Z;
  p_dr_before : Z;
  p_total_after : Z;
  p_dr_after : Z
}.

Definition _residue (n : Z) : Z := n mod 9.

Definition _target_residue (total target : Z) : Z :=
  let cur_r := _residue total in
  let tgt_r := target mod 9 in
  (tgt_r - cur_r) mod 9.

(** The path from [at_] back to residue 0 along the parent pointers:
    [while at != 0: prev, i = parent[at]; seq.append(i); at = prev]. *)
Fixpoint walk_back (fuel : nat) (parent : gmap Z (Z * Z)) (at_ : Z) (seq : list Z)
  : result (list Z) :=
  if at_ =? 0 then Ok seq
  else match fuel with
       | O => Err Unfinished
       | S fuel' =>
           match parent !! at_ with
           | None => Err KeyError
           | Some (prev, i) => walk_back fuel' parent prev (seq ++ [i])
           end
       end.

(** The state of the search: [parent], [depth] and the queue [q]. *)
Record bfs_state : Type := {
  parent : gmap Z (Z * Z);   (* residue -> (prev_residue, symbol_index) *)
  depth : gmap Z Z;
  queue : list Z
}.

(** The body of [for idx, r in enumerate(residues)] for the node [cur] of
    depth [d]: either the search returns the path ([inl]) or the loop ends
    with a new state ([inr]). *)
Fixpoint expand (delta_res cur d : Z) (rs : list Z) (idx : Z) (st : bfs_state)
  : result (list Z + bfs_state) :=
  match rs with
  | [] => Ok (inr st)
  | r :: rs' =>
      let nxt := (cur + r) mod 9 in
      match parent st !! nxt with
      | Some _ => expand delta_res cur d rs' (idx + 1) st
      | None =>
          let parent' := <[nxt := (cur, idx)]> (parent st) in
          let depth' := <[nxt := d + 1]> (depth st) in
          if nxt =? delta_res
          then seq ← walk_back 9 parent' nxt []; Ok (inl (reverse seq))
          else expand delta_res cur d rs' (idx + 1)
                 {| parent := parent'; depth := depth'; queue := queue st ++ [nxt] |}
      end
  end.

(** [while q: cur = q.popleft(); ...] *)
Fixpoint bfs (fuel : nat) (delta_res : Z) (residues : list Z) (max_steps : Z)
  (st : bfs_state) : result (option (list Z)) :=
  match queue st with
  | [] => Ok None
  | cur :: q' =>
      match fuel with
      | O => Err Unfinished
      | S fuel' =>
          match depth st !! cur with
          | None => Err KeyError
          | Some d =>
              let st' := {| parent := parent st; depth := depth st; queue := q' |} in
              if d >=? max_steps
              then bfs fuel' delta_res residues max_steps st'
              else
                r ← expand delta_res cur d residues 0 st';
                match r with
                | inl seq => Ok (Some seq)
                | inr st'' => bfs fuel' delta_res residues max_steps st''
                end
          end
      end
  end.

Definition bfs_init : bfs_state :=
  {| parent := {[ 0 := (-1, -1) ]}; depth := {[ 0 := 0 ]}; queue := [0] |}.

(** [minimal_residue_combo]: [Ok None] is Python's [None].  At most nine
    residues are ever queued, so nine turns of the loop are all it can take
    (see [minimal_residue_combo_total]). *)
Definition minimal_residue_combo (delta_res : Z) (allowed : list (text * Z))
  (max_steps : Z) : result (option (list Z)) :=
  let residues := map (fun se => snd se mod 9) allowed in
  if delta_res =? 0 then Ok (Some [])
  else if forallb (fun r => r =? 0) residues then Ok None
  else bfs 9 delta_res residues max_steps bfs_init.

(** [enumerate(l)] from index [i] on. *)
Fixpoint enumerate_from {A : Type} (i : Z) (l : list A) : list (Z * A) :=
  match l with
  | [] => []
  | x :: l' => (i, x) :: enumerate_from (i + 1) l'
  end.

Definition enumerate {A : Type} (l : list A) : list (Z * A) := enumerate_from 0 l.

Definition build_steps_from_seq (seq : list Z) (allowed : list (text * Z))
  : list (text * Z) :=
  let counts : gmap Z Z :=
    foldl (fun counts i => <[i := dict_get counts i 0 + 1]> counts) ∅ seq in
  flat_map (fun ise =>
              match counts !! fst ise with
              | Some c => [(fst (snd ise), c)]
              | None => []
              end)
           (enumerate allowed).

Definition default_symbols : text := py ".!?,*+".

Section Planner.
Variable U : Unicode.

(** The loop that keeps the allowed symbols of non-zero energy. *)
Fixpoint allowed_pairs (symbols : list text) (pr : Principle) : result (list (text * Z)) :=
  match symbols with
  | [] => Ok []
  | s :: rest =>
      e ← char_energy U s pr;
      l ← allowed_pairs rest pr;
      Ok (if e =? 0 then l else (s, e) :: l)
  end.

Definition optimize_attunement (txt : text) (target : Z) (pr : Principle)
  (allowed_symbols : option text) (method : string) (max_steps : Z) : result Plan :=
  '(total, dr) ← string_energy U txt pr;
  if negb ((1 <=? target) && (target <=? 9)) then Err TargetOutOfRange
  else if dr =? target then Ok (Build_Plan method target [] total dr total dr)
  else
    let allowed_symbols :=
      match allowed_symbols with
      | None | Some [] => default_symbols
      | Some s => s
      end in
    allowed ← allowed_pairs (chars_of allowed_symbols) pr;
    match allowed with
    | [] => Err NoAllowedSymbols
    | _ =>
        let delta_res := _target_residue total target in
        seq ← minimal_residue_combo delta_res allowed max_steps;
        match seq with
        | None => Err NoFeasibleCombination
        | Some seq =>
            let steps := build_steps_from_seq seq allowed in
            es ← mapM (fun sc => e ← char_energy U (fst sc) pr; Ok (snd sc * e)) steps;
            let added := zsum es in
            let new_total := total + added in
            let new_dr := digital_root new_total (normalize_zero_to_nine pr) in
            Ok (Build_Plan method target steps total dr new_total new_dr)
        end
    end.
End Planner.

(** [for i, ch in enumerate(chars)] of the intersperse method; [i1] is
    [i + 1]. *)
Fixpoint intersperse_loop (interval : Z) (inserts : list text) (chars : list text)
  (i1 : Z) (i_ins : nat) (out : list text) : list text * nat :=
  match chars with
  | [] => (out, i_ins)
  | ch :: chars' =>
      let out := out ++ [ch] in
      match (if i1 mod interval =? 0 then inserts !! i_ins else None) with
      | Some s => intersperse_loop interval inserts chars' (i1 + 1) (S i_ins) (out ++ [s])
      | None => intersperse_loop interval inserts chars' (i1 + 1) i_ins out
      end
  end.

Definition apply_plan (txt : text) (plan : Plan) (spread : option Z) : result text :=
  match steps plan with
  | [] => Ok txt
  | _ =>
      if String.eqb (p_method plan) "append" then
        parts ← mapM (fun sc => str_mul (fst sc) (snd sc)) (steps plan);
        Ok (txt ++ concat parts)
      else if String.eqb (p_method plan) "prepend" then
        parts ← mapM (fun sc => str_mul (fst sc) (snd sc)) (steps plan);
        Ok (concat parts ++ txt)
      else if String.eqb (p_method plan) "intersperse" then
        let chars := chars_of txt in
        parts ← mapM (fun sc => list_mul (fst sc) (snd sc)) (steps plan);
        let inserts := concat parts in
        match chars with
        | [] => Ok (concat inserts)
        | _ =>
            let n := Z.of_nat (length inserts) in
            if n =? 0 then Ok txt
            else
              let interval :=
                match spread with
                | Some s => if s =? 0 then Z.max 1 (Z.of_nat (length chars) / (n + 1)) else s
                | None => Z.max 1 (Z.of_nat (length chars) / (n + 1))
                end in
              let '(out, i_ins) := intersperse_loop interval inserts chars 1 0%nat [] in
              (* while i_ins < n: out.append(inserts[i_ins]); i_ins += 1 *)
              Ok (concat (out ++ drop i_ins inserts))
        end
      else Err (UnsupportedMethod (p_method plan))
  end.

(** ** gdk9/optimize.py: edit plans *)

Record EditOp : Type := {
  kind : string;          (* 'sub', 'del', 'ins' *)
  pos : Z;
  ch : option text;
  count : Z
}.

Record EditPlan : Type := {
  e_method : string;
  e_target : Z;
  ops : list EditOp;
  e_total_before : Z;
  e_dr_before : Z;
  e_total_after : Z;
  e_dr_after : Z
}.

(** [sorted(l, key=lambda o: o.pos)], and with [reverse=True]: both are
    stable, equal keys keep the order they have in [l]. *)
Fixpoint insert_by (before : Z -> Z -> bool) (x : EditOp) (l : list EditOp) : list EditOp :=
  match l with
  | [] => [x]
  | y :: l' => if before (pos x) (pos y) then x :: l else y :: insert_by before x l'
  end.

Definition sorted_by (before : Z -> Z -> bool) (l : list EditOp) : list EditOp :=
  foldr (insert_by before) [] l.

Definition sorted_asc : list EditOp -> list EditOp := sorted_by Z.leb.
Definition sorted_desc : list EditOp -> list EditOp := sorted_by Z.geb.

Definition in_range (p : Z) (chars : list text) : bool :=
  (0 <=? p) && (p <? Z.of_nat (length chars)).

Definition apply_del (chars : list text) (op : EditOp) : list text :=
  if in_range (pos op) chars then delete (Z.to_nat (pos op)) chars else chars.

Definition apply_sub (chars : list text) (op : EditOp) : list text :=
  match ch op with
  | Some c => if in_range (pos op) chars then <[Z.to_nat (pos op) := c]> chars else chars
  | None => chars
  end.

(** [(op.ch or '') * max(1, op.count)] *)
Definition insert_str_of (op : EditOp) : result text :=
  str_mul (default [] (ch op)) (Z.max 1 (count op)).

(** The string is built before the position is looked at. *)
Definition apply_ins (chars : list text) (op : EditOp) : result (list text) :=
  insert_str ← insert_str_of op;
  if (0 <=? pos op) && (pos op <=? Z.of_nat (length chars)) then
    let left := concat (take (Z.to_nat (pos op)) chars) in
    let right := concat (drop (Z.to_nat (pos op)) chars) in
    Ok (map (fun c => [c]) (left ++ insert_str ++ right))
  else Ok chars.

Definition has_kind (k : string) (op : EditOp) : bool := String.eqb (kind op) k.

Definition apply_edit_plan (txt : text) (plan : EditPlan) : result text :=
  match ops plan with
  | [] => Ok txt
  | _ =>
      let chars := map (fun c => [c]) txt in
      let dels := filter (fun op => has_kind "del" op = true) (ops plan) in
      let chars := foldl apply_del chars (sorted_desc dels) in
      let subs := filter (fun op => has_kind "sub" op = true) (ops plan) in
      let chars := foldl apply_sub chars subs in
      let ins := filter (fun op => has_kind "ins" op = true) (ops plan) in
      chars ← foldM apply_ins chars (sorted_asc ins);
      Ok (concat chars)
  end.

(** ** gdk9/optimize.py: the edit planner *)

(** A [dict] whose iteration order is used: the keys in the order of their
    first assignment. *)
Definition odict (V : Type) : Type := list (Z * V).

Fixpoint od_get {V : Type} (d : odict V) (k : Z) : option V :=
  match d with
  | [] => None
  | (k', v) :: d' => if k' =? k then Some v else od_get d' k
  end.

Fixpoint od_set {V : Type} (d : odict V) (k : Z) (v : V) : odict V :=
  match d with
  | [] => [(k, v)]
  | (k', v') :: d' => if k' =? k then (k, v) :: d' else (k', v') :: od_set d' k v
  end.

(** An option of one position: [(residue delta, replacement)], the
    replacement [None] for a deletion. *)
Definition edit_option : Type := (Z * option text)%type.

(** A slot of the table [best]: [(count, prev_residue, (pos, r, repl))]. *)
Definition best_entry : Type := (Z * Z * (Z * Z * option text))%type.

Section EditPlanner.
Variable U : Unicode.

(** [r = (new_e - cur_e) % 9; if r not in seen: seen[r] = repl] *)
Definition see (pr : Principle) (cur_e : Z) (seen : odict text) (repl : text)
  : result (odict text) :=
  new_e ← char_energy U repl pr;
  let r := (new_e - cur_e) mod 9 in
  Ok (match od_get seen r with
      | Some _ => seen
      | None => od_set seen r repl
      end).

Fixpoint see_all (pr : Principle) (cur_e : Z) (seen : odict text) (repls : list text)
  : result (odict text) :=
  match repls with
  | [] => Ok seen
  | repl :: rest => seen' ← see pr cur_e seen repl; see_all pr cur_e seen' rest
  end.

(** The list [pos_deltas[i]] for the character [c] of the text. *)
Definition position_options (pr : Principle) (subs : option (gmap text (list text)))
  (allow_delete : bool) (c : text) : result (list edit_option) :=
  cur_e ← char_energy U c pr;
  seen ← match subs with
         | Some d => match d !! c with
                     | Some repls => see_all pr cur_e [] repls
                     | None => Ok []
                     end
         | None => Ok []
         end;
  seen ← (if isalpha U c then
            let alt := swapcase U c in
            if bool_decide (alt = c) then Ok seen else see pr cur_e seen alt
          else Ok seen);
  let substitutions :=
    flat_map (fun rr => if fst rr =? 0 then [] else [(fst rr, Some (snd rr))]) seen in
  let rdel := (- cur_e) mod 9 in
  Ok (substitutions ++ (if allow_delete && negb (rdel =? 0) then [(rdel, None)] else [])).

(** [for r, repl in pos_deltas[i]] for one entry [(res, (cnt, _, _))] of
    [best]. *)
Definition dp_option (max_edits i res cnt : Z) (new_best : odict best_entry)
  (o : edit_option) : odict best_entry :=
  let nr := (res + fst o) mod 9 in
  let nc := cnt + 1 in
  if nc >? max_edits then new_best
  else match od_get new_best nr with
       | None => od_set new_best nr (nc, res, (i, fst o, snd o))
       | Some e => if nc <? fst (fst e)
                   then od_set new_best nr (nc, res, (i, fst o, snd o))
                   else new_best
       end.

(** The body of [for i in range(n)]. *)
Definition dp_position (max_edits : Z) (best : odict best_entry)
  (iopts : Z * list edit_option) : odict best_entry :=
  foldl (fun new_best entry =>
           foldl (dp_option max_edits (fst iopts) (fst entry) (fst (fst (snd entry))))
                 new_best (snd iopts))
        best best.

Definition best_init : odict best_entry := [(0, (0, -1, (-1, 0, None)))].

Definition dp_table (max_edits : Z) (pos_deltas : list (list edit_option))
  : odict best_entry :=
  foldl (dp_position max_edits) best_init (enumerate pos_deltas).

(** [while cur != 0: cnt, prev, (pos, r, repl) = best[cur]; ...; cur = prev] *)
Fixpoint reconstruct (fuel : nat) (best : odict best_entry) (cur : Z)
  (acc : list EditOp) : result (list EditOp) :=
  if cur =? 0 then Ok acc
  else match fuel with
       | O => Err Unfinished
       | S fuel' =>
           match od_get best cur with
           | None => Err KeyError
           | Some (_, prev, (p, _, repl)) =>
               let acc :=
                 if p >=? 0 then
                   match repl with
                   | None => acc ++ [Build_EditOp "del" p None 1]
                   | Some s => acc ++ [Build_EditOp "sub" p (Some s) 1]
                   end
                 else acc in
               reconstruct fuel' best prev acc
           end
       end.

(** [optimize_substitution].  The walk back through [best] meets a residue
    at most once, so nine turns are all it can take (see
    [reconstruct_total]). *)
Definition optimize_substitution (txt : text) (target : Z) (pr : Principle)
  (subs : option (gmap text (list text))) (allow_delete : bool)
  (allowed_inserts : option text) (max_edits : Z) : result EditPlan :=
  '(total, dr) ← string_energy U txt pr;
  if negb ((1 <=? target) && (target <=? 9)) then Err TargetOutOfRange
  else if dr =? target then Ok (Build_EditPlan "substitute" target [] total dr total dr)
  else
    pos_deltas ← mapM (position_options pr subs allow_delete) (chars_of txt);
    let delta_res := _target_residue total target in
    let best := dp_table max_edits pos_deltas in
    match od_get best delta_res with
    | None =>
        match allowed_inserts with
        | None | Some [] => Err NoFeasibleEdit
        | Some symbols =>
            append_plan ← optimize_attunement U txt target pr (Some symbols) "append" 64;
            let ops := map (fun sc => Build_EditOp "ins" (Z.of_nat (length txt))
                                        (Some (fst sc)) (snd sc))
                           (steps append_plan) in
            out ← apply_edit_plan txt (Build_EditPlan "edit" target ops total dr total dr);
            '(new_total, new_dr) ← string_energy U out pr;
            Ok (Build_EditPlan "edit" target ops total dr new_total new_dr)
        end
    | Some _ =>
        ops ← reconstruct 9 best delta_res [];
        out ← apply_edit_plan txt
                 (Build_EditPlan "edit" target (reverse ops) total dr total dr);
        '(new_total, new_dr) ← string_energy U out pr;
        Ok (Build_EditPlan "edit" target (reverse ops) total dr new_total new_dr)
    end.
End EditPlanner.


(** ** Sample inputs *)

(** The Ninefold Grid with [normalize_zero_to_nine] switched off. *)
Definition ninefold_no_normalize : Principle :=
  {| name := "Ninefold Grid";
     description := "zero is not normalised to nine";
     symbol_energy := symbol_energy ninefold_grid;
     letter_mode := "a1z26";
     number_mode := "digital_root";
     normalize_zero_to_nine := false;
     weights := default_weights;
     harmonics := true |}.

(** A principle that gives every symbol the weight 0 and does not normalise
    zero to nine: every symbol has energy 0. *)
Definition weightless_symbols : Principle :=
  {| name := "Custom Principle";
     description := "";
     symbol_energy := ∅;
     letter_mode := "a1z26";
     number_mode := "digital_root";
     normalize_zero_to_nine := false;
     weights := {[ "symbol"%string := 0 ]};
     harmonics := true |}.

(** The catalog [{"1": ["2"], "3": ["5", "6"]}]. *)
Definition digit_catalog : gmap text (list text) :=
  list_to_map [(py "1", [py "2"]); (py "3", [py "5"; py "6"])].

Definition edit_plan_of (l : list EditOp) : EditPlan :=
  {| e_method := "edit"; e_target := 1; ops := l;
     e_total_before := 0; e_dr_before := 9; e_total_after := 0; e_dr_after := 9 |}.

(** ** Predicates and tactics of the proofs *)

(** The exceptions of the builtins [int] and [ord]. *)
Definition builtin_error (e : error) : Prop := e = IntValueError \/ e = OrdTypeError.

(** The errors of a walk through a table: a missing key, or a loop cut off. *)
Definition table_error (e : error) : Prop := e = KeyError \/ e = Unfinished.

Ltac bind_simpl := unfold mbind, result_bind; cbn beta iota.

(** [inserted x l l']: the list [l] is [l'] with [x] put in at some place. *)
Inductive inserted {A : Type} (x : A) : list A -> list A -> Prop :=
| inserted_here l : inserted x (x :: l) l
| inserted_later y l l' : inserted x l l' -> inserted x (y :: l) (y :: l').

(** A list of operations in the order [before] of their positions. *)
Fixpoint is_sorted (before : Z -> Z -> bool) (l : list EditOp) : Prop :=
  match l with
  | [] => True
  | x :: l' =>
      match l' with
      | [] => True
      | y :: _ => before (pos x) (pos y) = true
      end /\ is_sorted before l'
  end.

(** The order in which [apply_edit_plan] takes the operations of a plan:
    the deletions from the highest position down, the substitutions as they
    stand in the plan, the insertions from the lowest position up.  An
    operation of another kind is never taken. *)
Definition schedule (l : list EditOp) : list EditOp :=
  sorted_desc (filter (fun op => has_kind "del" op = true) l)
  ++ filter (fun op => has_kind "sub" op = true) l
  ++ sorted_asc (filter (fun op => has_kind "ins" op = true) l).

(** The body of the loop that takes the operation. *)
Definition edit_step (chars : list text) (op : EditOp) : result (list text) :=
  if has_kind "del" op then Ok (apply_del chars op)
  else if has_kind "sub" op then Ok (apply_sub chars op)
  else if has_kind "ins" op then apply_ins chars op
  else Ok chars.

(** The buffer after the operations [l], taken in this order. *)
Definition run_ops (chars : list text) (l : list EditOp) : result (list text) :=
  foldM edit_step chars l.

(** The insertions of a plan whose strings Python can build. *)
Definition can_build (op : EditOp) : bool :=
  match insert_str_of op with
  | Ok _ => true
  | Err _ => false
  end.

Definition buildable (l : list EditOp) : bool :=
  forallb can_build (filter (fun op => has_kind "ins" op = true) l).

(** The insertion loop when the strings can all be built, and the three
    loops on the buffer. *)
Definition place_ins (chars : list text) (op : EditOp) : list text :=
  if (0 <=? pos op) && (pos op <=? Z.of_nat (length chars)) then
    let left := concat (take (Z.to_nat (pos op)) chars) in
    let right := concat (drop (Z.to_nat (pos op)) chars) in
    map (fun c => [c])
      (left ++ str_repeat (default [] (ch op)) (Z.max 1 (count op)) ++ right)
  else chars.

Definition run_edits (txt : text) (l : list EditOp) : list text :=
  let chars := map (fun c => [c]) txt in
  let chars := foldl apply_del chars
                 (sorted_desc (filter (fun op => has_kind "del" op = true) l)) in
  let chars := foldl apply_sub chars (filter (fun op => has_kind "sub" op = true) l) in
  foldl place_ins chars (sorted_asc (filter (fun op => has_kind "ins" op = true) l)).

(** A position the buffer does not have: negative, at or past its length for
    a deletion or a substitution, past its length for an insertion. *)
Definition out_of_range (chars : list text) (op : EditOp) : Prop :=
  pos op < 0 \/
  ((kind op = "del"%string \/ kind op = "sub"%string) /\
   Z.of_nat (length chars) <= pos op) \/
  (kind op = "ins"%string /\ Z.of_nat (length chars) < pos op).

(** ** The residue graph *)

(** [reach rs k x]: [k] steps, each adding a residue of [rs], lead from
    residue 0 to residue [x]. *)
Inductive reach (rs : list Z) : nat -> Z -> Prop :=
| reach_O : reach rs 0 0
| reach_S k x r : reach rs k x -> r ∈ rs -> reach rs (S k) ((x + r) mod 9).

(** [picks_of rs js picks]: [picks] are the residues at the indices [js]. *)
Definition picks_of (rs : list Z) (js : list Z) (picks : list Z) : Prop :=
  Forall2 (fun j r => 0 <= j /\ rs !! Z.to_nat j = Some r) js picks.

(** What the tables of the search hold at any time. *)
Record bfs_wf (rs : list Z) (st : bfs_state) : Prop := {
  wf_root : depth st !! 0 = Some 0;
  wf_dom : forall x, is_Some (parent st !! x) <-> is_Some (depth st !! x);
  wf_range : forall x, is_Some (depth st !! x) -> 0 <= x < 9;
  wf_link : forall x p i, x <> 0 -> parent st !! x = Some (p, i) ->
            exists r dp, 0 <= i /\ rs !! Z.to_nat i = Some r /\ x = (p + r) mod 9 /\
                         depth st !! p = Some dp /\ depth st !! x = Some (dp + 1) /\
                         0 <= dp;
  wf_size : forall x d, depth st !! x = Some d -> d < Z.of_nat (size (parent st));
  wf_queue : forall x, x ∈ queue st -> is_Some (depth st !! x)
}.

(** The queue holds nodes of depth [d], then nodes of depth [d + 1]; no node
    is deeper; a node that has left the queue is at most [d] deep and, when
    it was less than [max_steps] deep, all it leads to has been found. *)
Record bfs_level (rs : list Z) (max_steps d : Z) (skip : list Z) (st : bfs_state)
  : Prop := {
  lv_queue : exists qa qb, queue st = qa ++ qb /\
               (forall x, x ∈ qa -> depth st !! x = Some d) /\
               (forall x, x ∈ qb -> depth st !! x = Some (d + 1));
  lv_bound : forall x dx, depth st !! x = Some dx -> dx <= d + 1;
  lv_closed : forall x dx, depth st !! x = Some dx -> x ∉ queue st -> x ∉ skip ->
              dx <= d /\
              (dx < max_steps -> forall r, r ∈ rs ->
                 exists d', depth st !! ((x + r) mod 9) = Some d' /\ d' <= dx + 1)
}.

(** The turns of the loop left are enough for the nodes not found yet. *)
Definition bfs_fuel (fuel : nat) (st : bfs_state) : Prop :=
  (9 + length (queue st) <= fuel + size (parent st))%nat.

(** The answer of the search: a sequence of indices whose residues add up to
    [delta_res], and no shorter way from 0 to [delta_res]. *)
Definition shortest_path (rs : list Z) (delta_res : Z) (seq : list Z) : Prop :=
  (exists picks, picks_of rs seq picks /\ zsum picks mod 9 = delta_res) /\
  (forall k, reach rs k delta_res -> (length seq <= k)%nat).

(** ** The statements about the planners *)

(** The number of symbols a plan inserts. *)
Definition insertions (p : Plan) : Z := zsum (map snd (steps p)).

(** The symbols [optimize_attunement] plans over. *)
Definition effective_symbols (allowed_symbols : option text) : text :=
  match allowed_symbols with
  | None | Some [] => default_symbols
  | Some s => s
  end.

(** The sum of the counts a dict holds for the keys [keys]. *)
Definition tally (counts : gmap Z Z) (keys : list Z) : Z :=
  zsum (map (fun i => dict_get counts i 0) keys).

Section Statements.
Variable U : Unicode.

(** [r] is the residue of a symbol of [symbols] that has an energy other
    than 0: an edge of the graph the insertion planner searches. *)
Definition insertable (pr : Principle) (symbols : text) (r : Z) : Prop :=
  exists c e, c ∈ symbols /\ char_energy U [c] pr = Ok e /\ e <> 0 /\ r = e mod 9.
End Statements.

(** ** The table of the edit planner *)

Definition entry_count (e : best_entry) : Z := fst (fst e).
Definition entry_prev (e : best_entry) : Z := snd (fst e).

(** A choice of edits: for each position of the text one of its options, or
    none. *)
Definition selects (pos_deltas : list (list edit_option))
  (sel : list (option edit_option)) : Prop :=
  Forall2 (fun opts c => match c with
                         | None => True
                         | Some o => o ∈ opts
                         end) pos_deltas sel.

(** The number of edits of a choice, and the residue delta they add up to. *)
Definition edits (sel : list (option edit_option)) : nat := length (omap id sel).

Definition selection_delta (sel : list (option edit_option)) : Z :=
  zsum (map (fun c : option edit_option =>
               match c with Some o => fst o | None => 0 end) sel).

(** What the table [best] holds at any time: the slot of residue 0 is the
    initial one; every other slot points back to a slot of a smaller
    count. *)
Record dp_wf (best : odict best_entry) : Prop := {
  dw_root : od_get best 0 = Some ((0, -1, (-1, 0, None)) : best_entry);
  dw_keys : NoDup (map fst best);
  dw_range : forall k (e : best_entry), od_get best k = Some e -> 0 <= k < 9;
  dw_count : forall k (e : best_entry), od_get best k = Some e ->
             0 <= entry_count e < Z.of_nat (length best);
  dw_prev : forall k (e : best_entry), k <> 0 -> od_get best k = Some e ->
            exists e' : best_entry, od_get best (entry_prev e) = Some e' /\
                       entry_count e' < entry_count e
}.

(** [dp_below b b']: the table [b'] has every slot of [b], with a count that
    is not larger. *)
Definition dp_below (b b' : odict best_entry) : Prop :=
  (length b <= length b')%nat /\
  forall k (e : best_entry), od_get b k = Some e ->
    exists e' : best_entry, od_get b' k = Some e' /\ entry_count e' <= entry_count e.

(** The table knows every choice of at most [max_edits] edits, with a count
    that is not larger than its number of edits. *)
Definition dp_complete (max_edits : Z) (pos_deltas : list (list edit_option))
  (best : odict best_entry) : Prop :=
  forall sel, selects pos_deltas sel -> Z.of_nat (edits sel) <= max_edits ->
    exists e : best_entry, od_get best (selection_delta sel mod 9) = Some e /\
              entry_count e <= Z.of_nat (edits sel).

Section PosDeltas.
Variable U : Unicode.

(** The options of all positions, as [optimize_substitution] computes them. *)
Definition pos_deltas_of (pr : Principle) (subs : option (gmap text (list text)))
  (allow_delete : bool) (txt : text) : result (list (list edit_option)) :=
  mapM (position_options U pr subs allow_delete) (chars_of txt).
End PosDeltas.

(** The catalog [{"X": ["Y"]}]. *)
Definition xy_catalog : gmap text (list text) := {[ py "X" := [py "Y"] ]}.

(** The plans the planners return for "ABC" with the target 1 and for "X"
    with the target 7 and the catalog [xy_catalog]. *)
Definition abc_plan : Plan := Build_Plan "append" 1 [(py "?", 1)] 6 6 10 1.

Definition xy_plan : EditPlan :=
  Build_EditPlan "edit" 7 [Build_EditOp "sub" 0 (Some (py "Y")) 1] 6 6 7 7.

(** The sum of the counts of a dict, each weighted by the energy its key has
    in [l]. *)
Definition wtally (counts : gmap Z Z) (l : list (Z * Z)) : Z :=
  zsum (map (fun iw : Z * Z => dict_get counts (fst iw) 0 * snd iw) l).

Section TotalEnergy.
Variable U : Unicode.

(** The strings of [l] have energies that add up to [t]. *)
Definition total_energy (pr : Principle) (l : list text) (t : Z) : Prop :=
  exists es, mapM (fun ch => char_energy U ch pr) l = Ok es /\ zsum es = t.
End TotalEnergy.

(** The indices of the allowed symbols with their energies. *)
Definition weights_of (l : list (Z * (text * Z))) : list (Z * Z) :=
  map (fun ise => (fst ise, snd (snd ise))) l.

(** The symbols of a plan, each as often as its count: the list [inserts]
    of [apply_plan]. *)
Definition symbols_of (steps : list (text * Z)) : list text :=
  flat_map (fun sc => replicate (Z.to_nat (snd sc)) (fst sc)) steps.

(** The catalog [{"3": ["5"]}]. *)
Definition three_five_catalog : gmap text (list text) := {[ py "3" := [py "5"] ]}.

(** The exceptions the planners raise themselves. *)
Definition planner_error (e : error) : Prop :=
  e = TargetOutOfRange \/ e = NoAllowedSymbols \/ e = NoFeasibleCombination \/
  e = NoFeasibleEdit.

(** * The rest of the code *)

(** ** Exceptions of the remaining functions *)

(** A function below fails with an exception of the planners ([Raised]) or
    with one of its own. *)
Inductive failure : Type :=
| Raised (e : error)
| OnlyAppendSupported   (* ValueError("Only 'append' method supported in default build") *)
| ZeroEnergySymbol      (* ValueError("Chosen symbol has zero energy; pick another.") *)
| EmptyKey              (* ValueError("Key must be non-empty") *)
| IndexOutOfRange       (* IndexError: a list subscript out of range *).

Inductive outcome (A : Type) : Type :=
| Done (a : A)
| Fail (f : failure).
Arguments Done {A} a.
Arguments Fail {A} f.

#[global] Instance outcome_ret : MRet outcome := fun A a => Done a.
#[global] Instance outcome_bind : MBind outcome := fun A B k r =>
  match r with
  | Done a => k a
  | Fail f => Fail f
  end.

(** A call of a function that returns a [result]. *)
Definition lift {A : Type} (r : result A) : outcome A :=
  match r with
  | Ok a => Done a
  | Err e => Fail (Raised e)
  end.

Ltac outcome_simpl := unfold mbind, outcome_bind; cbn beta iota.

(** ** gdk9/energy.py: required_delta and attune_text *)

(** [for d in range(first, first + n): if digital_root(current + d) == target:
    return d], and [return 0] after the loop. *)
Fixpoint first_delta (current target : Z) (zero_to_nine : bool) (d : Z) (n : nat) : Z :=
  match n with
  | O => 0
  | S n' =>
      if digital_root (current + d) zero_to_nine =? target then d
      else first_delta current target zero_to_nine (d + 1) n'
  end.

Definition required_delta (current target : Z) (zero_to_nine : bool) : Z :=
  if current =? target then 0
  else first_delta current target zero_to_nine 1 100.

Section Attune.
Variable U : Unicode.

(** [while new_dr != target and tries < 20]: [left] is [20 - tries]. *)
Fixpoint adjust (left : nat) (symbol : text) (pr : Principle) (target : Z)
  (new_text : text) (new_total new_dr : Z) : result (text * Z * Z) :=
  if new_dr =? target then Ok (new_text, new_total, new_dr)
  else match left with
       | O => Ok (new_text, new_total, new_dr)
       | S left' =>
           let new_text := new_text ++ symbol in
           '(new_total, new_dr) ← string_energy U new_text pr;
           adjust left' symbol pr target new_text new_total new_dr
       end.

Definition attune_text (txt : text) (target : Z) (pr : Principle) (method : string)
  (symbol : text) : outcome (text * Z * Z * Z) :=
  '(total, dr) ← lift (string_energy U txt pr);
  if negb ((1 <=? target) && (target <=? 9)) then Fail (Raised TargetOutOfRange)
  else if dr =? target then Done (txt, total, dr, 0)
  else if negb (String.eqb method "append") then Fail OnlyAppendSupported
  else
    sym_e ← lift (char_energy U symbol pr);
    let delta := required_delta total target (normalize_zero_to_nine pr) in
    if sym_e =? 0 then Fail ZeroEnergySymbol
    else
      let count := Z.max 1 ((delta + sym_e - 1) / sym_e) in
      let new_text := txt ++ str_repeat symbol count in
      '(new_total, new_dr) ← lift (string_energy U new_text pr);
      '(new_text, new_total, new_dr) ←
        lift (adjust 20 symbol pr target new_text new_total new_dr);
      Done (new_text, new_total, new_dr, count).

(** gdk9/utilization.py *)
Definition attune (txt : text) (target : Z) (pr : Principle) (symbol : text)
  : outcome (text * Z * Z * Z) :=
  attune_text txt target pr "append" symbol.

(** ** gdk9/energy.py: the views of a text *)

(** [d[k] += n] *)
Definition dict_add (d : gmap string Z) (k : string) (n : Z) : result (gmap string Z) :=
  match d !! k with
  | Some v => Ok (<[k := v + n]> d)
  | None => Err KeyError
  end.

Definition triad_of (r : Z) : string :=
  if (r =? 1) || (r =? 4) || (r =? 7) then "root"
  else if (r =? 2) || (r =? 5) || (r =? 8) then "wave"
  else "peak".

Fixpoint triads_loop (pr : Principle) (chars : list text) (triads : gmap string Z)
  : result (gmap string Z) :=
  match chars with
  | [] => Ok triads
  | ch :: rest =>
      e ← char_energy U ch pr;
      if e =? 0 then triads_loop pr rest triads
      else
        triads' ← dict_add triads (triad_of (e mod 9)) 1;
        triads_loop pr rest triads'
  end.

Definition harmonic_triads (txt : text) (pr : Principle) : result (gmap string Z) :=
  triads_loop pr (chars_of txt)
    (list_to_map [("root"%string, 0); ("wave"%string, 0); ("peak"%string, 0)]).

Fixpoint profile_loop (pr : Principle) (chars : list text) (profile : gmap string Z)
  : result (gmap string Z) :=
  match chars with
  | [] => Ok profile
  | ch :: rest =>
      e ← char_energy U ch pr;
      let key := pretty (if e =? 0 then 9 else e) in
      profile' ← dict_add profile key 1;
      profile_loop pr rest profile'
  end.

(** [str(i)] is [pretty i]. *)
Definition energy_profile (txt : text) (pr : Principle) : result (gmap string Z) :=
  profile_loop pr (chars_of txt)
    (list_to_map (map (fun i : Z => (pretty i, 0)) (seqZ 1 9))).

(** The three running sums of [vector_energy]. *)
Fixpoint vector_loop (pr : Principle) (chars : list text) (letters digits symbols : Z)
  : result (Z * Z * Z) :=
  match chars with
  | [] => Ok (letters, digits, symbols)
  | ch :: rest =>
      if isspace U ch then vector_loop pr rest letters digits symbols
      else if isalpha U ch then
        e ← char_energy U ch pr; vector_loop pr rest (letters + e) digits symbols
      else if isdigit U ch then
        e ← char_energy U ch pr; vector_loop pr rest letters (digits + e) symbols
      else
        e ← char_energy U ch pr; vector_loop pr rest letters digits (symbols + e)
  end.

Definition vector_energy (txt : text) (pr : Principle)
  : result (gmap string (gmap string Z)) :=
  '(letters, digits, symbols) ← vector_loop pr (chars_of txt) 0 0 0;
  let z := normalize_zero_to_nine pr in
  Ok (list_to_map
        [ ("sum"%string,
           list_to_map [("letters"%string, letters); ("digits"%string, digits);
                        ("symbols"%string, symbols)]);
          ("dr"%string,
           list_to_map [("letters"%string, digital_root letters z);
                        ("digits"%string, digital_root digits z);
                        ("symbols"%string, digital_root symbols z)]) ]).
End Attune.

(** Whether adding [e] at most eight times to the residue [a] gives the
    residue [t]. *)
Definition steps_to (a e t : Z) : bool :=
  existsb (fun j => (a + j * e) mod 9 =? t) (seqZ 0 9).

(** How many of the energies [es] satisfy [P]. *)
Fixpoint how_many (P : Z -> bool) (es : list Z) : Z :=
  match es with
  | [] => 0
  | e :: es' => (if P e then 1 else 0) + how_many P es'
  end.

(** The energies of the characters of a text, as [string_energy] sums them. *)
Definition energies (U : Unicode) (txt : text) (pr : Principle) : result (list Z) :=
  mapM (fun ch => char_energy U ch pr) (chars_of txt).

(** [interleaved l1 l2 l]: the list [l] holds the elements of [l1] and those
    of [l2], each list in its order. *)
Inductive interleaved {A : Type} : list A -> list A -> list A -> Prop :=
| interleaved_nil : interleaved [] [] []
| interleaved_left x l1 l2 l : interleaved l1 l2 l -> interleaved (x :: l1) l2 (x :: l)
| interleaved_right x l1 l2 l : interleaved l1 l2 l -> interleaved l1 (x :: l2) (x :: l).

(** The list [l], counted from the index [i], without the elements at the
    positions [ps]. *)
Fixpoint remove_at {A : Type} (ps : list Z) (i : Z) (l : list A) : list A :=
  match l with
  | [] => []
  | x :: l' =>
      if bool_decide (i ∈ ps) then remove_at ps (i + 1) l'
      else x :: remove_at ps (i + 1) l'
  end.

(** Every slot of the table [best] stands for a choice of edits: one with
    the residue of the slot and as many edits as the slot counts, within
    [max_edits]. *)
Definition dp_sound (max_edits : Z) (pos_deltas : list (list edit_option))
  (best : odict best_entry) : Prop :=
  forall k (e : best_entry), od_get best k = Some e ->
    exists sel, selects pos_deltas sel /\ selection_delta sel mod 9 = k /\
                Z.of_nat (edits sel) = entry_count e /\
                (entry_count e <= max_edits \/ entry_count e = 0).

(** ** gdk9/crypto.py: the energy-driven cipher *)

(** A comprehension or loop whose body may fail, stopping at the first
    failure. *)
Fixpoint mapO {A B : Type} (f : A -> outcome B) (l : list A) : outcome (list B) :=
  match l with
  | [] => Done []
  | x :: l' => y ← f x; ys ← mapO f l'; Done (y :: ys)
  end.

(** [sorted(l)] on strings. *)
Fixpoint insert_str (s : text) (l : list text) : list text :=
  match l with
  | [] => [s]
  | x :: l' => if str_le s x then s :: l else x :: insert_str s l'
  end.

Definition sorted_strs (l : list text) : list text := foldr insert_str [] l.

(** [l.index(s)], [None] when [s] is not in [l]. *)
Fixpoint index_of (s : text) (l : list text) : option nat :=
  match l with
  | [] => None
  | x :: l' => if bool_decide (x = s) then Some 0%nat else S <$> index_of s l'
  end.

(** [sorted(set(principle.symbol_energy.keys()))] *)
Definition known_symbols (pr : Principle) : list text :=
  sorted_strs (map fst (map_to_list (symbol_energy pr))).

Section Crypto.
Variable U : Unicode.
(** [str.isupper] on the code points from 128 on. *)
Variable u_isupper : Z -> bool.

Definition chr_isupper_any (c : Z) : bool :=
  if is_ascii c then chr_isupper c else u_isupper c.

(** [ks = [char_energy(ch, principle) or 1 for ch in key]], then
    [out.append(ks[i % len(ks)] or 1)] for [i] from 0 while
    [len(out) < length]. *)
Definition _keystream (pr : Principle) (key : text) (length_ : Z) : outcome (list Z) :=
  match key with
  | [] => Fail EmptyKey
  | _ =>
      ks ← lift (mapM (fun ch => e ← char_energy U ch pr; Ok (if e =? 0 then 1 else e))
                      (chars_of key));
      mapO (fun i => match ks !! Z.to_nat (i mod Z.of_nat (length ks)) with
                     | Some k => Done (if k =? 0 then 1 else k)
                     | None => Fail IndexOutOfRange
                     end)
           (seqZ 0 length_)
  end.

(** [ord(ch)] raises for a string that is not one character; what
    [ch.isupper()] gives before is then of no account. *)
Definition _rotate_letter (ch : text) (k : Z) : result text :=
  if negb (isalpha U ch) then Ok ch
  else match ch with
       | [c] =>
           let base := if chr_isupper_any c then 65 else 97 in
           let off := (c - base + k) mod 26 in
           Ok [base + off]
       | _ => Err OrdTypeError
       end.

Definition _rotate_digit (ch : text) (k : Z) : result text :=
  if negb (isdigit U ch) then Ok ch
  else
    o ← ord ch;
    let off := (o - 48 + k mod 10) mod 10 in
    Ok [48 + off].

Definition _rotate_symbol (ch : text) (k : Z) (pr : Principle) : outcome text :=
  let symbols := known_symbols pr in
  match index_of ch symbols with
  | None => Done ch
  | Some idx =>
      match symbols !! Z.to_nat ((Z.of_nat idx + k) mod Z.of_nat (length symbols)) with
      | Some s => Done s
      | None => Fail IndexOutOfRange
      end
  end.

(** The body of the loops of [encrypt] and [decrypt], which differ in the
    sign of [k] only. *)
Definition rotate_char (pr : Principle) (ch : text) (k : Z) : outcome text :=
  if isalpha U ch then lift (_rotate_letter ch k)
  else if isdigit U ch then lift (_rotate_digit ch k)
  else if isspace U ch then Done ch
  else _rotate_symbol ch k pr.

Definition rotate_text (dir : Z -> Z) (pr : Principle) (ks : list Z) (txt : text)
  : outcome (list text) :=
  mapO (fun ich : Z * text =>
          match ks !! Z.to_nat (fst ich) with
          | Some k => rotate_char pr (snd ich) (dir k)
          | None => Fail IndexOutOfRange
          end)
       (enumerate (chars_of txt)).

Definition encrypt (txt key : text) (pr : Principle) : outcome text :=
  ks ← _keystream pr key (Z.of_nat (length txt));
  out ← rotate_text (fun k => k) pr ks txt;
  Done (concat out).

Definition decrypt (cipher key : text) (pr : Principle) : outcome text :=
  ks ← _keystream pr key (Z.of_nat (length cipher));
  out ← rotate_text Z.opp pr ks cipher;
  Done (concat out).
End Crypto.

(** An ASCII letter. *)
Definition ascii_letter (c : Z) : bool := chr_isupper c || chr_islower c.

(** * Properties *)

(** ** The checksum engine *)

Example test_digital_root :
  digital_root 0 true = 9 /\ digital_root 9 true = 9 /\
  digital_root 10 true = 1 /\ digital_root 26 true = 8.
Proof. repeat split; reflexivity. Qed.

Example test_char_energy :
  char_energy ascii_only (py "A") ninefold_grid = Ok 1 /\
  char_energy ascii_only (py "Z") ninefold_grid = Ok 8 /\
  char_energy ascii_only (py "0") ninefold_grid = Ok 9 /\
  char_energy ascii_only (py "5") ninefold_grid = Ok 5 /\
  char_energy ascii_only (py "?") ninefold_grid = Ok 4.
Proof. repeat split; vm_compute; reflexivity. Qed.

Example test_string_energy :
  string_energy ascii_only (py "ABC") ninefold_grid = Ok (6, 6).
Proof. vm_compute. reflexivity. Qed.

Lemma digital_root_range n z : 0 <= digital_root n z <= 9.
Proof.
  unfold digital_root.
  pose proof (Z.mod_pos_bound (Z.abs n) 9 ltac:(lia)).
  destruct (Z.abs n =? 0); [destruct z; lia|].
  destruct (Z.abs n mod 9 =? 0); lia.
Qed.

(** With zero normalised to nine the digital root is never zero. *)
Lemma digital_root_true_pos n : 1 <= digital_root n true <= 9.
Proof.
  unfold digital_root.
  pose proof (Z.mod_pos_bound (Z.abs n) 9 ltac:(lia)).
  destruct (Z.abs n =? 0); [lia|].
  destruct (Z.eqb_spec (Z.abs n mod 9) 0); lia.
Qed.

Lemma digital_root_mod n z : digital_root n z mod 9 = Z.abs n mod 9.
Proof.
  unfold digital_root.
  destruct (Z.eqb_spec (Z.abs n) 0) as [->|_]; [by destruct z|].
  destruct (Z.eqb_spec (Z.abs n mod 9) 0) as [->|_]; [done|].
  by rewrite Z.mod_mod.
Qed.

Lemma digital_root_nonneg_mod n z : 0 <= n -> digital_root n z mod 9 = n mod 9.
Proof. intros Hn. rewrite digital_root_mod. by rewrite Z.abs_eq. Qed.

(** A total that is not zero and is congruent to a target in 1..9 has this
    target as its digital root. *)
Lemma digital_root_hits n z t :
  0 < n -> 1 <= t <= 9 -> n mod 9 = t mod 9 -> digital_root n z = t.
Proof.
  intros Hn Ht Hmod. unfold digital_root.
  rewrite Z.abs_eq by lia.
  destruct (Z.eqb_spec n 0); [lia|].
  rewrite Hmod.
  destruct (Z.eq_dec t 9) as [->|]; [done|].
  rewrite (Z.mod_small t 9) by lia.
  destruct (Z.eqb_spec t 0); lia.
Qed.

(** C5, as the code has it: [digital_root] takes the absolute value first, so
    it is congruent to [|n|] modulo 9 (to [n] itself when [n >= 0]); it is
    idempotent; it is 9 when [n] is not zero and [|n| % 9 = 0], and
    [|n| % 9] when that is not zero; [digital_root(0)] is 9 under the default
    configuration and 0 when zero is not normalised to nine. *)
Theorem digital_root_spec (n : Z) (z : bool) :
  digital_root n z mod 9 = Z.abs n mod 9 /\
  digital_root (digital_root n z) z = digital_root n z /\
  (n <> 0 -> Z.abs n mod 9 = 0 -> digital_root n z = 9) /\
  (Z.abs n mod 9 <> 0 -> digital_root n z = Z.abs n mod 9) /\
  digital_root 0 true = 9 /\
  digital_root 0 false = 0.
Proof.
  split; [apply digital_root_mod|].
  split.
  { pose proof (digital_root_range n z) as Hr.
    pose proof (digital_root_mod n z) as Hm.
    unfold digital_root at 1.
    rewrite Z.abs_eq by lia.
    destruct (Z.eqb_spec (digital_root n z) 0) as [H0|H0].
    - rewrite H0. unfold digital_root in H0 |- *.
      destruct (Z.abs n =? 0); [by destruct z|].
      pose proof (Z.mod_pos_bound (Z.abs n) 9 ltac:(lia)).
      destruct (Z.eqb_spec (Z.abs n mod 9) 0); lia.
    - destruct (Z.eq_dec (digital_root n z) 9) as [->|H9]; [done|].
      rewrite (Z.mod_small (digital_root n z) 9) by lia.
      destruct (Z.eqb_spec (digital_root n z) 0); lia. }
  split.
  { intros Hn Hm. unfold digital_root.
    destruct (Z.eqb_spec (Z.abs n) 0); [lia|]. by rewrite Hm. }
  split.
  { intros Hm. unfold digital_root.
    destruct (Z.eqb_spec (Z.abs n) 0) as [E|_]; [by rewrite E in Hm|].
    destruct (Z.eqb_spec (Z.abs n mod 9) 0); [done|done]. }
  split; reflexivity.
Qed.

(** C5 as stated fails on a negative integer: [digital_root(-1)] is 1, while
    [-1 % 9] is 8 in Python. *)
Lemma digital_root_negative_not_congruent :
  digital_root (-1) true = 1 /\ (-1) mod 9 = 8 /\
  digital_root (-1) true mod 9 <> (-1) mod 9 /\
  digital_root (-1) true <> (-1) mod 9.
Proof. repeat split; vm_compute; congruence. Qed.

(** ** The planners on sample inputs *)

(** The test of the repository: "Hello, world!" attuned to 7. *)
Example test_optimize_reaches_target :
  exists plan out,
    optimize_attunement ascii_only (py "Hello, world!") 7 ninefold_grid
      (Some (py ".!?*+")) "append" 64 = Ok plan /\
    apply_plan (py "Hello, world!") plan None = Ok out /\
    out = py "Hello, world!?" /\
    string_energy ascii_only out ninefold_grid = Ok (61, 7).
Proof. eexists _, _. repeat split; vm_compute; reflexivity. Qed.

(** C1 fails when zero is not normalised to nine: the text "0" then has
    total 0 and digital root 0, the target 9 asks for the residue delta 0,
    for which [minimal_residue_combo] answers with the empty sequence; under
    each of the three methods the plan is empty, the text stays as it is and
    its digital root stays 0. *)
Lemma attunement_misses_nine_from_zero :
  string_energy ascii_only (py "0") ninefold_no_normalize = Ok (0, 0) /\
  Forall (fun method =>
            exists plan,
              optimize_attunement ascii_only (py "0") 9 ninefold_no_normalize None
                method 64 = Ok plan /\
              steps plan = [] /\ p_target plan = 9 /\ p_dr_after plan = 0 /\
              apply_plan (py "0") plan None = Ok (py "0"))
         ["append"%string; "prepend"%string; "intersperse"%string].
Proof.
  split; [vm_compute; reflexivity|].
  repeat constructor; eexists; repeat split; vm_compute; reflexivity.
Qed.

(** C2 fails: on "113" with the catalog 1 -> 2, 3 -> 5 | 6 and the target 1
    the table [best] ends with the slot of residue 5 pointing back to residue
    2, whose slot was overwritten at the same position; the plan holds two
    substitutions of position 2 and yields "116", of digital root 8. *)
Lemma substitution_plan_misses_target :
  exists plan,
    optimize_substitution ascii_only (py "113") 1 ninefold_grid
      (Some digit_catalog) false None 8 = Ok plan /\
    e_target plan = 1 /\
    apply_edit_plan (py "113") plan = Ok (py "116") /\
    string_energy ascii_only (py "116") ninefold_grid = Ok (8, 8) /\
    string_energy ascii_only (py "226") ninefold_grid = Ok (10, 1).
Proof. eexists. repeat split; vm_compute; reflexivity. Qed.

(** C4 fails on the same input: both operations of the plan are
    substitutions of position 2. *)
Lemma substitution_plan_repeats_position :
  exists plan,
    optimize_substitution ascii_only (py "113") 1 ninefold_grid
      (Some digit_catalog) false None 8 = Ok plan /\
    ops plan = [ Build_EditOp "sub" 2 (Some (py "5")) 1;
                 Build_EditOp "sub" 2 (Some (py "6")) 1 ] /\
    ~ NoDup (map pos (ops plan)).
Proof.
  eexists. split; [vm_compute; reflexivity|]. split; [reflexivity|].
  cbn. intros H. apply NoDup_cons in H as [H _]. apply H. left.
Qed.

(** ** C6: a text that is attuned already *)

Section Attuned.
Variable U : Unicode.

(** C6: when the digital root of the text is the target already, both
    planners return an empty plan, and applying it returns the text. *)
Theorem attuned_text_gets_empty_plan (txt : text) (target total : Z) (pr : Principle)
  (allowed_symbols : option text) (method : string) (max_steps : Z)
  (subs : option (gmap text (list text))) (allow_delete : bool)
  (allowed_inserts : option text) (max_edits : Z) :
  1 <= target <= 9 ->
  string_energy U txt pr = Ok (total, target) ->
  (exists plan,
      optimize_attunement U txt target pr allowed_symbols method max_steps = Ok plan /\
      steps plan = [] /\
      forall spread, apply_plan txt plan spread = Ok txt) /\
  (exists plan,
      optimize_substitution U txt target pr subs allow_delete allowed_inserts max_edits
        = Ok plan /\
      ops plan = [] /\
      apply_edit_plan txt plan = Ok txt).
Proof.
  intros Ht He. split.
  - eexists. unfold optimize_attunement. rewrite He. cbn.
    assert ((1 <=? target) && (target <=? 9) = true) as -> by lia.
    cbn. rewrite Z.eqb_refl. repeat split.
  - eexists. unfold optimize_substitution. rewrite He. cbn.
    assert ((1 <=? target) && (target <=? 9) = true) as -> by lia.
    cbn. rewrite Z.eqb_refl. repeat split.
Qed.
End Attuned.

Lemma attuned_text_gets_empty_plan_witness :
  (exists plan,
      optimize_attunement ascii_only (py "ABC") 6 ninefold_grid None "append" 64 = Ok plan /\
      steps plan = [] /\
      forall spread, apply_plan (py "ABC") plan spread = Ok (py "ABC")) /\
  (exists plan,
      optimize_substitution ascii_only (py "ABC") 6 ninefold_grid None false None 8
        = Ok plan /\
      ops plan = [] /\
      apply_edit_plan (py "ABC") plan = Ok (py "ABC")).
Proof.
  apply (attuned_text_gets_empty_plan ascii_only (py "ABC") 6 6 ninefold_grid).
  - lia.
  - vm_compute. reflexivity.
Defined.

(** ** C7: the order of the operations in an edit plan *)

Lemma filter_kind_app (k : string) (l1 l2 : list EditOp) :
  filter (fun op => has_kind k op = true) (l1 ++ l2)
  = filter (fun op => has_kind k op = true) l1 ++ filter (fun op => has_kind k op = true) l2.
Proof. apply filter_app. Qed.

Lemma filter_kind_cons (k : string) (op : EditOp) (l : list EditOp) :
  filter (fun op => has_kind k op = true) (op :: l)
  = if has_kind k op then op :: filter (fun op => has_kind k op = true) l
    else filter (fun op => has_kind k op = true) l.
Proof.
  rewrite filter_cons. destruct (has_kind k op) eqn:E.
  - rewrite decide_True; done.
  - rewrite decide_False; [done|]. congruence.
Qed.

Lemma filter_kind_none (k : string) (l : list EditOp) :
  Forall (fun op => kind op <> k) l ->
  filter (fun op => has_kind k op = true) l = [].
Proof.
  induction 1 as [|op l Hop _ IH]; [done|].
  rewrite filter_kind_cons, IH. unfold has_kind.
  by destruct (String.eqb_spec (kind op) k).
Qed.

(** Two operations of different kinds can change places when no operation of
    either kind stands between them: each loop of [apply_edit_plan] sees the
    same list. *)
Lemma apply_edit_plan_swap (txt : text) (a b : EditOp) (pre mid post : list EditOp)
  (m : string) (t tb db ta da : Z) :
  kind a <> kind b ->
  Forall (fun op => kind op <> kind a /\ kind op <> kind b) mid ->
  apply_edit_plan txt (Build_EditPlan m t (pre ++ a :: mid ++ b :: post) tb db ta da)
  = apply_edit_plan txt (Build_EditPlan m t (pre ++ b :: mid ++ a :: post) tb db ta da).
Proof.
  intros Hk Hmid. unfold apply_edit_plan. cbn [ops].
  assert (forall k,
    filter (fun op => has_kind k op = true) (pre ++ a :: mid ++ b :: post)
    = filter (fun op => has_kind k op = true) (pre ++ b :: mid ++ a :: post)) as Hf.
  { intros k.
    rewrite !filter_kind_app, !filter_kind_cons, !filter_kind_app, !filter_kind_cons.
    destruct (has_kind k a) eqn:Ea, (has_kind k b) eqn:Eb; try done.
    - apply String.eqb_eq in Ea, Eb. congruence.
    - apply String.eqb_eq in Ea.
      rewrite (filter_kind_none k mid); [done|].
      eapply Forall_impl; [exact Hmid|]. cbn. intros op [H1 _]. congruence.
    - apply String.eqb_eq in Eb.
      rewrite (filter_kind_none k mid); [done|].
      eapply Forall_impl; [exact Hmid|]. cbn. intros op [_ H2]. congruence. }
  rewrite !Hf.
  destruct pre; reflexivity.
Qed.

(** C7: a deletion at position 5 and an insertion at position 2 give the
    same output in either order, next to each other or with operations of
    other kinds between them, whatever the plan holds before and after. *)
Theorem delete_insert_order_irrelevant (txt : text) (pre mid post : list EditOp)
  (c c' : option text) (n n' : Z) (m : string) (t tb db ta da : Z) :
  let d := Build_EditOp "del" 5 c' n' in
  let i := Build_EditOp "ins" 2 c n in
  Forall (fun op => kind op <> "del"%string /\ kind op <> "ins"%string) mid ->
  apply_edit_plan txt (Build_EditPlan m t (pre ++ d :: mid ++ i :: post) tb db ta da)
  = apply_edit_plan txt (Build_EditPlan m t (pre ++ i :: mid ++ d :: post) tb db ta da).
Proof. intros d i Hmid. by apply apply_edit_plan_swap. Qed.

Lemma delete_insert_order_irrelevant_witness :
  apply_edit_plan (py "abcdefgh")
    (edit_plan_of ([] ++ Build_EditOp "del" 5 None 1 :: []
                      ++ Build_EditOp "ins" 2 (Some (py "+")) 2 :: []))
  = apply_edit_plan (py "abcdefgh")
    (edit_plan_of ([] ++ Build_EditOp "ins" 2 (Some (py "+")) 2 :: []
                      ++ Build_EditOp "del" 5 None 1 :: [])).
Proof.
  apply (delete_insert_order_irrelevant (py "abcdefgh") [] [] [] (Some (py "+")) None 2 1).
  apply Forall_nil_2.
Defined.

Example delete_insert_example :
  apply_edit_plan (py "abcdefgh")
    (edit_plan_of [Build_EditOp "del" 5 None 1; Build_EditOp "ins" 2 (Some (py "+")) 2])
  = Ok (py "ab++cdegh") /\
  apply_edit_plan (py "abcdefgh")
    (edit_plan_of [Build_EditOp "ins" 2 (Some (py "+")) 2; Build_EditOp "del" 5 None 1])
  = Ok (py "ab++cdegh").
Proof. split; vm_compute; reflexivity. Qed.

(** With another insertion at position 2 between the two operations the
    order does matter: insertions at one position are applied in the order
    of the list. *)
Example insert_between_changes_output :
  apply_edit_plan (py "abcdefgh")
    (edit_plan_of [Build_EditOp "ins" 2 (Some (py "x")) 1;
                   Build_EditOp "ins" 2 (Some (py "y")) 1;
                   Build_EditOp "del" 5 None 1])
  = Ok (py "abyxcdegh") /\
  apply_edit_plan (py "abcdefgh")
    (edit_plan_of [Build_EditOp "del" 5 None 1;
                   Build_EditOp "ins" 2 (Some (py "y")) 1;
                   Build_EditOp "ins" 2 (Some (py "x")) 1])
  = Ok (py "abxycdegh").
Proof. split; vm_compute; reflexivity. Qed.

(** ** C8: targets outside 1..9 *)

Section InvalidTarget.
Variable U : Unicode.

(** Both planners compute the checksum of the text before they look at the
    target.  For a target outside 1..9 neither returns a plan, and both
    raise the invalid-target error whenever the checksum of the text can be
    computed. *)
Theorem out_of_range_target_rejected (txt : text) (target : Z) (pr : Principle)
  (allowed_symbols : option text) (method : string) (max_steps : Z)
  (subs : option (gmap text (list text))) (allow_delete : bool)
  (allowed_inserts : option text) (max_edits : Z) :
  ~ (1 <= target <= 9) ->
  (forall plan,
      optimize_attunement U txt target pr allowed_symbols method max_steps <> Ok plan) /\
  (forall plan,
      optimize_substitution U txt target pr subs allow_delete allowed_inserts max_edits
        <> Ok plan) /\
  (forall t, string_energy U txt pr = Ok t ->
      optimize_attunement U txt target pr allowed_symbols method max_steps
        = Err TargetOutOfRange /\
      optimize_substitution U txt target pr subs allow_delete allowed_inserts max_edits
        = Err TargetOutOfRange).
Proof.
  intros Ht.
  assert (negb ((1 <=? target) && (target <=? 9)) = true) as Hneg by lia.
  unfold optimize_attunement, optimize_substitution.
  destruct (string_energy U txt pr) as [[total dr]|e]; bind_simpl; rewrite ?Hneg.
  - repeat split; congruence.
  - repeat split; congruence.
Qed.
End InvalidTarget.

Lemma out_of_range_target_rejected_witness :
  (forall plan,
      optimize_attunement ascii_only (py "ABC") 10 ninefold_grid None "append" 64 <> Ok plan) /\
  (forall plan,
      optimize_substitution ascii_only (py "ABC") 10 ninefold_grid None false None 8
        <> Ok plan) /\
  (forall t, string_energy ascii_only (py "ABC") ninefold_grid = Ok t ->
      optimize_attunement ascii_only (py "ABC") 10 ninefold_grid None "append" 64
        = Err TargetOutOfRange /\
      optimize_substitution ascii_only (py "ABC") 10 ninefold_grid None false None 8
        = Err TargetOutOfRange).
Proof.
  apply (out_of_range_target_rejected ascii_only (py "ABC") 10 ninefold_grid).
  lia.
Defined.

(** C8 fails on a text whose checksum cannot be computed: for the sharp s
    (U+00DF, a letter whose upper case is "SS") [letter_value] calls [ord]
    on a string of two characters, and this [TypeError] comes before the
    check of the target; the planners raise it, not the invalid-target
    error. *)
Lemma out_of_range_target_other_error :
  ~ (1 <= 0 <= 9) /\
  optimize_attunement latin1_sample [223] 0 ninefold_grid None "append" 64
    = Err OrdTypeError /\
  optimize_substitution latin1_sample [223] 0 ninefold_grid None false None 8
    = Err OrdTypeError /\
  Err OrdTypeError <> @Err Plan TargetOutOfRange.
Proof. split; [lia|]. repeat split; try (vm_compute; reflexivity). congruence. Qed.

(** ** Which exceptions come from where *)

Section Errors.
Variable U : Unicode.

Lemma ord_error s e : ord s = Err e -> builtin_error e.
Proof. destruct s as [|c [|]]; cbn; intros [=]; subst; by right. Qed.

Lemma int_digits_error acc s e : int_digits U acc s = Err e -> builtin_error e.
Proof.
  revert acc. induction s as [|c s IH]; intros acc; cbn; [done|].
  destruct (chr_decimal U c); [apply IH|]. intros [= <-]. by left.
Qed.

Lemma int_error s e : int U s = Err e -> builtin_error e.
Proof.
  destruct s; cbn -[int_digits]; [intros [= <-]; by left|]. apply int_digits_error.
Qed.

Lemma letter_value_error s e : letter_value U s = Err e -> builtin_error e.
Proof.
  unfold letter_value.
  destruct (_ && _); [|apply ord_error].
  destruct (ord (upper U s)) eqn:E; bind_simpl; [done|].
  intros [= <-]. by eapply ord_error.
Qed.

Lemma char_energy_error s pr e : char_energy U s pr = Err e -> builtin_error e.
Proof.
  unfold char_energy.
  destruct (isspace U s); [done|].
  destruct (isalpha U s).
  { destruct (String.eqb _ _).
    - destruct (letter_value U s) eqn:E; bind_simpl; [done|].
      intros [= <-]. by eapply letter_value_error.
    - destruct (ord s) eqn:E; bind_simpl; [done|].
      intros [= <-]. by eapply ord_error. }
  destruct (isdigit U s).
  { destruct (int U s) eqn:E; bind_simpl; [done|].
    intros [= <-]. by eapply int_error. }
  destruct (symbol_energy pr !! s); [done|].
  destruct (ord s) eqn:E; bind_simpl; [done|].
  intros [= <-]. by eapply ord_error.
Qed.

Lemma mapM_error {A B : Type} (f : A -> result B) (P : error -> Prop) l e :
  (forall x e, f x = Err e -> P e) -> mapM f l = Err e -> P e.
Proof.
  intros Hf. induction l as [|x l IH]; cbn; [done|].
  destruct (f x) eqn:E; bind_simpl; [|intros [= <-]; by eapply Hf].
  destruct (mapM f l); bind_simpl; [done|]. intros [= <-]. by apply IH.
Qed.

Lemma string_energy_error s pr e : string_energy U s pr = Err e -> builtin_error e.
Proof.
  unfold string_energy.
  destruct (mapM _ _) eqn:E; bind_simpl; [done|].
  intros [= <-]. eapply mapM_error; [|exact E].
  intros x e'. apply char_energy_error.
Qed.

Lemma allowed_pairs_error l pr e : allowed_pairs U l pr = Err e -> builtin_error e.
Proof.
  induction l as [|s l IH]; cbn; [done|].
  destruct (char_energy U s pr) eqn:E; bind_simpl;
    [|intros [= <-]; by eapply char_energy_error].
  destruct (allowed_pairs U l pr); bind_simpl; [done|].
  intros [= <-]. by apply IH.
Qed.

Lemma walk_back_error fuel parent at_ seq e :
  walk_back fuel parent at_ seq = Err e -> table_error e.
Proof.
  revert at_ seq. induction fuel as [|fuel IH]; intros at_ seq; cbn.
  - destruct (at_ =? 0); [done|]. intros [= <-]. by right.
  - destruct (at_ =? 0); [done|].
    destruct (parent !! at_) as [[prev i]|]; [apply IH|].
    intros [= <-]. by left.
Qed.

Lemma expand_error delta_res cur d rs idx st e :
  expand delta_res cur d rs idx st = Err e -> table_error e.
Proof.
  revert idx st. induction rs as [|r rs IH]; intros idx st; cbn -[walk_back]; [done|].
  destruct (parent st !! _); [apply IH|].
  destruct (_ =? delta_res); [|apply IH].
  destruct (walk_back _ _ _ _) eqn:E; bind_simpl; [done|].
  intros [= <-]. by eapply walk_back_error.
Qed.

Lemma bfs_error fuel delta_res residues max_steps st e :
  bfs fuel delta_res residues max_steps st = Err e -> table_error e.
Proof.
  revert st. induction fuel as [|fuel IH]; intros st; cbn.
  - destruct (queue st); [done|]. intros [= <-]. by right.
  - destruct (queue st) as [|cur q']; [done|].
    destruct (depth st !! cur) as [d|]; [|intros [= <-]; by left].
    destruct (d >=? max_steps); [apply IH|].
    destruct (expand _ _ _ _ _ _) as [[seq|st']|e'] eqn:E; bind_simpl.
    + done.
    + apply IH.
    + intros [= <-]. by eapply expand_error.
Qed.

Lemma minimal_residue_combo_error delta_res allowed max_steps e :
  minimal_residue_combo delta_res allowed max_steps = Err e -> table_error e.
Proof.
  unfold minimal_residue_combo.
  destruct (delta_res =? 0); [done|].
  destruct (forallb _ _); [done|]. apply bfs_error.
Qed.
End Errors.

(** ** C10: the default symbols *)

Section DefaultSymbols.
Variable U : Unicode.

Lemma weighted_range pr base k : 0 <= weighted pr base k <= 9.
Proof. apply digital_root_range. Qed.

Lemma char_energy_range s pr e : char_energy U s pr = Ok e -> 0 <= e <= 9.
Proof.
  unfold char_energy.
  destruct (isspace U s); [intros [= <-]; lia|].
  destruct (isalpha U s).
  { destruct (if String.eqb _ _ then _ else _); bind_simpl; [|done].
    intros [= <-]. apply weighted_range. }
  destruct (isdigit U s).
  { destruct (int U s); bind_simpl; [|done]. intros [= <-]. apply weighted_range. }
  destruct (symbol_energy pr !! s); [intros [= <-]; apply weighted_range|].
  destruct (ord s); bind_simpl; [|done]. intros [= <-]. apply weighted_range.
Qed.

(** With zero normalised to nine only white space has energy 0. *)
Lemma char_energy_nonzero s pr e :
  normalize_zero_to_nine pr = true ->
  isspace U s = false ->
  char_energy U s pr = Ok e -> 1 <= e <= 9.
Proof.
  intros Hz Hs. unfold char_energy, weighted. rewrite Hs, Hz.
  destruct (isalpha U s).
  { destruct (if String.eqb _ _ then _ else _); bind_simpl; [|done].
    intros [= <-]. apply digital_root_true_pos. }
  destruct (isdigit U s).
  { destruct (int U s); bind_simpl; [|done]. intros [= <-]. apply digital_root_true_pos. }
  destruct (symbol_energy pr !! s); [intros [= <-]; apply digital_root_true_pos|].
  destruct (ord s); bind_simpl; [|done]. intros [= <-]. apply digital_root_true_pos.
Qed.

Lemma allowed_pairs_nil l pr :
  allowed_pairs U l pr = Ok [] -> Forall (fun s => char_energy U s pr = Ok 0) l.
Proof.
  induction l as [|s l IH]; cbn; [constructor|].
  destruct (char_energy U s pr) as [e|] eqn:E; bind_simpl; [|done].
  destruct (allowed_pairs U l pr) as [l'|]; bind_simpl; [|done].
  destruct (Z.eqb_spec e 0) as [->|]; [|done].
  intros [= ->]. constructor; [done|]. by apply IH.
Qed.

Lemma default_symbols_not_space :
  Forall (fun s => isspace U s = false) (chars_of default_symbols).
Proof. repeat constructor. Qed.

(** The planner raises the empty-set error only when every symbol of the
    set it plans over has energy 0. *)
Lemma no_allowed_symbols_inv txt target pr allowed_symbols method max_steps :
  optimize_attunement U txt target pr allowed_symbols method max_steps
    = Err NoAllowedSymbols ->
  Forall (fun s => char_energy U s pr = Ok 0)
    (chars_of match allowed_symbols with
              | None | Some [] => default_symbols
              | Some s => s
              end).
Proof.
  unfold optimize_attunement.
  destruct (string_energy U txt pr) as [[total dr]|e] eqn:Ee; bind_simpl.
  2: { intros [= ->]. apply string_energy_error in Ee. by destruct Ee. }
  destruct (negb _); [done|].
  destruct (dr =? target); [done|].
  destruct (allowed_pairs U _ pr) as [[|a al]|e] eqn:Ea; bind_simpl.
  - intros _. by apply allowed_pairs_nil.
  - destruct (minimal_residue_combo _ _ _) as [[seq|]|e] eqn:Em; bind_simpl.
    + destruct (mapM _ _) as [es|e] eqn:Es; bind_simpl; [done|].
      intros [= ->].
      assert (builtin_error NoAllowedSymbols) as [|]; [|done|done].
      eapply mapM_error; [|exact Es].
      intros [s c] e'. cbn. destruct (char_energy U s pr) eqn:Ec; bind_simpl; [done|].
      intros [= <-]. by eapply char_energy_error.
    + done.
    + intros [= ->]. apply minimal_residue_combo_error in Em. by destruct Em.
  - intros [= ->]. apply allowed_pairs_error in Ea. by destruct Ea.
Qed.

Lemma allowed_pairs_all_zero l pr :
  Forall (fun s => char_energy U s pr = Ok 0) l -> allowed_pairs U l pr = Ok [].
Proof.
  induction 1 as [|s l Hs _ IH]; cbn; [done|]. rewrite Hs, IH. by bind_simpl.
Qed.

(** The empty-set error is raised exactly when the planner gets as far as
    its symbols and every symbol of the set it plans over has energy 0. *)
Lemma no_allowed_symbols_iff txt target pr allowed_symbols method max_steps :
  optimize_attunement U txt target pr allowed_symbols method max_steps
    = Err NoAllowedSymbols <->
  (exists total dr, string_energy U txt pr = Ok (total, dr) /\
                    1 <= target <= 9 /\ dr <> target) /\
  Forall (fun c => char_energy U [c] pr = Ok 0) (effective_symbols allowed_symbols).
Proof.
  split.
  - intros Herr. split.
    + revert Herr. unfold optimize_attunement.
      destruct (string_energy U txt pr) as [[total dr]|e] eqn:Ee; bind_simpl.
      2: { intros [= ->]. apply string_energy_error in Ee. by destruct Ee. }
      destruct (negb _) eqn:Hneg; [done|].
      destruct (Z.eqb_spec dr target); [done|]. intros _.
      exists total, dr. split; [done|]. split; [|done].
      apply negb_false_iff in Hneg. lia.
    + apply no_allowed_symbols_inv in Herr. fold (effective_symbols allowed_symbols) in Herr.
      unfold chars_of in Herr. by apply Forall_map in Herr.
  - intros [(total & dr & He & Ht & Hdr) H0]. unfold optimize_attunement.
    rewrite He. bind_simpl.
    assert ((1 <=? target) && (target <=? 9) = true) as -> by lia. cbn [negb].
    destruct (Z.eqb_spec dr target); [done|].
    fold (effective_symbols allowed_symbols).
    rewrite allowed_pairs_all_zero; [done|].
    unfold chars_of. by apply Forall_map.
Qed.

(** C10, as the code has it: an absent or empty [allowed_symbols] stands for
    the default set ".!?,*+", whatever the principle.  The empty-set error
    is raised exactly when the text has an energy, the target is in 1..9 and
    not the digital root of the text, and every symbol of the set planned
    over, the given one or the default one, has energy 0.  With zero
    normalised to nine the default symbols never all have energy 0; and
    whenever they do not, the error is not raised for an absent or empty
    set, and is raised only for a non-empty set given by the caller all of
    whose symbols have energy 0. *)
Theorem default_symbols_when_none (txt : text) (target : Z) (pr : Principle)
  (method : string) (max_steps : Z) :
  optimize_attunement U txt target pr None method max_steps
    = optimize_attunement U txt target pr (Some default_symbols) method max_steps /\
  optimize_attunement U txt target pr (Some []) method max_steps
    = optimize_attunement U txt target pr (Some default_symbols) method max_steps /\
  (forall allowed_symbols,
      optimize_attunement U txt target pr allowed_symbols method max_steps
        = Err NoAllowedSymbols <->
      (exists total dr, string_energy U txt pr = Ok (total, dr) /\
                        1 <= target <= 9 /\ dr <> target) /\
      Forall (fun c => char_energy U [c] pr = Ok 0) (effective_symbols allowed_symbols)) /\
  (normalize_zero_to_nine pr = true ->
   ~ Forall (fun c => char_energy U [c] pr = Ok 0) default_symbols) /\
  (~ Forall (fun c => char_energy U [c] pr = Ok 0) default_symbols ->
   optimize_attunement U txt target pr None method max_steps <> Err NoAllowedSymbols /\
   optimize_attunement U txt target pr (Some []) method max_steps <> Err NoAllowedSymbols /\
   (forall allowed_symbols,
       optimize_attunement U txt target pr allowed_symbols method max_steps
         = Err NoAllowedSymbols ->
       exists s, allowed_symbols = Some s /\ s <> [] /\
                 Forall (fun c => char_energy U [c] pr = Ok 0) s)).
Proof.
  split; [reflexivity|]. split; [reflexivity|].
  split; [intros a; apply no_allowed_symbols_iff|].
  split.
  - intros Hz H0.
    pose proof default_symbols_not_space as Hs.
    apply Forall_cons_1 in H0 as [H0 _]. apply Forall_cons_1 in Hs as [Hs _].
    pose proof (char_energy_nonzero _ _ _ Hz Hs H0). lia.
  - intros Hsome.
    assert (forall a, a = None \/ a = Some [] ->
      optimize_attunement U txt target pr a method max_steps <> Err NoAllowedSymbols) as Hdef.
    { intros a Ha Herr. apply no_allowed_symbols_iff in Herr as [_ H0].
      apply Hsome. by destruct Ha as [-> | ->]. }
    split; [apply Hdef; by left|]. split; [apply Hdef; by right|].
    intros a Herr. destruct a as [[|c s]|].
    + exfalso. eapply Hdef; [|exact Herr]. by right.
    + exists (c :: s). split; [done|]. split; [done|].
      by apply no_allowed_symbols_iff in Herr as [_ H0].
    + exfalso. eapply Hdef; [|exact Herr]. by left.
Qed.
End DefaultSymbols.

(** Under the Ninefold Grid without the normalisation of zero the default
    symbols have energies other than 0, and the claim holds as stated. *)
Lemma default_symbols_when_none_witness :
  optimize_attunement ascii_only (py "ABC") 1 ninefold_no_normalize None "append" 64
    = optimize_attunement ascii_only (py "ABC") 1 ninefold_no_normalize
        (Some default_symbols) "append" 64 /\
  optimize_attunement ascii_only (py "ABC") 1 ninefold_no_normalize (Some []) "append" 64
    = optimize_attunement ascii_only (py "ABC") 1 ninefold_no_normalize
        (Some default_symbols) "append" 64 /\
  optimize_attunement ascii_only (py "ABC") 1 ninefold_no_normalize None "append" 64
    <> Err NoAllowedSymbols /\
  optimize_attunement ascii_only (py "ABC") 1 ninefold_no_normalize (Some []) "append" 64
    <> Err NoAllowedSymbols /\
  (forall allowed_symbols,
      optimize_attunement ascii_only (py "ABC") 1 ninefold_no_normalize allowed_symbols
        "append" 64 = Err NoAllowedSymbols ->
      exists s, allowed_symbols = Some s /\ s <> [] /\
                Forall (fun c => char_energy ascii_only [c] ninefold_no_normalize = Ok 0) s).
Proof.
  destruct (default_symbols_when_none ascii_only (py "ABC") 1 ninefold_no_normalize
              "append" 64) as (Hnone & Hempty & _ & _ & Hsome).
  split; [exact Hnone|]. split; [exact Hempty|].
  apply Hsome. intros H0. apply Forall_cons_1 in H0 as [H0 _].
  vm_compute in H0. discriminate H0.
Defined.

(** C10 as stated fails for a principle under which the default symbols have
    energy 0 (symbol weight 0, zero not normalised to nine): with
    [allowed_symbols] absent the planner filters the default set down to
    nothing and raises the empty-set error. *)
Lemma default_symbols_can_be_weightless :
  Forall (fun s => char_energy ascii_only s weightless_symbols = Ok 0)
    (chars_of default_symbols) /\
  optimize_attunement ascii_only (py "A") 2 weightless_symbols None "append" 64
    = Err NoAllowedSymbols /\
  optimize_attunement ascii_only (py "A") 2 weightless_symbols (Some []) "append" 64
    = Err NoAllowedSymbols.
Proof.
  split; [repeat constructor|]. split; vm_compute; reflexivity.
Qed.

(** ** C9: operations out of range *)

Section StableSort.
Variable before : Z -> Z -> bool.
Hypothesis before_trans :
  forall a b c, before a b = true -> before b c = true -> before a c = true.
Hypothesis before_total : forall a b, before a b = false -> before b a = true.

Lemma insert_by_sorted x l : is_sorted before l -> is_sorted before (insert_by before x l).
Proof.
  induction l as [|y l IH]; [done|]. intros [Hy Hl]. cbn [insert_by].
  destruct (before (pos x) (pos y)) eqn:E.
  - by repeat split.
  - specialize (IH Hl). split; [|done].
    destruct l as [|z l]; cbn [insert_by].
    + by apply before_total.
    + destruct (before (pos x) (pos z)); [by apply before_total|done].
Qed.

Lemma sorted_by_sorted l : is_sorted before (sorted_by before l).
Proof. induction l; [done|]. by apply insert_by_sorted. Qed.

Lemma inserted_insert_by_self x l : inserted x (insert_by before x l) l.
Proof.
  induction l as [|y l IH]; cbn; [constructor|].
  destruct (before _ _); by constructor.
Qed.

Lemma inserted_insert_by x y l l' :
  inserted x l l' -> is_sorted before l ->
  inserted x (insert_by before y l) (insert_by before y l').
Proof.
  induction 1 as [l|z l l' Hi IH]; intros Hs.
  - cbn [insert_by]. destruct (before (pos y) (pos x)) eqn:E.
    + assert (insert_by before y l = y :: l) as ->.
      { destruct l as [|z l]; [done|]. cbn. destruct Hs as [Hxz _].
        by rewrite (before_trans _ _ _ E Hxz). }
      by repeat constructor.
    + constructor.
  - cbn [insert_by]. destruct (before (pos y) (pos z)).
    + by repeat constructor.
    + constructor. apply IH. by destruct Hs.
Qed.

(** Sorting a list with one element more gives the sorted list with this
    element more. *)
Lemma sorted_by_inserted x l l' :
  inserted x l l' -> inserted x (sorted_by before l) (sorted_by before l').
Proof.
  induction 1 as [l|y l l' Hi IH]; cbn.
  - apply inserted_insert_by_self.
  - apply inserted_insert_by; [done|apply sorted_by_sorted].
Qed.
End StableSort.

Lemma inserted_app {A : Type} (x : A) pre post : inserted x (pre ++ x :: post) (pre ++ post).
Proof. induction pre; cbn; by constructor. Qed.

Lemma inserted_filter_kind k op l l' :
  inserted op l l' ->
  if has_kind k op
  then inserted op (filter (fun o => has_kind k o = true) l)
                   (filter (fun o => has_kind k o = true) l')
  else filter (fun o => has_kind k o = true) l = filter (fun o => has_kind k o = true) l'.
Proof.
  induction 1 as [l|y l l' Hi IH].
  - rewrite filter_kind_cons. destruct (has_kind k op); [constructor|done].
  - rewrite !filter_kind_cons.
    destruct (has_kind k op), (has_kind k y); try done; [by constructor|by f_equal].
Qed.

Lemma inserted_split {A : Type} (x : A) l l' :
  inserted x l l' -> exists before after, l = before ++ x :: after /\ l' = before ++ after.
Proof.
  induction 1 as [l|y l l' _ (before & after & -> & ->)].
  - by exists [], l.
  - by exists (y :: before), after.
Qed.

Lemma geb_trans a b c : (a >=? b) = true -> (b >=? c) = true -> (a >=? c) = true.
Proof. lia. Qed.
Lemma geb_total a b : (a >=? b) = false -> (b >=? a) = true.
Proof. lia. Qed.
Lemma leb_trans a b c : (a <=? b) = true -> (b <=? c) = true -> (a <=? c) = true.
Proof. lia. Qed.
Lemma leb_total a b : (a <=? b) = false -> (b <=? a) = true.
Proof. lia. Qed.

Lemma insert_by_perm before x l : insert_by before x l ≡ₚ x :: l.
Proof.
  induction l as [|y l IH]; cbn; [done|].
  destruct (before (pos x) (pos y)); [done|]. by rewrite IH, Permutation_swap.
Qed.

Lemma sorted_by_perm before l : sorted_by before l ≡ₚ l.
Proof.
  unfold sorted_by. induction l as [|x l IH]; cbn; [done|].
  by rewrite insert_by_perm, IH.
Qed.

Lemma concat_chars_of (txt : text) : concat (chars_of txt) = txt.
Proof. unfold chars_of. induction txt as [|c t IH]; cbn; [done|]. by rewrite IH. Qed.

(** *** The strings Python builds *)

Lemma str_mul_ok s n out : str_mul s n = Ok out -> out = str_repeat s n.
Proof.
  unfold str_mul. destruct (negb _); [done|]. destruct (_ && _); [done|].
  by intros [= <-].
Qed.

Lemma str_mul_error s n e : str_mul s n = Err e -> e = OverflowError.
Proof.
  unfold str_mul. destruct (negb _); [by intros [= <-]|].
  destruct (_ && _); [by intros [= <-]|done].
Qed.

(** A single character as often as a machine index says is never too long. *)
Lemma str_mul_char c n : n <= index_max -> str_mul [c] (Z.max 1 n) = Ok (str_repeat [c] (Z.max 1 n)).
Proof.
  intros Hn. unfold str_mul, is_index, index_min, index_max in *.
  assert ((- 2 ^ 63 <=? Z.max 1 n) && (Z.max 1 n <=? 2 ^ 63 - 1) = true) as ->
    by (apply andb_true_iff; split; apply Z.leb_le; lia).
  cbn [negb length].
  destruct (Z.ltb_spec 1 (Z.max 1 n)) as [H1|H1]; cbn [andb]; [|done].
  destruct (Z.ltb_spec ((2 ^ 63 - 1) / Z.max 1 n) (Z.of_nat 1)) as [Hq|Hq]; [|done].
  exfalso. assert ((2 ^ 63 - 1) / Z.max 1 n = 0) as H0.
  { pose proof (Z.div_pos (2 ^ 63 - 1) (Z.max 1 n)). lia. }
  apply Z.div_small_iff in H0; lia.
Qed.

Lemma apply_ins_place chars op :
  can_build op = true -> apply_ins chars op = Ok (place_ins chars op).
Proof.
  unfold can_build, apply_ins, place_ins.
  destruct (insert_str_of op) as [s|] eqn:Es; [|done]. intros _. bind_simpl.
  apply str_mul_ok in Es as ->. by destruct (_ && _).
Qed.

Lemma apply_ins_overflow chars op :
  can_build op = false -> apply_ins chars op = Err OverflowError.
Proof.
  unfold can_build, apply_ins.
  destruct (insert_str_of op) as [s|e] eqn:Es; [done|]. intros _. bind_simpl.
  by apply str_mul_error in Es as ->.
Qed.

Lemma foldM_apply_ins l : forall chars,
  foldM apply_ins chars l
  = if forallb can_build l then Ok (foldl place_ins chars l) else Err OverflowError.
Proof.
  induction l as [|op l IH]; intros chars; cbn [foldM forallb foldl]; [done|].
  destruct (can_build op) eqn:E; cbn [andb].
  - rewrite apply_ins_place by done. bind_simpl. apply IH.
  - by rewrite apply_ins_overflow.
Qed.

Lemma forallb_perm {A : Type} (f : A -> bool) l l' :
  l ≡ₚ l' -> forallb f l = forallb f l'.
Proof.
  induction 1 as [|x l l' _ IH|x y l|l l' l'' _ IH1 _ IH2]; cbn; [done|by rewrite IH| |congruence].
  by destruct (f x), (f y).
Qed.

(** [apply_edit_plan] raises when an insertion cannot be built, and
    otherwise joins the buffer of the three loops. *)
Lemma apply_edit_plan_run txt plan :
  apply_edit_plan txt plan
  = if buildable (ops plan) then Ok (concat (run_edits txt (ops plan)))
    else Err OverflowError.
Proof.
  unfold apply_edit_plan, run_edits, buildable.
  destruct (ops plan) as [|op l] eqn:Hops.
  { change (Ok txt = Ok (concat (chars_of txt))). by rewrite concat_chars_of. }
  rewrite <- Hops. clear Hops. rewrite foldM_apply_ins.
  rewrite (forallb_perm _ _ _ (sorted_by_perm Z.leb _)).
  by destruct (forallb _ _).
Qed.

Lemma filter_kind_all k (l : list EditOp) :
  Forall (fun op => has_kind k op = true) (filter (fun op => has_kind k op = true) l).
Proof.
  induction l as [|op l IH]; [constructor|].
  rewrite filter_kind_cons. destruct (has_kind k op) eqn:E; [by constructor|done].
Qed.

Lemma foldM_app {A B : Type} (f : A -> B -> result A) l1 l2 : forall a,
  foldM f a (l1 ++ l2) = (a' ← foldM f a l1; foldM f a' l2).
Proof.
  induction l1 as [|x l1 IH]; intros a; cbn [foldM app]; [done|].
  destruct (f a x) as [a'|e]; bind_simpl; [apply IH|done].
Qed.

Lemma foldM_pure {A B : Type} (f : A -> B -> result A) (g : A -> B -> A) l :
  Forall (fun x => forall a, f a x = Ok (g a x)) l ->
  forall a, foldM f a l = Ok (foldl g a l).
Proof.
  induction 1 as [|x l Hx _ IH]; intros a; cbn [foldM foldl]; [done|].
  rewrite Hx. bind_simpl. apply IH.
Qed.

Lemma foldM_ext {A B : Type} (f g : A -> B -> result A) l :
  Forall (fun x => forall a, f a x = g a x) l ->
  forall a, foldM f a l = foldM g a l.
Proof.
  induction 1 as [|x l Hx _ IH]; intros a; cbn [foldM]; [done|].
  rewrite Hx. destruct (g a x); bind_simpl; [apply IH|done].
Qed.

Lemma has_kind_other k k' op : k <> k' -> has_kind k op = true -> has_kind k' op = false.
Proof.
  unfold has_kind. intros Hne Hk. apply String.eqb_eq in Hk.
  apply String.eqb_neq. congruence.
Qed.

(** [apply_edit_plan] takes the operations in the order of [schedule], each
    in the loop of its kind, and joins the buffer they leave. *)
Lemma apply_edit_plan_schedule txt plan :
  apply_edit_plan txt plan
  = (chars ← run_ops (chars_of txt) (schedule (ops plan)); Ok (concat chars)).
Proof.
  unfold apply_edit_plan, run_ops, schedule.
  destruct (ops plan) as [|op0 l0] eqn:Hops.
  { change (Ok txt = Ok (concat (chars_of txt))). by rewrite concat_chars_of. }
  rewrite <- Hops. clear Hops op0 l0.
  rewrite foldM_app.
  rewrite (foldM_pure edit_step apply_del); cycle 1.
  { eapply Forall_impl.
    - rewrite (sorted_by_perm Z.geb). apply (filter_kind_all "del").
    - cbn. intros op Hk a. unfold edit_step. by rewrite Hk. }
  bind_simpl. rewrite foldM_app.
  rewrite (foldM_pure edit_step apply_sub); cycle 1.
  { eapply Forall_impl; [apply (filter_kind_all "sub")|].
    cbn. intros op Hk a. unfold edit_step.
    by rewrite (has_kind_other "sub" "del" op), Hk. }
  bind_simpl.
  rewrite (foldM_ext edit_step apply_ins); [done|].
  eapply Forall_impl.
  - rewrite (sorted_by_perm Z.leb). apply (filter_kind_all "ins").
  - cbn. intros op Hk a. unfold edit_step.
    by rewrite (has_kind_other "ins" "del" op), (has_kind_other "ins" "sub" op), Hk.
Qed.

(** An operation of one of the three kinds has its place in the order, and
    without it the others keep theirs. *)
Lemma schedule_without (op : EditOp) (pre post : list EditOp) :
  kind op = "del"%string \/ kind op = "sub"%string \/ kind op = "ins"%string ->
  exists before after,
    schedule (pre ++ op :: post) = before ++ op :: after /\
    schedule (pre ++ post) = before ++ after.
Proof.
  intros Hk. apply inserted_split. unfold schedule.
  pose proof (inserted_app op pre post) as Hi.
  pose proof (inserted_filter_kind "del" _ _ _ Hi) as Hd.
  pose proof (inserted_filter_kind "sub" _ _ _ Hi) as Hs.
  pose proof (inserted_filter_kind "ins" _ _ _ Hi) as Hn.
  assert (forall (x : EditOp) l l' r, inserted x l l' -> inserted x (l ++ r) (l' ++ r)) as Hl.
  { intros x l l' r. induction 1; cbn; by constructor. }
  assert (forall (x : EditOp) l r r', inserted x r r' -> inserted x (l ++ r) (l ++ r')) as Hr.
  { intros x l r r' ?. induction l; cbn; [done|by constructor]. }
  assert (forall k, has_kind k op = String.eqb (kind op) k) as Hkind by done.
  destruct Hk as [Hk|[Hk|Hk]]; rewrite !Hkind, Hk in Hd, Hs, Hn; cbn in Hd, Hs, Hn.
  - rewrite Hs, Hn. apply Hl. apply sorted_by_inserted; [apply geb_trans|apply geb_total|done].
  - rewrite Hd, Hn. apply Hr, Hl. done.
  - rewrite Hd, Hs. apply Hr, Hr. apply sorted_by_inserted; [apply leb_trans|apply leb_total|done].
Qed.

(** C9, as the code has it: [apply_edit_plan] has no error of its own.  Take
    an operation at its turn, [before] the operations taken earlier and
    [buffer] what they have left of the text.  When its position is out of
    range for this buffer (negative, at or past the length for a deletion or
    a substitution, past the length for an insertion), the guard of its loop
    passes it over: the buffer stays as it is, and the output is that of
    every plan whose turns are the other ones.  The one exception is an
    insertion whose string Python cannot build, since the string is built
    before the position is looked at: the call then ends in an
    [OverflowError]. *)
Theorem out_of_range_op_skipped (txt : text) (plan : EditPlan)
  (before after : list EditOp) (op : EditOp) (buffer : list text) :
  schedule (ops plan) = before ++ op :: after ->
  run_ops (chars_of txt) before = Ok buffer ->
  out_of_range buffer op ->
  match edit_step buffer op with
  | Ok buffer' =>
      buffer' = buffer /\
      forall plan', schedule (ops plan') = before ++ after ->
                    apply_edit_plan txt plan = apply_edit_plan txt plan'
  | Err e =>
      e = OverflowError /\ kind op = "ins"%string /\
      insert_str_of op = Err OverflowError /\
      apply_edit_plan txt plan = Err OverflowError
  end.
Proof.
  intros Hsched Hbefore Hout.
  assert (run_ops (chars_of txt) (schedule (ops plan))
          = (b ← edit_step buffer op; run_ops b after)) as Hrun.
  { rewrite Hsched. unfold run_ops. rewrite foldM_app. fold (run_ops (chars_of txt) before).
    rewrite Hbefore. by bind_simpl. }
  assert (forall s, insert_str_of op = Ok s \/ has_kind "ins" op = false ->
                    edit_step buffer op = Ok buffer) as Hskip.
  { intros s Hs. unfold edit_step, apply_del, apply_sub, apply_ins, in_range.
    destruct (has_kind "del" op) eqn:Kd.
    { apply String.eqb_eq in Kd.
      destruct Hout as [?|[[_ ?]|[? _]]]; [| |congruence];
        destruct (0 <=? pos op) eqn:?, (pos op <? _) eqn:?; try done; lia. }
    destruct (has_kind "sub" op) eqn:Ks.
    { apply String.eqb_eq in Ks. destruct (ch op); [|done].
      destruct Hout as [?|[[_ ?]|[? _]]]; [| |congruence];
        destruct (0 <=? pos op) eqn:?, (pos op <? _) eqn:?; try done; lia. }
    destruct (has_kind "ins" op) eqn:Ki; [|done].
    destruct Hs as [Hs|?]; [|done]. rewrite Hs. bind_simpl.
    apply String.eqb_neq in Kd, Ks.
    destruct Hout as [?|[[[?|?] _]|[_ ?]]]; [|done|done|];
      destruct (0 <=? pos op) eqn:?, (pos op <=? _) eqn:?; try done; lia. }
  destruct (has_kind "ins" op) eqn:Ki.
  - destruct (insert_str_of op) as [s|e] eqn:Es.
    + rewrite (Hskip s) by (by left). split; [done|]. intros plan' Hsched'.
      rewrite !apply_edit_plan_schedule, Hrun, Hsched', (Hskip s) by (by left).
      bind_simpl. unfold run_ops. rewrite foldM_app. fold (run_ops (chars_of txt) before).
      rewrite Hbefore. by bind_simpl.
    + assert (e = OverflowError) as -> by (by eapply str_mul_error).
      assert (edit_step buffer op = Err OverflowError) as Hstep.
      { unfold edit_step, apply_ins.
        rewrite (has_kind_other "ins" "del" op), (has_kind_other "ins" "sub" op), Ki, Es
          by done.
        done. }
      rewrite Hstep. split; [done|]. split; [by apply String.eqb_eq|]. split; [done|].
      by rewrite apply_edit_plan_schedule, Hrun, Hstep.
  - rewrite (Hskip []) by (by right). split; [done|]. intros plan' Hsched'.
    rewrite !apply_edit_plan_schedule, Hrun, Hsched', (Hskip []) by (by right).
    bind_simpl. unfold run_ops. rewrite foldM_app. fold (run_ops (chars_of txt) before).
    rewrite Hbefore. by bind_simpl.
Qed.

Lemma out_of_range_op_skipped_witness :
  edit_step [py "b"; py "c"] (Build_EditOp "sub" 2 (Some (py "x")) 1)
    = Ok [py "b"; py "c"] /\
  apply_edit_plan (py "abc")
    (edit_plan_of [Build_EditOp "del" 0 None 1; Build_EditOp "sub" 2 (Some (py "x")) 1])
  = apply_edit_plan (py "abc") (edit_plan_of [Build_EditOp "del" 0 None 1]).
Proof.
  assert (out_of_range [py "b"; py "c"] (Build_EditOp "sub" 2 (Some (py "x")) 1)) as Hout.
  { right. left. split; [by right|]. cbn. lia. }
  pose proof (out_of_range_op_skipped (py "abc")
                (edit_plan_of [Build_EditOp "del" 0 None 1;
                               Build_EditOp "sub" 2 (Some (py "x")) 1])
                [Build_EditOp "del" 0 None 1] []
                (Build_EditOp "sub" 2 (Some (py "x")) 1) [py "b"; py "c"]
                eq_refl eq_refl Hout) as [Hstep Hplan].
  split; [reflexivity|].
  apply (Hplan (edit_plan_of [Build_EditOp "del" 0 None 1])). reflexivity.
Defined.

(** C9 as stated fails: no operation of these plans is in range when its
    turn comes, and none raises.  A deletion at position 7 of "abc", a
    substitution at position -1 and an insertion at position 9 give the text
    back; after the deletion of position 0 the substitution at position 2
    finds the buffer "bc" too short, and so does the second of two deletions
    at position 2. *)
Lemma out_of_range_plan_returns_text :
  apply_edit_plan (py "abc") (edit_plan_of [Build_EditOp "del" 7 None 1]) = Ok (py "abc") /\
  apply_edit_plan (py "abc") (edit_plan_of [Build_EditOp "sub" (-1) (Some (py "x")) 1])
    = Ok (py "abc") /\
  apply_edit_plan (py "abc") (edit_plan_of [Build_EditOp "ins" 9 (Some (py "x")) 1])
    = Ok (py "abc") /\
  apply_edit_plan (py "abc")
    (edit_plan_of [Build_EditOp "del" 0 None 1; Build_EditOp "sub" 2 (Some (py "x")) 1])
    = Ok (py "bc") /\
  apply_edit_plan (py "abc")
    (edit_plan_of [Build_EditOp "del" 2 None 1; Build_EditOp "del" 2 None 1])
    = Ok (py "ab").
Proof. repeat split; vm_compute; reflexivity. Qed.

(** The failure an insertion out of range can end in is Python's own: the
    count [2**63] is no machine index, and ["xy" * 2**62] would be longer
    than [sys.maxsize]. *)
Example unbuildable_insertion_raises :
  apply_edit_plan (py "abc") (edit_plan_of [Build_EditOp "ins" 9 (Some (py "x")) (2 ^ 63)])
    = Err OverflowError /\
  apply_edit_plan (py "abc") (edit_plan_of [Build_EditOp "ins" 9 (Some (py "xy")) (2 ^ 62)])
    = Err OverflowError /\
  apply_edit_plan (py "abc") (edit_plan_of [Build_EditOp "ins" 9 None (2 ^ 63)])
    = Err OverflowError.
Proof. repeat split; vm_compute; reflexivity. Qed.

(** ** The breadth-first search of [minimal_residue_combo] *)

Section Search.
Variable rs : list Z.
Variable max_steps : Z.

Lemma bfs_wf_size st : bfs_wf rs st -> (size (parent st) <= 9)%nat.
Proof.
  intros Hwf.
  assert (dom (parent st) ⊆ (list_to_set (seqZ 0 9) : gset Z)) as Hsub.
  { intros x Hx. apply elem_of_dom in Hx. apply (wf_dom _ _ Hwf) in Hx.
    apply (wf_range _ _ Hwf) in Hx.
    apply elem_of_list_to_set, elem_of_seqZ. lia. }
  apply subseteq_size in Hsub. rewrite size_dom in Hsub.
  etrans; [exact Hsub|]. by vm_compute.
Qed.

Lemma bfs_depth_nonneg st x d : bfs_wf rs st -> depth st !! x = Some d -> 0 <= d.
Proof.
  intros Hwf Hd. destruct (decide (x = 0)) as [->|Hx].
  - rewrite (wf_root _ _ Hwf) in Hd. by injection Hd as <-.
  - assert (is_Some (parent st !! x)) as [[p i] Hp] by (apply (wf_dom _ _ Hwf); eauto).
    destruct (wf_link _ _ Hwf x p i Hx Hp) as (r & dp & _ & _ & _ & _ & Hdx & Hdp).
    rewrite Hd in Hdx. injection Hdx as ->. lia.
Qed.

(** The walk back along the parent pointers takes as many steps as the node
    is deep, and collects indices whose residues add up to the node. *)
Lemma walk_back_spec st fuel x d acc :
  bfs_wf rs st -> depth st !! x = Some d -> d <= Z.of_nat fuel ->
  exists js picks,
    walk_back fuel (parent st) x acc = Ok (acc ++ js) /\
    Z.of_nat (length js) = d /\
    picks_of rs js picks /\ zsum picks mod 9 = x.
Proof.
  intros Hwf. revert x d acc.
  induction fuel as [|fuel IH]; intros x d acc Hd Hfuel.
  - destruct (decide (x = 0)) as [->|Hx].
    + exists [], []. cbn. rewrite app_nil_r.
      rewrite (wf_root _ _ Hwf) in Hd. injection Hd as <-.
      repeat split. constructor.
    + exfalso.
      assert (is_Some (parent st !! x)) as [[p i] Hp] by (apply (wf_dom _ _ Hwf); eauto).
      destruct (wf_link _ _ Hwf x p i Hx Hp) as (r & dp & _ & _ & _ & _ & Hdx & Hdp).
      rewrite Hd in Hdx. injection Hdx as ->. lia.
  - cbn [walk_back]. destruct (Z.eqb_spec x 0) as [->|Hx].
    + exists [], []. rewrite app_nil_r.
      rewrite (wf_root _ _ Hwf) in Hd. injection Hd as <-.
      repeat split. constructor.
    + assert (is_Some (parent st !! x)) as [[p i] Hp] by (apply (wf_dom _ _ Hwf); eauto).
      rewrite Hp.
      destruct (wf_link _ _ Hwf x p i Hx Hp)
        as (r & dp & Hi & Hr & Hxp & Hdp & Hdx & Hdp0).
      rewrite Hd in Hdx. injection Hdx as ->.
      destruct (IH p dp (acc ++ [i]) Hdp ltac:(lia)) as (js & picks & Hw & Hlen & Hpicks & Hsum).
      exists (i :: js), (r :: picks). rewrite Hw, <- app_assoc. cbn [app length zsum foldr].
      repeat split.
      * lia.
      * by constructor.
      * fold (zsum picks). rewrite Hxp, <- Hsum.
        rewrite (Z.add_comm r), Zplus_mod_idemp_l. done.
Qed.

(** Every residue reachable in at most [d] steps has been found once the
    search expands a node of depth [d]. *)
Lemma reach_found st cur d k x :
  bfs_wf rs st -> bfs_level rs max_steps d [cur] st ->
  depth st !! cur = Some d -> d < max_steps ->
  reach rs k x -> Z.of_nat k <= d ->
  exists dx, depth st !! x = Some dx /\ dx <= Z.of_nat k.
Proof.
  intros Hwf Hlv Hcur Hd Hreach. induction Hreach as [|k y r Hreach IH Hr]; intros Hk.
  - exists 0. split; [apply (wf_root _ _ Hwf)|lia].
  - destruct IH as (dy & Hdy & Hdyk); [lia|].
    destruct (lv_queue _ _ _ _ _ Hlv) as (qa & qb & Hq & Hqa & Hqb).
    assert (y ∉ queue st) as Hyq.
    { rewrite Hq. intros [Hin|Hin]%elem_of_app.
      - apply Hqa in Hin. rewrite Hdy in Hin. injection Hin as ->. lia.
      - apply Hqb in Hin. rewrite Hdy in Hin. injection Hin as ->. lia. }
    assert (y ∉ [cur]) as Hyc.
    { intros ->%list_elem_of_singleton. rewrite Hdy in Hcur. injection Hcur as ->. lia. }
    destruct (lv_closed _ _ _ _ _ Hlv y dy Hdy Hyq Hyc) as [_ Hsucc].
    destruct (Hsucc ltac:(lia) r Hr) as (d' & Hd' & Hle).
    exists d'. split; [done|lia].
Qed.

(** A node all of whose successors are found is no exception any more. *)
Lemma bfs_level_unskip st cur d :
  bfs_level rs max_steps d [cur] st ->
  depth st !! cur = Some d ->
  (d < max_steps -> forall r, r ∈ rs -> is_Some (depth st !! ((cur + r) mod 9))) ->
  bfs_level rs max_steps d [] st.
Proof.
  intros Hlv Hcur Hsucc. split.
  - apply (lv_queue _ _ _ _ _ Hlv).
  - apply (lv_bound _ _ _ _ _ Hlv).
  - intros x dx Hdx Hxq _. destruct (decide (x = cur)) as [->|Hne].
    + rewrite Hcur in Hdx. injection Hdx as <-. split; [lia|].
      intros Hlt r Hr. destruct (Hsucc Hlt r Hr) as [d' Hd'].
      exists d'. split; [done|]. by apply (lv_bound _ _ _ _ _ Hlv) in Hd'.
    + apply (lv_closed _ _ _ _ _ Hlv x dx Hdx Hxq).
      by intros ->%list_elem_of_singleton.
Qed.
(** The tables after the discovery of a new node [nxt] from [cur]. *)
Lemma discover_spec st cur d idx r :
  let nxt := (cur + r) mod 9 in
  let st1 := {| parent := <[nxt := (cur, Z.of_nat idx)]> (parent st);
                depth := <[nxt := d + 1]> (depth st);
                queue := queue st ++ [nxt] |} in
  rs !! idx = Some r ->
  bfs_wf rs st -> bfs_level rs max_steps d [cur] st ->
  depth st !! cur = Some d ->
  parent st !! nxt = None ->
  bfs_wf rs st1 /\ bfs_level rs max_steps d [cur] st1 /\
  depth st1 !! cur = Some d /\
  depth st1 !! nxt = Some (d + 1) /\
  (forall x, is_Some (depth st !! x) -> is_Some (depth st1 !! x)) /\
  size (parent st1) = S (size (parent st)).
Proof.
  intros nxt st1 Hr Hwf Hlv Hcur Hnone.
  assert (depth st !! nxt = None) as Hdnone.
  { apply eq_None_not_Some. rewrite <- (wf_dom _ _ Hwf). by rewrite Hnone. }
  assert (forall x dx, depth st !! x = Some dx -> x <> nxt) as Hfresh.
  { intros x dx Hx ->. congruence. }
  assert (forall x dx, depth st !! x = Some dx -> depth st1 !! x = Some dx) as Hkeep.
  { intros x dx Hx. cbn. rewrite lookup_insert_ne; [done|]. symmetry. by eapply Hfresh. }
  assert (0 <= nxt < 9) as Hrange by (apply Z.mod_pos_bound; lia).
  assert (0 <= d) as Hd0 by (by eapply bfs_depth_nonneg).
  assert (size (parent st1) = S (size (parent st))) as Hsize
    by (by apply map_size_insert_None).
  assert (bfs_wf rs st1) as Hwf1.
  { split.
    - apply Hkeep, (wf_root _ _ Hwf).
    - intros x. cbn. destruct (decide (nxt = x)) as [<-|Hne].
      + rewrite !lookup_insert_eq. split; eauto.
      + rewrite !lookup_insert_ne by done. apply (wf_dom _ _ Hwf).
    - intros x. cbn. destruct (decide (nxt = x)) as [<-|Hne]; [done|].
      rewrite lookup_insert_ne by done. apply (wf_range _ _ Hwf).
    - intros x p i Hx. cbn. destruct (decide (nxt = x)) as [<-|Hne].
      + rewrite !lookup_insert_eq. intros [= <- <-].
        exists r, d. rewrite Nat2Z.id.
        repeat split; [lia|done|by apply Hkeep|done].
      + rewrite !lookup_insert_ne by done. intros Hp.
        destruct (wf_link _ _ Hwf x p i Hx Hp) as (r' & dp & ? & ? & ? & Hdp & ? & ?).
        exists r', dp. repeat split; try done.
        all: rewrite lookup_insert_ne; [done|]; symmetry; by eapply Hfresh.
    - intros x dx. rewrite Hsize. cbn. destruct (decide (nxt = x)) as [<-|Hne].
      + rewrite lookup_insert_eq. intros [= <-].
        pose proof (wf_size _ _ Hwf cur d Hcur). lia.
      + rewrite lookup_insert_ne by done. intros Hx.
        pose proof (wf_size _ _ Hwf x dx Hx). lia.
    - intros x. cbn. intros [Hin| ->%list_elem_of_singleton]%elem_of_app.
      + destruct (wf_queue _ _ Hwf x Hin) as [dx Hdx]. exists dx.
        rewrite lookup_insert_ne; [done|]. symmetry. by eapply Hfresh.
      + rewrite lookup_insert_eq. eauto. }
  split; [done|]. split; [|repeat split].
  - split.
    + destruct (lv_queue _ _ _ _ _ Hlv) as (qa & qb & Hq & Hqa & Hqb).
      exists qa, (qb ++ [nxt]).
      split; [unfold st1; cbn [queue]; by rewrite Hq, app_assoc|]. split.
      * intros x Hx. by apply Hkeep, Hqa.
      * intros x [Hx| ->%list_elem_of_singleton]%elem_of_app.
        -- by apply Hkeep, Hqb.
        -- cbn. by rewrite lookup_insert_eq.
    + intros x dx. cbn. destruct (decide (nxt = x)) as [<-|Hne].
      * rewrite lookup_insert_eq. intros [= <-]. lia.
      * rewrite lookup_insert_ne by done. apply (lv_bound _ _ _ _ _ Hlv).
    + intros x dx. unfold st1. cbn [queue depth]. intros Hx Hxq Hxc.
      assert (nxt <> x) as Hne.
      { intros <-. apply Hxq, elem_of_app. right. by apply list_elem_of_singleton. }
      rewrite lookup_insert_ne in Hx by done.
      assert (x ∉ queue st) as Hxq' by (intros ?; apply Hxq, elem_of_app; by left).
      destruct (lv_closed _ _ _ _ _ Hlv x dx Hx Hxq' Hxc) as [Hle Hsucc].
      split; [done|]. intros Hlt r' Hr'.
      destruct (Hsucc Hlt r' Hr') as (d' & Hd' & ?).
      exists d'. split; [|done].
      rewrite lookup_insert_ne; [done|]. symmetry. by eapply Hfresh.
  - by apply Hkeep.
  - cbn. by rewrite lookup_insert_eq.
  - intros x [dx Hx]. exists dx. by apply Hkeep.
  - done.
Qed.

Lemma picks_of_reverse js picks :
  picks_of rs js picks -> picks_of rs (reverse js) (reverse picks).
Proof. apply Forall2_reverse. Qed.

Lemma zsum_app l1 l2 : zsum (l1 ++ l2) = zsum l1 + zsum l2.
Proof. induction l1; cbn; [done|]. fold (zsum (l1 ++ l2)) (zsum l1). lia. Qed.

Lemma zsum_reverse l : zsum (reverse l) = zsum l.
Proof.
  induction l; [done|]. rewrite reverse_cons, zsum_app. cbn. fold (zsum l). lia.
Qed.

(** The loop over the residues, from any point of it on. *)
Lemma expand_spec delta_res cur d fuel todo : forall done st,
  rs = done ++ todo ->
  bfs_wf rs st -> bfs_level rs max_steps d [cur] st -> bfs_fuel fuel st ->
  depth st !! cur = Some d -> d < max_steps ->
  (forall r, r ∈ done -> is_Some (depth st !! ((cur + r) mod 9))) ->
  match expand delta_res cur d todo (Z.of_nat (length done)) st with
  | Ok (inl seq) => shortest_path rs delta_res seq
  | Ok (inr st') => bfs_wf rs st' /\ bfs_level rs max_steps d [] st' /\ bfs_fuel fuel st'
  | Err _ => False
  end.
Proof.
  induction todo as [|r todo IH]; intros done st Hrs Hwf Hlv Hfuel Hcur Hd Hdone.
  - cbn. rewrite app_nil_r in Hrs. subst done.
    split; [done|]. split; [|done].
    apply (bfs_level_unskip _ cur); [done|done|]. intros _. exact Hdone.
  - cbn -[walk_back].
    assert (rs !! length done = Some r) as Hr.
    { rewrite Hrs. by rewrite list_lookup_middle. }
    assert (rs = (done ++ [r]) ++ todo) as Hrs' by (by rewrite <- app_assoc).
    assert (Z.of_nat (length done) + 1 = Z.of_nat (length (done ++ [r]))) as Hidx.
    { rewrite length_app. cbn. lia. }
    destruct (parent st !! ((cur + r) mod 9)) as [pi|] eqn:Hp.
    + rewrite Hidx. apply IH; try done.
      intros r' [Hin| ->%list_elem_of_singleton]%elem_of_app; [by apply Hdone|].
      apply (wf_dom _ _ Hwf). by rewrite Hp.
    + destruct (discover_spec st cur d (length done) r Hr Hwf Hlv Hcur Hp)
        as (Hwf1 & Hlv1 & Hcur1 & Hnxt1 & Hkeep & Hsize).
      set (st1 := {| parent := _; depth := _; queue := _ |}) in *.
      destruct (Z.eqb_spec ((cur + r) mod 9) delta_res) as [Heq|Hne].
      * pose proof (bfs_wf_size _ Hwf1) as Hsz.
        pose proof (wf_size _ _ Hwf1 _ _ Hnxt1) as Hdsz.
        destruct (walk_back_spec st1 9 _ _ [] Hwf1 Hnxt1 ltac:(lia))
          as (js & picks & Hw & Hlen & Hpicks & Hsum).
        change (<[_ := _]> (parent st)) with (parent st1).
        rewrite Hw. bind_simpl. cbn [app]. split.
        -- exists (reverse picks). split; [by apply picks_of_reverse|].
           by rewrite zsum_reverse, Hsum.
        -- intros k Hreach. rewrite length_reverse.
           destruct (decide (Z.of_nat k <= d)) as [Hk|Hk]; [exfalso|lia].
           rewrite <- Heq in Hreach.
           destruct (reach_found st cur d k _ Hwf Hlv Hcur Hd Hreach Hk) as (dx & Hdx & _).
           assert (is_Some (parent st !! ((cur + r) mod 9))) as [? ?]
             by (apply (wf_dom _ _ Hwf); eauto).
           congruence.
      * rewrite Hidx. apply IH; try done.
        -- unfold bfs_fuel in *. rewrite Hsize. unfold st1. cbn [queue].
           rewrite length_app. cbn. lia.
        -- intros r' [Hin| ->%list_elem_of_singleton]%elem_of_app.
           ++ by apply Hkeep, Hdone.
           ++ eauto.
Qed.

(** The search loop: it ends within its turns, and a path it returns is a
    shortest one. *)
Lemma bfs_spec delta_res fuel : forall st d,
  bfs_wf rs st -> bfs_level rs max_steps d [] st -> bfs_fuel fuel st ->
  match bfs fuel delta_res rs max_steps st with
  | Ok (Some seq) => shortest_path rs delta_res seq
  | Ok None => True
  | Err _ => False
  end.
Proof.
  induction fuel as [|fuel IH]; intros st d Hwf Hlv Hfuel.
  - cbn. destruct (queue st) as [|cur q'] eqn:Hq; [done|].
    pose proof (bfs_wf_size _ Hwf). unfold bfs_fuel in Hfuel. rewrite Hq in Hfuel.
    cbn in Hfuel. lia.
  - cbn [bfs]. destruct (queue st) as [|cur q'] eqn:Hq; [done|].
    assert (is_Some (depth st !! cur)) as [dc Hdc].
    { apply (wf_queue _ _ Hwf). rewrite Hq. by left. }
    rewrite Hdc.
    set (st' := {| parent := parent st; depth := depth st; queue := q' |}).
    assert (bfs_wf rs st') as Hwf'.
    { destruct Hwf. split; try done. cbn. intros x Hx. apply wf_queue0.
      rewrite Hq. by right. }
    assert (bfs_fuel fuel st') as Hfuel'.
    { unfold bfs_fuel in *. rewrite Hq in Hfuel. cbn in *. lia. }
    assert (bfs_level rs max_steps dc [cur] st') as Hlv'.
    { destruct (lv_queue _ _ _ _ _ Hlv) as (qa & qb & Hqq & Hqa & Hqb).
      rewrite Hq in Hqq.
      assert (forall x dx, depth st !! x = Some dx -> x ∉ q' -> x ∉ [cur] ->
                dx <= d /\
                (dx < max_steps -> forall r, r ∈ rs ->
                   exists d', depth st !! ((x + r) mod 9) = Some d' /\ d' <= dx + 1))
        as Hclosed.
      { intros x dx Hx Hxq Hxc. apply (lv_closed _ _ _ _ _ Hlv x dx Hx); [|by apply not_elem_of_nil].
        rewrite Hq. intros [->|Hin]%elem_of_cons; [|done].
        apply Hxc. by left. }
      destruct qa as [|a qa].
      - (* the nodes of depth [d] are used up: the next level starts *)
        cbn in Hqq. subst qb.
        assert (dc = d + 1) as ->.
        { specialize (Hqb cur ltac:(by left)). congruence. }
        split.
        + exists q', []. cbn. rewrite app_nil_r. split; [done|]. split.
          * intros x Hx. apply Hqb. by right.
          * intros x Hx. by apply not_elem_of_nil in Hx.
        + intros x dx Hx. cbn in Hx. apply (lv_bound _ _ _ _ _ Hlv) in Hx. lia.
        + intros x dx Hx Hxq Hxc. cbn in Hx, Hxq.
          destruct (Hclosed x dx Hx Hxq Hxc) as [? ?]. split; [lia|done].
      - injection Hqq as <- ->.
        assert (dc = d) as ->.
        { specialize (Hqa cur ltac:(by left)). congruence. }
        split.
        + exists qa, qb. cbn. split; [done|]. split.
          * intros x Hx. apply Hqa. by right.
          * done.
        + apply (lv_bound _ _ _ _ _ Hlv).
        + intros x dx Hx Hxq Hxc. cbn in Hx, Hxq. by apply Hclosed. }
    destruct (Z.geb_spec dc max_steps) as [Hge|Hlt].
    + apply (IH st' dc); [done| |done].
      apply (bfs_level_unskip _ cur); [done|done|]. intros ?. lia.
    + pose proof (expand_spec delta_res cur dc fuel rs [] st' eq_refl Hwf' Hlv' Hfuel'
                    Hdc Hlt) as Hex.
      cbn [length] in Hex. change (Z.of_nat 0) with 0 in Hex.
      destruct (expand delta_res cur dc rs 0 st') as [[seq|st'']|e]; bind_simpl.
      * apply Hex. intros r Hr. by apply not_elem_of_nil in Hr.
      * destruct Hex as (Hwf'' & Hlv'' & Hfuel'').
        { intros r Hr. by apply not_elem_of_nil in Hr. }
        by apply (IH st'' dc).
      * apply Hex. intros r Hr. by apply not_elem_of_nil in Hr.
Qed.

Lemma bfs_init_wf : bfs_wf rs bfs_init.
Proof.
  split; cbn.
  - done.
  - intros x. destruct (decide (0 = x)) as [<-|Hne].
    + rewrite !lookup_singleton_eq. split; eauto.
    + rewrite !lookup_singleton_ne by done. split; intros [? ?]; done.
  - intros x. destruct (decide (0 = x)) as [<-|Hne]; [lia|].
    rewrite lookup_singleton_ne by done. intros [? ?]; done.
  - intros x p i Hx. rewrite lookup_singleton_ne by done. done.
  - intros x dx. destruct (decide (0 = x)) as [<-|Hne].
    + rewrite lookup_singleton_eq. intros [= <-]. rewrite map_size_singleton. lia.
    + rewrite lookup_singleton_ne by done. done.
  - intros x ->%list_elem_of_singleton. rewrite lookup_singleton_eq. eauto.
Qed.

Lemma bfs_init_level : bfs_level rs max_steps 0 [] bfs_init.
Proof.
  split; cbn.
  - exists [0], []. split; [done|]. split.
    + intros x ->%list_elem_of_singleton. done.
    + intros x Hx. by apply not_elem_of_nil in Hx.
  - intros x dx. destruct (decide (0 = x)) as [<-|Hne].
    + rewrite lookup_singleton_eq. intros [= <-]. lia.
    + rewrite lookup_singleton_ne by done. done.
  - intros x dx. destruct (decide (0 = x)) as [<-|Hne].
    + intros _ Hx. exfalso. apply Hx. by left.
    + rewrite lookup_singleton_ne by done. done.
Qed.

End Search.

(** [minimal_residue_combo] is total: it never misses a key and never runs
    out of turns. *)
Lemma minimal_residue_combo_total delta_res allowed max_steps :
  exists r, minimal_residue_combo delta_res allowed max_steps = Ok r.
Proof.
  unfold minimal_residue_combo.
  destruct (delta_res =? 0); [eauto|].
  destruct (forallb _ _); [eauto|].
  set (rs := map _ allowed).
  pose proof (bfs_spec rs max_steps delta_res 9 bfs_init 0 (bfs_init_wf rs)
                (bfs_init_level rs max_steps)) as H.
  destruct (bfs 9 delta_res rs max_steps bfs_init) as [r|e]; [eauto|].
  exfalso. apply H. unfold bfs_fuel. cbn. rewrite map_size_singleton. lia.
Qed.

(** The sequence [minimal_residue_combo] returns is a shortest path to
    [delta_res] in the graph of the residues of the allowed symbols. *)
Lemma minimal_residue_combo_shortest delta_res allowed max_steps seq :
  minimal_residue_combo delta_res allowed max_steps = Ok (Some seq) ->
  shortest_path (map (fun se => snd se mod 9) allowed) delta_res seq.
Proof.
  unfold minimal_residue_combo.
  destruct (Z.eqb_spec delta_res 0) as [->|Hne].
  { intros [= <-]. split; [|intros; cbn; lia].
    exists []. split; [constructor|done]. }
  destruct (forallb _ _); [done|].
  set (rs := map _ allowed).
  pose proof (bfs_spec rs max_steps delta_res 9 bfs_init 0 (bfs_init_wf rs)
                (bfs_init_level rs max_steps)) as H.
  intros Hb. rewrite Hb in H. apply H.
  unfold bfs_fuel. cbn. rewrite map_size_singleton. lia.
Qed.

(** ** The steps of an insertion plan *)

Lemma enumerate_from_keys {A : Type} (k : Z) (l : list A) :
  map fst (enumerate_from k l) = seqZ k (Z.of_nat (length l)).
Proof.
  revert k. induction l as [|x l IH]; intros k; [done|].
  cbn [enumerate_from map fst length]. rewrite IH.
  rewrite (seqZ_cons k) by lia. f_equal. f_equal; lia.
Qed.

Lemma tally_insert counts keys j v :
  NoDup keys -> j ∈ keys ->
  tally (<[j := v]> counts) keys = tally counts keys + (v - dict_get counts j 0).
Proof.
  unfold tally. induction keys as [|k keys IH]; intros Hnd Hj.
  - by apply not_elem_of_nil in Hj.
  - apply NoDup_cons in Hnd as [Hk Hnd]. cbn [map zsum foldr].
    fold (zsum (map (fun i => dict_get (<[j:=v]> counts) i 0) keys)).
    fold (zsum (map (fun i => dict_get counts i 0) keys)).
    destruct (decide (j = k)) as [->|Hne].
    + assert (map (fun i => dict_get (<[k:=v]> counts) i 0) keys
              = map (fun i => dict_get counts i 0) keys) as ->.
      { apply map_ext_in. intros i Hi. apply list_elem_of_In in Hi.
        unfold dict_get. rewrite lookup_insert_ne; [done|]. by intros ->. }
      unfold dict_get at 1. rewrite lookup_insert_eq. lia.
    + apply elem_of_cons in Hj as [?|Hj]; [done|].
      rewrite IH by done. unfold dict_get at 1. rewrite lookup_insert_ne by done.
      fold (dict_get counts k 0). lia.
Qed.

Lemma tally_counts keys seq : forall counts,
  NoDup keys -> Forall (fun j => j ∈ keys) seq ->
  tally (foldl (fun counts i => <[i := dict_get counts i 0 + 1]> counts) counts seq) keys
  = tally counts keys + Z.of_nat (length seq).
Proof.
  induction seq as [|j seq IH]; intros counts Hnd Hseq; cbn [foldl length].
  - lia.
  - apply Forall_cons_1 in Hseq as [Hj Hseq].
    rewrite IH by done. rewrite tally_insert by done. lia.
Qed.

Lemma tally_empty keys : tally ∅ keys = 0.
Proof.
  unfold tally, dict_get, zsum. induction keys as [|k keys IH]; [done|].
  cbn [map foldr]. rewrite lookup_empty, IH. done.
Qed.

Lemma build_steps_tally counts (l : list (Z * (text * Z))) :
  zsum (map snd (flat_map (fun ise : Z * (text * Z) =>
                             match counts !! fst ise with
                             | Some c => [(fst (snd ise), c)]
                             | None => []
                             end) l))
  = tally counts (map fst l).
Proof.
  unfold tally. induction l as [|[i [s e]] l IH]; [done|].
  cbn [flat_map map fst snd]. rewrite map_app, zsum_app, IH.
  cbn [zsum foldr]. unfold dict_get at 2, zsum.
  destruct (counts !! i); cbn; lia.
Qed.

(** The counts of the steps add up to the length of the sequence. *)
Lemma build_steps_from_seq_count seq allowed :
  Forall (fun j => 0 <= j < Z.of_nat (length allowed)) seq ->
  zsum (map snd (build_steps_from_seq seq allowed)) = Z.of_nat (length seq).
Proof.
  intros Hseq. unfold build_steps_from_seq, enumerate.
  rewrite build_steps_tally, enumerate_from_keys.
  rewrite tally_counts.
  - rewrite tally_empty. lia.
  - apply NoDup_seqZ.
  - eapply Forall_impl; [exact Hseq|]. cbn. intros j Hj. apply elem_of_seqZ. lia.
Qed.

Lemma picks_of_valid rs js picks :
  picks_of rs js picks ->
  Forall (fun j => 0 <= j < Z.of_nat (length rs)) js /\ Forall (fun r => r ∈ rs) picks.
Proof.
  induction 1 as [|j r js picks [Hj Hr] _ [IH1 IH2]]; [by split|].
  split; constructor; try done.
  - apply lookup_lt_Some in Hr. lia.
  - by eapply list_elem_of_lookup_2.
Qed.

Lemma reach_of_picks rs picks :
  Forall (fun r => r ∈ rs) picks -> reach rs (length picks) (zsum picks mod 9).
Proof.
  induction 1 as [|r picks Hr _ IH]; [constructor|].
  cbn [length zsum foldr]. fold (zsum picks).
  rewrite Z.add_comm, <- Zplus_mod_idemp_l. by constructor.
Qed.

(** ** The insertion planner returns a shortest plan *)

Section InsertionPlanner.
Variable U : Unicode.

Lemma mapM_Forall2 {A B : Type} (f : A -> result B) l ys :
  mapM f l = Ok ys -> Forall2 (fun x y => f x = Ok y) l ys.
Proof.
  revert ys. induction l as [|x l IH]; intros ys; cbn.
  - intros [= <-]. constructor.
  - destruct (f x) as [y|] eqn:E; bind_simpl; [|done].
    destruct (mapM f l) as [ys'|]; bind_simpl; [|done].
    intros [= <-]. constructor; [done|]. by apply IH.
Qed.

Lemma string_energy_total txt pr total dr :
  string_energy U txt pr = Ok (total, dr) ->
  0 <= total /\ dr = digital_root total (normalize_zero_to_nine pr).
Proof.
  unfold string_energy.
  destruct (mapM _ _) as [es|] eqn:E; bind_simpl; [|done].
  intros [= <- <-]. split; [|done].
  apply mapM_Forall2 in E. clear -E.
  induction E as [|s e l es He _ IH]; cbn; [done|].
  apply char_energy_range in He. fold (zsum es). lia.
Qed.

Lemma allowed_pairs_spec l pr al :
  allowed_pairs U l pr = Ok al ->
  forall s e, (s, e) ∈ al <-> (s ∈ l /\ char_energy U s pr = Ok e /\ e <> 0).
Proof.
  revert al. induction l as [|s0 l IH]; intros al; cbn.
  - intros [= <-] s e. split; [by intros ?%not_elem_of_nil|].
    by intros [?%not_elem_of_nil _].
  - destruct (char_energy U s0 pr) as [e0|] eqn:E0; bind_simpl; [|done].
    destruct (allowed_pairs U l pr) as [al'|]; bind_simpl; [|done].
    specialize (IH al' eq_refl).
    intros [= <-] s e. destruct (Z.eqb_spec e0 0) as [->|Hne].
    + rewrite IH, elem_of_cons. split.
      * intros (? & ? & ?). by repeat split; [right|..].
      * intros ([->|Hin] & He & Hne); [congruence|done].
    + rewrite !elem_of_cons, IH. split.
      * intros [[= -> ->]|(? & ? & ?)]; [by repeat split; [left|..]|].
        by repeat split; [right|..].
      * intros ([->|Hin] & He & Hne'); [left; congruence|by right].
Qed.

(** What a call of [optimize_attunement] that returns went through. *)
Lemma optimize_attunement_inv txt target pr allowed_symbols method max_steps plan total dr :
  optimize_attunement U txt target pr allowed_symbols method max_steps = Ok plan ->
  string_energy U txt pr = Ok (total, dr) ->
  1 <= target <= 9 /\
  p_method plan = method /\
  ((dr = target /\ steps plan = [] /\ p_total_after plan = total /\
    p_dr_after plan = target) \/
   (dr <> target /\
    exists allowed seq es,
      allowed_pairs U (chars_of (effective_symbols allowed_symbols)) pr = Ok allowed /\
      minimal_residue_combo (_target_residue total target) allowed max_steps
        = Ok (Some seq) /\
      steps plan = build_steps_from_seq seq allowed /\
      mapM (fun sc => e ← char_energy U (fst sc) pr; Ok (snd sc * e)) (steps plan) = Ok es /\
      p_total_after plan = total + zsum es /\
      p_dr_after plan = digital_root (total + zsum es) (normalize_zero_to_nine pr))).
Proof.
  unfold optimize_attunement. intros Hopt He. rewrite He in Hopt.
  revert Hopt. bind_simpl.
  destruct (negb _) eqn:Hneg; [done|].
  destruct (Z.eqb_spec dr target) as [->|Hne].
  { intros [= <-]. cbn. split; [lia|]. split; [done|]. by left. }
  fold (effective_symbols allowed_symbols).
  destruct (allowed_pairs U _ pr) as [[|a al]|] eqn:Ea; bind_simpl; [done| |done].
  destruct (minimal_residue_combo _ _ _) as [[seq|]|] eqn:Em; bind_simpl; [|done|done].
  destruct (mapM _ _) as [es|] eqn:Es; bind_simpl; [|done].
  intros [= <-]. cbn. split; [lia|]. split; [done|]. right. split; [done|].
  by exists (a :: al), seq, es.
Qed.

(** The first half of C3.  The symbols a plan of [optimize_attunement]
    inserts are as many as the edges of a shortest path from residue 0 to
    the residue delta in the graph of the nine residues: some sequence of
    insertable residues of this length adds up to the delta, and no
    sequence that does is shorter. *)
Lemma insertion_plan_shortest txt target pr allowed_symbols method max_steps plan total dr :
  optimize_attunement U txt target pr allowed_symbols method max_steps = Ok plan ->
  string_energy U txt pr = Ok (total, dr) ->
  (exists picks,
      Z.of_nat (length picks) = insertions plan /\
      Forall (insertable U pr (effective_symbols allowed_symbols)) picks /\
      zsum picks mod 9 = _target_residue total target) /\
  (forall picks,
      Forall (insertable U pr (effective_symbols allowed_symbols)) picks ->
      zsum picks mod 9 = _target_residue total target ->
      insertions plan <= Z.of_nat (length picks)).
Proof.
  intros Hopt He.
  destruct (optimize_attunement_inv _ _ _ _ _ _ _ _ _ Hopt He)
    as (Ht & _ & [(-> & Hsteps & _)|(Hne & allowed & seq & es & Ha & Hm & Hsteps & _)]).
  - unfold insertions. rewrite Hsteps. cbn. split; [|intros; lia].
    exists []. split; [done|]. split; [constructor|].
    apply string_energy_total in He as [Htot Hdr].
    unfold _target_residue, _residue. cbn.
    rewrite Hdr, digital_root_nonneg_mod by done.
    by rewrite Z.sub_diag.
  - apply minimal_residue_combo_shortest in Hm as [(picks & Hpicks & Hsum) Hmin].
    set (rs := map (fun se : text * Z => snd se mod 9) allowed) in *.
    pose proof (allowed_pairs_spec _ _ _ Ha) as Hal.
    destruct (picks_of_valid _ _ _ Hpicks) as [Hjs Hin].
    assert (insertions plan = Z.of_nat (length seq)) as Hcount.
    { unfold insertions. rewrite Hsteps. apply build_steps_from_seq_count.
      unfold rs in Hjs. by rewrite length_map in Hjs. }
    assert (forall r, r ∈ rs <-> insertable U pr (effective_symbols allowed_symbols) r)
      as Hrs.
    { intros r. unfold rs. rewrite list_elem_of_fmap. split.
      - intros ([s e] & -> & Hse). apply Hal in Hse as (Hs & Hce & He0).
        unfold chars_of in Hs. apply list_elem_of_fmap in Hs as (c & -> & Hc).
        by exists c, e.
      - intros (c & e & Hc & Hce & He0 & ->). exists ([c], e). split; [done|].
        apply Hal. split; [|done]. unfold chars_of. apply list_elem_of_fmap. eauto. }
    split.
    + exists picks. split; [|split; [|done]].
      * rewrite Hcount. f_equal. symmetry. by eapply Forall2_length.
      * eapply Forall_impl; [exact Hin|]. intros r. apply Hrs.
    + intros picks' Hp' Hsum'. rewrite Hcount.
      assert (Forall (fun r => r ∈ rs) picks') as Hin'.
      { eapply Forall_impl; [exact Hp'|]. intros r. apply Hrs. }
      apply reach_of_picks in Hin'. rewrite Hsum' in Hin'.
      apply Hmin in Hin'. lia.
Qed.
End InsertionPlanner.

(** ** Dicts in insertion order *)

Section Odict.
Context {V : Type}.
Implicit Types (d : odict V) (k : Z) (v : V).

Lemma od_get_set_eq d k v : od_get (od_set d k v) k = Some v.
Proof.
  induction d as [|[k' v'] d IH]; cbn.
  - by rewrite Z.eqb_refl.
  - destruct (Z.eqb_spec k' k) as [->|Hne]; cbn.
    + by rewrite Z.eqb_refl.
    + destruct (Z.eqb_spec k' k); [done|]. exact IH.
Qed.

Lemma od_get_set_ne d k k' v : k <> k' -> od_get (od_set d k v) k' = od_get d k'.
Proof.
  intros Hne. induction d as [|[k0 v0] d IH]; cbn.
  - by destruct (Z.eqb_spec k k').
  - destruct (Z.eqb_spec k0 k) as [->|Hne0]; cbn.
    + by destruct (Z.eqb_spec k k').
    + by rewrite IH.
Qed.

Lemma od_get_None d k : od_get d k = None <-> k ∉ map fst d.
Proof.
  induction d as [|[k' v'] d IH]; cbn.
  - split; [intros _; apply not_elem_of_nil|done].
  - rewrite not_elem_of_cons. destruct (Z.eqb_spec k' k) as [->|Hne].
    + split; [done|]. by intros [? _].
    + rewrite IH. split; [by split|by intros [_ ?]].
Qed.

Lemma od_set_keys d k v :
  map fst (od_set d k v)
  = match od_get d k with Some _ => map fst d | None => map fst d ++ [k] end.
Proof.
  induction d as [|[k' v'] d IH]; cbn; [done|].
  destruct (Z.eqb_spec k' k) as [->|Hne]; cbn; [done|].
  rewrite IH. by destruct (od_get d k).
Qed.

Lemma od_set_length d k v :
  length (od_set d k v)
  = match od_get d k with Some _ => length d | None => S (length d) end.
Proof.
  rewrite <- (length_map fst (od_set d k v)), od_set_keys.
  destruct (od_get d k); [by rewrite length_map|].
  rewrite length_app, length_map. cbn. lia.
Qed.

Lemma od_set_NoDup d k v : NoDup (map fst d) -> NoDup (map fst (od_set d k v)).
Proof.
  intros Hnd. rewrite od_set_keys. destruct (od_get d k) eqn:E; [done|].
  apply NoDup_app. split; [done|]. split; [|apply NoDup_singleton].
  intros x Hx ->%list_elem_of_singleton. by apply od_get_None in E.
Qed.

Lemma od_elem_get d k v : NoDup (map fst d) -> (k, v) ∈ d -> od_get d k = Some v.
Proof.
  induction d as [|[k' v'] d IH]; cbn; [by intros _ ?%not_elem_of_nil|].
  intros [Hk Hnd]%NoDup_cons [[= -> ->]|Hin]%elem_of_cons.
  - by rewrite Z.eqb_refl.
  - destruct (Z.eqb_spec k' k) as [->|Hne]; [|by apply IH].
    exfalso. apply Hk. apply list_elem_of_fmap. by exists (k, v).
Qed.
End Odict.

Lemma od_get_elem {V : Type} (d : odict V) k v : od_get d k = Some v -> (k, v) ∈ d.
Proof.
  induction d as [|[k' v'] d IH]; cbn; [done|].
  destruct (Z.eqb_spec k' k) as [->|Hne].
  - intros [= ->]. by left.
  - intros H. right. by apply IH.
Qed.

(** A loop that keeps an invariant, only moves the state along an order, and
    at each element establishes a fact that the order preserves: after the
    loop the fact holds of every element. *)
Lemma foldl_establish {S A : Type} (g : S -> A -> S) (Inv : S -> Prop)
  (le : S -> S -> Prop) (Est : A -> S -> Prop) (P : A -> Prop) :
  (forall s, le s s) ->
  (forall a b c, le a b -> le b c -> le a c) ->
  (forall st x, Inv st -> P x -> Inv (g st x) /\ le st (g st x) /\ Est x (g st x)) ->
  (forall x st st', le st st' -> Est x st -> Est x st') ->
  forall l init, Forall P l -> Inv init ->
    Inv (foldl g init l) /\ le init (foldl g init l) /\
    Forall (fun x => Est x (foldl g init l)) l.
Proof.
  intros Hrefl Htrans Hstep Hpers. induction l as [|x l IH]; intros init HP Hinit.
  - cbn. repeat split; [done|apply Hrefl|constructor].
  - apply Forall_cons_1 in HP as [Hx HP]. cbn [foldl].
    destruct (Hstep init x Hinit Hx) as (Hinv1 & Hle1 & Hest1).
    destruct (IH _ HP Hinv1) as (Hinv & Hle & Hest).
    repeat split; [done|by eapply Htrans|].
    constructor; [by eapply Hpers|done].
Qed.

(** ** The table of the edit planner *)

Lemma dp_below_refl b : dp_below b b.
Proof. split; [done|]. intros k e He. exists e. split; [done|lia]. Qed.

Lemma dp_below_trans a b c : dp_below a b -> dp_below b c -> dp_below a c.
Proof.
  intros [Hl1 H1] [Hl2 H2]. split; [lia|]. intros k e He.
  destruct (H1 k e He) as (e1 & He1 & Hc1).
  destruct (H2 k e1 He1) as (e2 & He2 & Hc2).
  exists e2. split; [done|lia].
Qed.

(** Writing a slot that is new, or that improves on the count it had. *)
Lemma dp_set_spec (nb : odict best_entry) res cnt r info (e_res : best_entry) :
  let nr := (res + r) mod 9 in
  let nb' := od_set nb nr ((cnt + 1, res, info) : best_entry) in
  dp_wf nb ->
  od_get nb res = Some e_res -> entry_count e_res <= cnt ->
  0 <= cnt < Z.of_nat (length nb) ->
  (od_get nb nr = None \/
   exists e : best_entry, od_get nb nr = Some e /\ cnt + 1 < entry_count e) ->
  dp_wf nb' /\ dp_below nb nb'.
Proof.
  intros nr nb' Hwf Hres Hcnt Hrange Hnr.
  assert (nr <> res) as Hne_res.
  { intros Heq. rewrite Heq in Hnr. destruct Hnr as [Hn|(e & He & Hlt)]; [congruence|].
    rewrite Hres in He. injection He as <-. lia. }
  assert (nr <> 0) as Hne0.
  { intros Heq. pose proof (dw_root _ Hwf) as H0. rewrite Heq in Hnr.
    destruct Hnr as [Hn|(e & He & Hlt)]; [congruence|].
    rewrite H0 in He. injection He as <-. cbn in Hlt. lia. }
  assert (length nb <= length nb')%nat as Hlen.
  { unfold nb'. rewrite od_set_length. destruct (od_get nb nr); lia. }
  assert (forall k, k <> nr -> od_get nb' k = od_get nb k) as Hother.
  { intros k Hk. unfold nb'. by rewrite od_get_set_ne. }
  assert (od_get nb' nr = Some (cnt + 1, res, info)) as Hnew
    by apply od_get_set_eq.
  split; [split|split].
  - rewrite Hother by done. apply (dw_root _ Hwf).
  - apply od_set_NoDup, (dw_keys _ Hwf).
  - intros k e. destruct (decide (k = nr)) as [->|Hk].
    + intros _. apply Z.mod_pos_bound. lia.
    + rewrite Hother by done. apply (dw_range _ Hwf).
  - intros k e. destruct (decide (k = nr)) as [->|Hk].
    + rewrite Hnew. intros [= <-]. cbn. split; [lia|].
      unfold nb'. rewrite od_set_length.
      destruct Hnr as [Hn|(e' & He' & Hlt')].
      * rewrite Hn. lia.
      * rewrite He'. pose proof (dw_count _ Hwf _ _ He'). lia.
    + rewrite Hother by done. intros He.
      pose proof (dw_count _ Hwf _ _ He). lia.
  - intros k e Hk0. destruct (decide (k = nr)) as [->|Hk].
    + rewrite Hnew. intros [= <-]. cbn. exists e_res.
      rewrite Hother by done. split; [done|lia].
    + rewrite Hother by done. intros He.
      destruct (dw_prev _ Hwf k e Hk0 He) as (e' & He' & Hlt).
      destruct (decide (entry_prev e = nr)) as [Hp|Hp].
      * rewrite Hp in *. exists (cnt + 1, res, info). split; [done|]. cbn.
        destruct Hnr as [Hn|(e'' & He'' & Hlt'')]; [congruence|].
        rewrite He' in He''. injection He'' as <-. lia.
      * exists e'. by rewrite Hother.
  - done.
  - intros k e He. destruct (decide (k = nr)) as [->|Hk].
    + exists (cnt + 1, res, info). split; [done|]. cbn.
      destruct Hnr as [Hn|(e' & He' & Hlt)]; [congruence|].
      rewrite He in He'. injection He' as <-. lia.
    + exists e. rewrite Hother by done. split; [done|lia].
Qed.

(** One option applied to one slot of the old table. *)
Lemma dp_option_spec max_edits i res cnt (nb : odict best_entry) o (e_res : best_entry) :
  let nb' := dp_option max_edits i res cnt nb o in
  dp_wf nb ->
  od_get nb res = Some e_res -> entry_count e_res <= cnt ->
  0 <= cnt < Z.of_nat (length nb) ->
  dp_wf nb' /\ dp_below nb nb' /\
  (cnt + 1 <= max_edits ->
   exists e' : best_entry,
     od_get nb' ((res + fst o) mod 9) = Some e' /\ entry_count e' <= cnt + 1).
Proof.
  intros nb' Hwf Hres Hcnt Hrange. unfold nb', dp_option.
  destruct (Z.gtb_spec (cnt + 1) max_edits) as [Hgt|Hle].
  { split; [done|]. split; [apply dp_below_refl|lia]. }
  destruct (od_get nb ((res + fst o) mod 9)) as [e|] eqn:Hnr.
  - destruct (Z.ltb_spec (cnt + 1) (fst (fst e))) as [Hlt|Hge].
    + destruct (dp_set_spec nb res cnt (fst o) (i, fst o, snd o) e_res Hwf Hres Hcnt Hrange)
        as [Hwf' Hbelow]; [right; eauto|].
      split; [done|]. split; [done|]. intros _. eexists. rewrite od_get_set_eq.
      split; [done|]. cbn. lia.
    + split; [done|]. split; [apply dp_below_refl|]. intros _. exists e. by split.
  - destruct (dp_set_spec nb res cnt (fst o) (i, fst o, snd o) e_res Hwf Hres Hcnt Hrange)
      as [Hwf' Hbelow]; [by left|].
    split; [done|]. split; [done|]. intros _. eexists. rewrite od_get_set_eq.
    split; [done|]. cbn. lia.
Qed.

(** One position: every slot of the old table has met every option. *)
Lemma dp_position_spec max_edits i opts (best : odict best_entry) :
  dp_wf best ->
  let nb := dp_position max_edits best (i, opts) in
  dp_wf nb /\ dp_below best nb /\
  (forall res (e : best_entry) o,
      od_get best res = Some e -> o ∈ opts -> entry_count e + 1 <= max_edits ->
      exists e' : best_entry,
        od_get nb ((res + fst o) mod 9) = Some e' /\
        entry_count e' <= entry_count e + 1).
Proof.
  intros Hwf nb.
  set (Est := fun (x : Z * best_entry) (o : edit_option) (st : odict best_entry) =>
                entry_count (snd x) + 1 <= max_edits ->
                exists e' : best_entry,
                  od_get st ((fst x + fst o) mod 9) = Some e' /\
                  entry_count e' <= entry_count (snd x) + 1).
  assert (forall x o st st', dp_below st st' -> Est x o st -> Est x o st') as Hpers.
  { intros x o st st' [_ Hb] Hest Hle. destruct (Hest Hle) as (e1 & He1 & Hc1).
    destruct (Hb _ _ He1) as (e2 & He2 & Hc2). exists e2. split; [done|lia]. }
  destruct (foldl_establish
    (fun new_best (entry : Z * best_entry) =>
       foldl (dp_option max_edits i (fst entry) (fst (fst (snd entry)))) new_best opts)
    (fun st => dp_wf st /\ dp_below best st)
    dp_below
    (fun x st => Forall (fun o => Est x o st) opts)
    (fun x => od_get best (fst x) = Some (snd x))
    dp_below_refl dp_below_trans) with (l := best) (init := best)
    as ((Hwf' & Hbelow) & _ & Hall).
  - (* one slot of the old table *)
    intros st x [Hst Hbst] Hx.
    destruct (foldl_establish
      (dp_option max_edits i (fst x) (fst (fst (snd x))))
      (fun st => dp_wf st /\ dp_below best st)
      dp_below
      (fun o st => Est x o st)
      (fun _ => True)
      dp_below_refl dp_below_trans) with (l := opts) (init := st)
      as (Hinv & Hle & Hest).
    + intros st1 o [Hst1 Hbst1] _.
      destruct Hbst1 as [Hlen1 Hb1].
      destruct (Hb1 _ _ Hx) as (e_res & Hres & Hcnt).
      pose proof (dw_count _ Hwf _ _ Hx) as Hc.
      destruct (dp_option_spec max_edits i (fst x) (entry_count (snd x)) st1 o e_res
                  Hst1 Hres Hcnt ltac:(lia)) as (Hwf2 & Hb2 & Hest2).
      split; [split; [done|]|split; [done|]].
      * eapply dp_below_trans; [|exact Hb2]. by split.
      * exact Hest2.
    + intros o st1 st2. apply Hpers.
    + by apply Forall_true.
    + by split.
    + split; [done|]. split; [done|]. done.
  - intros x st st' Hle Hest. eapply Forall_impl; [exact Hest|].
    intros o. by apply Hpers.
  - apply Forall_forall. intros [k v] Hin. cbn.
    apply od_elem_get; [apply (dw_keys _ Hwf)|done].
  - split; [done|apply dp_below_refl].
  - split; [done|]. split; [done|].
    intros res e o He Ho Hle.
    rewrite Forall_forall in Hall.
    specialize (Hall (res, e) ltac:(by apply od_get_elem)).
    rewrite Forall_forall in Hall.
    apply (Hall o Ho). exact Hle.
Qed.

Lemma enumerate_from_snoc {A : Type} (l : list A) x k :
  enumerate_from k (l ++ [x]) = enumerate_from k l ++ [(k + Z.of_nat (length l), x)].
Proof.
  revert k. induction l as [|y l IH]; intros k; cbn [enumerate_from app length].
  - by rewrite Z.add_0_r.
  - rewrite IH. replace (k + 1 + Z.of_nat (length l)) with (k + Z.of_nat (S (length l)))
      by lia. done.
Qed.

Lemma best_init_get k (e : best_entry) :
  od_get best_init k = Some e -> k = 0 /\ e = (0, -1, (-1, 0, None)).
Proof.
  unfold best_init. cbn [od_get]. destruct (Z.eqb_spec 0 k) as [<-|]; [|done].
  intros [= <-]. done.
Qed.

Lemma best_init_wf : dp_wf best_init.
Proof.
  split.
  - done.
  - apply NoDup_singleton.
  - intros k e [-> _]%best_init_get. lia.
  - intros k e [_ ->]%best_init_get. cbn. lia.
  - intros k e Hk [-> _]%best_init_get. done.
Qed.

Lemma edits_snoc sel c :
  edits (sel ++ [c]) = (edits sel + match c with Some _ => 1 | None => 0 end)%nat.
Proof.
  unfold edits. rewrite omap_app, length_app. by destruct c.
Qed.

Lemma selection_delta_snoc sel (c : option edit_option) :
  selection_delta (sel ++ [c])
  = selection_delta sel + match c with Some o => fst o | None => 0 end.
Proof.
  unfold selection_delta. rewrite map_app, zsum_app. cbn. lia.
Qed.

(** The table after all positions: it is well formed and knows every choice
    of at most [max_edits] edits. *)
Lemma dp_table_spec max_edits pos_deltas :
  dp_wf (dp_table max_edits pos_deltas) /\
  dp_complete max_edits pos_deltas (dp_table max_edits pos_deltas).
Proof.
  unfold dp_table, enumerate.
  induction pos_deltas as [|opts pds IH] using rev_ind.
  - split; [apply best_init_wf|].
    intros sel Hsel _. apply Forall2_nil_inv_l in Hsel as ->.
    exists (0, -1, (-1, 0, None)). by split.
  - destruct IH as [Hwf Hcomp].
    rewrite enumerate_from_snoc, foldl_app. cbn [foldl].
    set (best := foldl (dp_position max_edits) best_init (enumerate_from 0 pds)) in *.
    destruct (dp_position_spec max_edits (0 + Z.of_nat (length pds)) opts best Hwf)
      as (Hwf' & [_ Hbelow] & Hest).
    split; [done|].
    intros sel Hsel Hedits.
    apply Forall2_app_inv_l in Hsel as (sel1 & sel2 & Hsel1 & Hsel2 & ->).
    apply Forall2_cons_inv_l in Hsel2 as (c & sel3 & Hc & ->%Forall2_nil_inv_l & ->).
    rewrite edits_snoc in *. rewrite selection_delta_snoc.
    destruct c as [o|].
    + destruct (Hcomp sel1 Hsel1 ltac:(lia)) as (e1 & He1 & Hc1).
      destruct (Hest _ _ o He1 Hc ltac:(lia)) as (e2 & He2 & Hc2).
      rewrite Zplus_mod_idemp_l in He2.
      exists e2. split; [done|lia].
    + destruct (Hcomp sel1 Hsel1 ltac:(lia)) as (e1 & He1 & Hc1).
      destruct (Hbelow _ _ He1) as (e2 & He2 & Hc2).
      rewrite Z.add_0_r. exists e2. split; [done|lia].
Qed.

Lemma dp_wf_length (best : odict best_entry) : dp_wf best -> (length best <= 9)%nat.
Proof.
  intros Hwf.
  assert (map fst best ⊆+ seqZ 0 9) as Hsub.
  { apply NoDup_submseteq; [apply (dw_keys _ Hwf)|].
    intros k Hk. apply elem_of_seqZ.
    destruct (od_get best k) as [e|] eqn:E.
    - pose proof (dw_range _ Hwf _ _ E). lia.
    - by apply od_get_None in E. }
  apply submseteq_length in Hsub. rewrite length_map in Hsub.
  etrans; [exact Hsub|]. by vm_compute.
Qed.

(** The walk back through [best] ends, with at most as many operations as
    the count of the slot it starts from. *)
Lemma reconstruct_spec (best : odict best_entry) fuel : forall cur (e : best_entry) acc,
  dp_wf best -> od_get best cur = Some e -> entry_count e <= Z.of_nat fuel ->
  exists l, reconstruct fuel best cur acc = Ok (acc ++ l) /\
            Z.of_nat (length l) <= entry_count e.
Proof.
  induction fuel as [|fuel IH]; intros cur e acc Hwf He Hfuel.
  - pose proof (dw_count _ Hwf _ _ He) as Hc.
    destruct (decide (cur = 0)) as [->|Hne].
    + exists []. cbn. rewrite app_nil_r. split; [done|lia].
    + destruct (dw_prev _ Hwf _ _ Hne He) as (e' & He' & Hlt).
      pose proof (dw_count _ Hwf _ _ He'). lia.
  - pose proof (dw_count _ Hwf _ _ He) as Hc.
    cbn [reconstruct]. destruct (Z.eqb_spec cur 0) as [->|Hne].
    + exists []. rewrite app_nil_r. split; [done|cbn; lia].
    + rewrite He. destruct (dw_prev _ Hwf _ _ Hne He) as (e' & He' & Hlt).
      destruct e as [[c prev] [[p r] repl]]. cbn in He', Hlt, Hfuel, Hc |- *.
      set (acc' := if p >=? 0 then _ else acc).
      destruct (IH prev e' acc' Hwf He' ltac:(lia)) as (l & Hl & Hlen).
      assert (exists l0, acc' = acc ++ l0 /\ (length l0 <= 1)%nat) as (l0 & -> & Hl0).
      { unfold acc'. destruct (p >=? 0).
        - destruct repl; eexists; (split; [done|cbn; lia]).
        - exists []. rewrite app_nil_r. split; [done|cbn; lia]. }
      exists (l0 ++ l). rewrite Hl, app_assoc. split; [done|].
      rewrite length_app. lia.
Qed.

(** ** The edit planner stays within the minimum *)

Section EditPlannerMinimal.
Variable U : Unicode.

(** The second half of C3.  A plan of [optimize_substitution] has no more
    operations than any choice of at most [max_edits] edits, one option for
    each chosen position, whose residue deltas add up to the delta asked
    for.  (When there is such a choice the plan comes from the table, not
    from the insertion fallback.) *)
Lemma edit_plan_within_minimum txt target pr subs allow_delete allowed_inserts max_edits
  plan total dr pos_deltas sel :
  optimize_substitution U txt target pr subs allow_delete allowed_inserts max_edits
    = Ok plan ->
  string_energy U txt pr = Ok (total, dr) ->
  pos_deltas_of U pr subs allow_delete txt = Ok pos_deltas ->
  selects pos_deltas sel ->
  Z.of_nat (edits sel) <= max_edits ->
  selection_delta sel mod 9 = _target_residue total target ->
  (length (ops plan) <= edits sel)%nat.
Proof.
  unfold optimize_substitution, pos_deltas_of.
  intros Hopt He Hpd Hsel Hedits Hdelta. rewrite He in Hopt. revert Hopt. bind_simpl.
  destruct (negb _); [done|].
  destruct (dr =? target); [intros [= <-]; cbn; lia|].
  rewrite Hpd. bind_simpl.
  destruct (dp_table_spec max_edits pos_deltas) as [Hwf Hcomp].
  destruct (Hcomp sel Hsel Hedits) as (e & Hget & Hcount).
  rewrite Hdelta in Hget. rewrite Hget.
  pose proof (dw_count _ Hwf _ _ Hget) as Hc.
  pose proof (dp_wf_length _ Hwf) as Hlen.
  destruct (reconstruct_spec _ 9 _ e [] Hwf Hget ltac:(lia)) as (l & Hl & Hll).
  rewrite Hl. bind_simpl. cbn [app].
  destruct (apply_edit_plan _ _) as [out|]; bind_simpl; [|done].
  destruct (string_energy U out pr) as [[new_total new_dr]|]; bind_simpl; [|done].
  intros [= <-]. cbn [ops]. rewrite length_reverse. lia.
Qed.

(** The walk back through the table of [optimize_substitution] never misses
    a key and never runs out of turns. *)
Lemma reconstruct_total max_edits pos_deltas delta_res (e : best_entry) :
  od_get (dp_table max_edits pos_deltas) delta_res = Some e ->
  exists l, reconstruct 9 (dp_table max_edits pos_deltas) delta_res [] = Ok l.
Proof.
  intros Hget. destruct (dp_table_spec max_edits pos_deltas) as [Hwf _].
  pose proof (dw_count _ Hwf _ _ Hget) as Hc.
  pose proof (dp_wf_length _ Hwf) as Hlen.
  destruct (reconstruct_spec _ 9 _ e [] Hwf Hget ltac:(lia)) as (l & Hl & _).
  eauto.
Qed.
End EditPlannerMinimal.

(** ** C3: minimality *)

(** C3: whenever the planners return, (1) the plan of [optimize_attunement]
    inserts as many symbols as a shortest path from residue 0 to the residue
    delta has edges in the graph of the nine residues, an edge for every
    allowed symbol of non-zero energy: there is a path of this length, and
    none is shorter; (2) the plan of [optimize_substitution] has no more
    operations than any choice of at most [max_edits] edits, one option for
    each chosen position, that reaches the residue delta. *)
Theorem planners_minimal (U : Unicode)
  (txt : text) (target : Z) (pr : Principle) (allowed_symbols : option text)
  (method : string) (max_steps : Z) (plan : Plan) (total dr : Z)
  (txt' : text) (target' : Z) (pr' : Principle) (subs : option (gmap text (list text)))
  (allow_delete : bool) (allowed_inserts : option text) (max_edits : Z)
  (eplan : EditPlan) (total' dr' : Z) :
  optimize_attunement U txt target pr allowed_symbols method max_steps = Ok plan ->
  string_energy U txt pr = Ok (total, dr) ->
  optimize_substitution U txt' target' pr' subs allow_delete allowed_inserts max_edits
    = Ok eplan ->
  string_energy U txt' pr' = Ok (total', dr') ->
  ((exists picks,
       Z.of_nat (length picks) = insertions plan /\
       Forall (insertable U pr (effective_symbols allowed_symbols)) picks /\
       zsum picks mod 9 = _target_residue total target) /\
   (forall picks,
       Forall (insertable U pr (effective_symbols allowed_symbols)) picks ->
       zsum picks mod 9 = _target_residue total target ->
       insertions plan <= Z.of_nat (length picks))) /\
  (forall pos_deltas sel,
      pos_deltas_of U pr' subs allow_delete txt' = Ok pos_deltas ->
      selects pos_deltas sel ->
      Z.of_nat (edits sel) <= max_edits ->
      selection_delta sel mod 9 = _target_residue total' target' ->
      (length (ops eplan) <= edits sel)%nat).
Proof.
  intros Hopt He Hopt' He'. split.
  - by eapply insertion_plan_shortest.
  - intros pos_deltas sel. by eapply edit_plan_within_minimum.
Qed.

Lemma planners_minimal_witness :
  ((exists picks,
       Z.of_nat (length picks) = insertions abc_plan /\
       Forall (insertable ascii_only ninefold_grid (effective_symbols None)) picks /\
       zsum picks mod 9 = _target_residue 6 1) /\
   (forall picks,
       Forall (insertable ascii_only ninefold_grid (effective_symbols None)) picks ->
       zsum picks mod 9 = _target_residue 6 1 ->
       insertions abc_plan <= Z.of_nat (length picks))) /\
  (forall pos_deltas sel,
      pos_deltas_of ascii_only ninefold_grid (Some xy_catalog) false (py "X")
        = Ok pos_deltas ->
      selects pos_deltas sel ->
      Z.of_nat (edits sel) <= 8 ->
      selection_delta sel mod 9 = _target_residue 6 7 ->
      (length (ops xy_plan) <= edits sel)%nat).
Proof.
  apply (planners_minimal ascii_only
           (py "ABC") 1 ninefold_grid None "append" 64 abc_plan 6 6
           (py "X") 7 ninefold_grid (Some xy_catalog) false None 8 xy_plan 6 6).
  - vm_compute. reflexivity.
  - vm_compute. reflexivity.
  - vm_compute. reflexivity.
  - vm_compute. reflexivity.
Defined.

(** ** The energy of a text with symbols inserted *)

Lemma mapM_app {A B : Type} (f : A -> result B) l1 l2 es1 es2 :
  mapM f l1 = Ok es1 -> mapM f l2 = Ok es2 -> mapM f (l1 ++ l2) = Ok (es1 ++ es2).
Proof.
  revert es1. induction l1 as [|x l1 IH]; intros es1; cbn.
  - by intros [= <-].
  - destruct (f x) as [y|]; bind_simpl; [|done].
    destruct (mapM f l1) as [ys|] eqn:E; bind_simpl; [|done].
    intros [= <-] H2. by rewrite (IH ys eq_refl H2).
Qed.

Lemma mapM_perm {A : Type} (f : A -> result Z) l l' es :
  l ≡ₚ l' -> mapM f l = Ok es -> exists es', mapM f l' = Ok es' /\ zsum es' = zsum es.
Proof.
  intros Hp. revert es. induction Hp as [|x l l' Hp IH|x y l|l l' l'' Hp1 IH1 Hp2 IH2];
    intros es; cbn.
  - intros [= <-]. by exists [].
  - destruct (f x) as [a|]; bind_simpl; [|done].
    destruct (mapM f l) as [ys|]; bind_simpl; [|done].
    intros [= <-]. destruct (IH ys eq_refl) as (ys' & -> & Hs). bind_simpl.
    exists (a :: ys'). split; [done|]. cbn. fold (zsum ys') (zsum ys). lia.
  - destruct (f y) as [a|]; bind_simpl; [|done].
    destruct (f x) as [b|]; bind_simpl; [|done].
    destruct (mapM f l) as [ys|]; bind_simpl; [|done].
    intros [= <-]. exists (b :: a :: ys). split; [done|]. cbn. lia.
  - intros H. destruct (IH1 es H) as (es1 & H1 & Hs1).
    destruct (IH2 es1 H1) as (es2 & H2 & Hs2).
    exists es2. split; [done|lia].
Qed.

Section TextEnergy.
Variable U : Unicode.
Variable pr : Principle.

Lemma total_energy_app l1 l2 t1 t2 :
  total_energy U pr l1 t1 -> total_energy U pr l2 t2 ->
  total_energy U pr (l1 ++ l2) (t1 + t2).
Proof.
  intros (es1 & H1 & <-) (es2 & H2 & <-). exists (es1 ++ es2).
  split; [by apply mapM_app|apply zsum_app].
Qed.

Lemma total_energy_perm l l' t :
  l ≡ₚ l' -> total_energy U pr l t -> total_energy U pr l' t.
Proof.
  intros Hp (es & H & <-). destruct (mapM_perm _ _ _ _ Hp H) as (es' & H' & Hs).
  by exists es'.
Qed.

Lemma total_energy_replicate s e n :
  char_energy U s pr = Ok e -> total_energy U pr (replicate n s) (Z.of_nat n * e).
Proof.
  intros He. induction n as [|n IH].
  - by exists [].
  - destruct IH as (es & H & Hs). exists (e :: es). cbn [replicate mapM].
    rewrite He, H. bind_simpl. split; [done|]. cbn. fold (zsum es). lia.
Qed.

Lemma string_energy_total_energy txt t :
  total_energy U pr (chars_of txt) t ->
  string_energy U txt pr = Ok (t, digital_root t (normalize_zero_to_nine pr)).
Proof. intros (es & H & <-). unfold string_energy. by rewrite H. Qed.

Lemma total_energy_string_energy txt total dr :
  string_energy U txt pr = Ok (total, dr) -> total_energy U pr (chars_of txt) total.
Proof.
  unfold string_energy. destruct (mapM _ _) as [es|] eqn:E; bind_simpl; [|done].
  intros [= <- _]. by exists es.
Qed.
End TextEnergy.

Lemma chars_of_app s1 s2 : chars_of (s1 ++ s2) = chars_of s1 ++ chars_of s2.
Proof. apply map_app. Qed.

(** A list of one-character strings is the list of the characters of their
    concatenation. *)
Lemma chars_of_concat l :
  Forall (fun s : text => exists c, s = [c]) l -> chars_of (concat l) = l.
Proof.
  induction 1 as [|s l [c ->] _ IH]; [done|].
  cbn [concat app]. unfold chars_of in *. cbn [map]. by rewrite IH.
Qed.

Lemma chars_of_singletons txt : Forall (fun s : text => exists c, s = [c]) (chars_of txt).
Proof. induction txt; constructor; eauto. Qed.

(** The intersperse loop loses no character and no symbol. *)
Lemma intersperse_loop_perm interval inserts chars : forall i1 i_ins out out' i',
  intersperse_loop interval inserts chars i1 i_ins out = (out', i') ->
  out' ++ drop i' inserts ≡ₚ out ++ chars ++ drop i_ins inserts.
Proof.
  induction chars as [|ch chars IH]; intros i1 i_ins out out' i'; cbn.
  - by intros [= <- <-].
  - destruct (if i1 mod interval =? 0 then inserts !! i_ins else None) as [s|] eqn:E.
    + intros H. apply IH in H. rewrite H.
      assert (inserts !! i_ins = Some s) as Hs by (by destruct (_ =? 0)).
      rewrite (drop_S _ _ _ Hs). rewrite <- !app_assoc. cbn.
      apply Permutation_app_head. constructor.
      by rewrite Permutation_middle.
    + intros H. apply IH in H. rewrite H. by rewrite <- app_assoc.
Qed.

(** ** The plan of [optimize_attunement] reaches the target *)

Lemma wtally_insert counts (l : list (Z * Z)) j w v :
  NoDup (map fst l) -> (j, w) ∈ l ->
  wtally (<[j := v]> counts) l = wtally counts l + (v - dict_get counts j 0) * w.
Proof.
  unfold wtally, zsum. induction l as [|[k wk] l IH]; intros Hnd Hj.
  - by apply not_elem_of_nil in Hj.
  - cbn [map fst] in Hnd. apply NoDup_cons in Hnd as [Hk Hnd]. cbn [map foldr fst snd].
    apply elem_of_cons in Hj as [[= <- <-]|Hj].
    + assert (map (fun iw : Z * Z => dict_get (<[j:=v]> counts) (fst iw) 0 * snd iw) l
              = map (fun iw : Z * Z => dict_get counts (fst iw) 0 * snd iw) l) as ->.
      { apply map_ext_in. intros [i wi] Hi. apply list_elem_of_In in Hi. cbn.
        unfold dict_get. rewrite lookup_insert_ne; [done|]. intros ->.
        apply Hk. apply list_elem_of_fmap. by exists (i, wi). }
      unfold dict_get at 1. rewrite lookup_insert_eq. lia.
    + rewrite IH by done.
      assert (j <> k) as Hne.
      { intros ->. apply Hk. apply list_elem_of_fmap. by exists (k, w). }
      unfold dict_get at 1. rewrite lookup_insert_ne by done.
      fold (dict_get counts k 0). lia.
Qed.

Lemma wtally_counts (l : list (Z * Z)) seq : forall ws counts,
  NoDup (map fst l) -> Forall2 (fun j w => (j, w) ∈ l) seq ws ->
  wtally (foldl (fun counts i => <[i := dict_get counts i 0 + 1]> counts) counts seq) l
  = wtally counts l + zsum ws.
Proof.
  induction seq as [|j seq IH]; intros ws counts Hnd Hseq.
  - apply Forall2_nil_inv_l in Hseq as ->. cbn. lia.
  - apply Forall2_cons_inv_l in Hseq as (w & ws' & Hj & Hseq & ->).
    cbn [foldl]. rewrite (IH ws') by done. rewrite (wtally_insert _ _ _ w) by done.
    cbn. fold (zsum ws'). lia.
Qed.

Lemma wtally_empty l : wtally ∅ l = 0.
Proof.
  unfold wtally, dict_get, zsum. induction l as [|[i w] l IH]; [done|].
  cbn [map foldr fst snd]. rewrite lookup_empty, IH. done.
Qed.

Lemma counts_positive seq : forall counts : gmap Z Z,
  (forall i v, counts !! i = Some v -> 1 <= v) ->
  forall i v,
    foldl (fun counts i => <[i := dict_get counts i 0 + 1]> counts) counts seq !! i = Some v ->
    1 <= v.
Proof.
  induction seq as [|j seq IH]; intros counts Hc; cbn [foldl]; [done|].
  apply IH. intros i v. destruct (decide (j = i)) as [->|Hne].
  - rewrite lookup_insert_eq. intros [= <-]. unfold dict_get.
    destruct (counts !! i) as [v'|] eqn:E; [|lia]. apply Hc in E. lia.
  - rewrite lookup_insert_ne by done. apply Hc.
Qed.

Lemma enumerate_from_lookup {A : Type} (l : list A) k n x :
  l !! n = Some x -> (k + Z.of_nat n, x) ∈ enumerate_from k l.
Proof.
  revert k n. induction l as [|y l IH]; intros k n; [done|].
  destruct n as [|n]; cbn [enumerate_from].
  - intros [= ->]. rewrite Z.add_0_r. by left.
  - cbn. intros H. right. replace (k + Z.of_nat (S n)) with (k + 1 + Z.of_nat n) by lia.
    by apply IH.
Qed.

Lemma zsum_mod ws picks :
  Forall2 (fun w p => p = w mod 9) ws picks -> zsum picks mod 9 = zsum ws mod 9.
Proof.
  induction 1 as [|w p ws picks -> _ IH]; [done|].
  cbn. fold (zsum ws) (zsum picks).
  rewrite Zplus_mod_idemp_l, <- Zplus_mod_idemp_r, IH, Zplus_mod_idemp_r. done.
Qed.

Lemma zsum_lower ws :
  Forall (fun w => 1 <= w) ws -> Z.of_nat (length ws) <= zsum ws.
Proof.
  induction 1 as [|w ws Hw _ IH]; [done|]. cbn [length zsum foldr]. fold (zsum ws). lia.
Qed.

Lemma target_residue_sum total target d :
  d mod 9 = _target_residue total target -> (total + d) mod 9 = target mod 9.
Proof.
  unfold _target_residue, _residue. intros Hd.
  rewrite Zplus_mod, Hd, Zplus_mod_idemp_r.
  replace (total mod 9 + (target mod 9 - total mod 9)) with (target mod 9) by lia.
  apply Z.mod_mod. lia.
Qed.

Section ReachesTarget.
Variable U : Unicode.
Variable pr : Principle.

(** The steps built for a sub-list of the allowed symbols: their energy is
    the weighted sum of the counts. *)
Lemma steps_energy (counts : gmap Z Z) (l : list (Z * (text * Z))) :
  Forall (fun ise => char_energy U (fst (snd ise)) pr = Ok (snd (snd ise))) l ->
  (forall i v, counts !! i = Some v -> 1 <= v) ->
  let steps := flat_map (fun ise : Z * (text * Z) =>
                           match counts !! fst ise with
                           | Some c => [(fst (snd ise), c)]
                           | None => []
                           end) l in
  exists es,
    mapM (fun sc => e ← char_energy U (fst sc) pr; Ok (snd sc * e)) steps = Ok es /\
    zsum es = wtally counts (weights_of l) /\
    total_energy U pr (symbols_of steps) (zsum es).
Proof.
  intros Hl Hc. induction Hl as [|[i [s e]] l He _ IH]; cbn [flat_map].
  - exists []. repeat split. by exists [].
  - destruct IH as (es & Hes & Hsum & Htot). cbn [fst snd] in *.
    unfold wtally, weights_of in *. cbn [map fst snd zsum foldr].
    fold (zsum (map (fun iw : Z * Z => dict_get counts (fst iw) 0 * snd iw)
                    (map (fun ise : Z * (text * Z) => (fst ise, snd (snd ise))) l))).
    unfold dict_get at 1.
    destruct (counts !! i) as [c|] eqn:Ec.
    + exists (c * e :: es). cbn [app mapM fst snd]. rewrite He, Hes. bind_simpl.
      split; [done|]. split; [cbn; fold (zsum es); lia|].
      unfold symbols_of. cbn [flat_map fst snd]. fold (symbols_of
        (flat_map (fun ise : Z * (text * Z) =>
                     match counts !! fst ise with
                     | Some c => [(fst (snd ise), c)]
                     | None => []
                     end) l)).
      cbn [zsum foldr]. fold (zsum es).
      apply total_energy_app; [|done].
      pose proof (Hc _ _ Ec).
      replace (c * e) with (Z.of_nat (Z.to_nat c) * e) by lia.
      by apply total_energy_replicate.
    + exists es. cbn [app]. split; [done|]. split; [lia|done].
Qed.

Lemma steps_singletons (counts : gmap Z Z) (l : list (Z * (text * Z))) :
  Forall (fun ise => exists c, fst (snd ise) = [c]) l ->
  Forall (fun s : text => exists c, s = [c])
    (symbols_of (flat_map (fun ise : Z * (text * Z) =>
                             match counts !! fst ise with
                             | Some c => [(fst (snd ise), c)]
                             | None => []
                             end) l)).
Proof.
  induction 1 as [|[i [s e]] l [c Hs] _ IH]; [constructor|].
  cbn [flat_map fst snd] in *. destruct (counts !! i) as [n|]; [|done].
  unfold symbols_of in *. cbn [app flat_map fst snd].
  apply Forall_app. split; [|done].
  apply Forall_replicate. eauto.
Qed.

(** The strings [sym * count] joined are the symbols of the plan. *)
Lemma chars_of_repeats steps :
  Forall (fun s : text => exists c, s = [c]) (symbols_of steps) ->
  chars_of (flat_map (fun sc : text * Z => str_repeat (fst sc) (snd sc)) steps)
  = symbols_of steps.
Proof.
  intros Hs.
  assert (flat_map (fun sc : text * Z => str_repeat (fst sc) (snd sc)) steps
          = concat (symbols_of steps)) as ->.
  { clear Hs. unfold symbols_of, str_repeat.
    induction steps as [|[s c] steps IH]; [done|].
    cbn [flat_map fst snd]. by rewrite concat_app, IH. }
  by apply chars_of_concat.
Qed.

Lemma mapM_str_mul (steps : list (text * Z)) parts :
  mapM (fun sc : text * Z => str_mul (fst sc) (snd sc)) steps = Ok parts ->
  concat parts = flat_map (fun sc : text * Z => str_repeat (fst sc) (snd sc)) steps.
Proof.
  revert parts. induction steps as [|[s c] steps IH]; intros parts; cbn [mapM flat_map].
  - by intros [= <-].
  - cbn [fst snd]. destruct (str_mul s c) as [r|] eqn:Er; bind_simpl; [|done].
    destruct (mapM _ steps) as [rs|]; bind_simpl; [|done].
    intros [= <-]. cbn [concat]. apply str_mul_ok in Er as ->. by rewrite (IH rs).
Qed.

Lemma mapM_list_mul (steps : list (text * Z)) parts :
  mapM (fun sc : text * Z => list_mul (fst sc) (snd sc)) steps = Ok parts ->
  @concat (list Z) parts = symbols_of steps.
Proof.
  unfold symbols_of.
  revert parts. induction steps as [|[s c] steps IH]; intros parts; cbn [mapM flat_map].
  - by intros [= <-].
  - cbn [fst snd]. destruct (list_mul s c) as [r|] eqn:Er; bind_simpl; [|done].
    destruct (mapM _ steps) as [rs|]; bind_simpl; [|done].
    intros [= <-]. cbn [concat]. rewrite (IH rs) by done. f_equal.
    unfold list_mul in Er. destruct (negb _); [done|]. by injection Er as <-.
Qed.

Lemma list_mul_error {A : Type} (x : A) s n e :
  list_mul x n = Err e -> e = OverflowError /\ str_mul s n = Err OverflowError.
Proof.
  unfold list_mul, str_mul. destruct (negb (is_index n)); [|done]. by intros [= <-].
Qed.

Lemma mapM_str_mul_error (steps : list (text * Z)) e :
  mapM (fun sc : text * Z => str_mul (fst sc) (snd sc)) steps = Err e ->
  e = OverflowError /\
  Exists (fun sc : text * Z => str_mul (fst sc) (snd sc) = Err OverflowError) steps.
Proof.
  induction steps as [|[s c] steps IH]; cbn [mapM]; [done|].
  cbn [fst snd]. destruct (str_mul s c) as [r|e'] eqn:Er; bind_simpl.
  - destruct (mapM _ steps) as [rs|e'']; bind_simpl; [done|].
    intros [= <-]. destruct IH as [-> IH]; [done|]. split; [done|by right].
  - intros [= <-]. apply str_mul_error in Er as Heq. subst e'. split; [done|by left].
Qed.

Lemma mapM_list_mul_error (steps : list (text * Z)) e :
  mapM (fun sc : text * Z => list_mul (fst sc) (snd sc)) steps = Err e ->
  e = OverflowError /\
  Exists (fun sc : text * Z => str_mul (fst sc) (snd sc) = Err OverflowError) steps.
Proof.
  induction steps as [|[s c] steps IH]; cbn [mapM]; [done|].
  cbn [fst snd]. destruct (list_mul s c) as [r|e'] eqn:Er; bind_simpl.
  - destruct (mapM _ steps) as [rs|e'']; bind_simpl; [done|].
    intros [= <-]. destruct IH as [-> IH]; [done|]. split; [done|by right].
  - intros [= <-]. apply (list_mul_error _ s) in Er as [-> Er]. split; [done|by left].
Qed.

(** The text a plan is applied to has the energy of the text and of the
    symbols of the plan, whatever the method. *)
Lemma apply_plan_energy txt plan spread out total t :
  apply_plan txt plan spread = Ok out ->
  total_energy U pr (chars_of txt) total ->
  total_energy U pr (symbols_of (steps plan)) t ->
  Forall (fun s : text => exists c, s = [c]) (symbols_of (steps plan)) ->
  total_energy U pr (chars_of out) (total + t).
Proof.
  intros Happ Htxt Hsym Hsing. unfold apply_plan in Happ.
  destruct (steps plan) as [|st sts] eqn:Hsteps.
  { injection Happ as <-. destruct Hsym as (es & Hes & <-).
    cbn in Hes. injection Hes as <-. cbn. by rewrite Z.add_0_r. }
  rewrite <- Hsteps in *. clear Hsteps st sts.
  destruct (String.eqb (p_method plan) "append").
  { destruct (mapM _ _) as [parts|] eqn:Ep; [|done]. apply mapM_str_mul in Ep.
    revert Happ. bind_simpl. intros [= <-].
    rewrite Ep, chars_of_app, chars_of_repeats by done.
    by apply total_energy_app. }
  destruct (String.eqb (p_method plan) "prepend").
  { destruct (mapM _ _) as [parts|] eqn:Ep; [|done]. apply mapM_str_mul in Ep.
    revert Happ. bind_simpl. intros [= <-].
    rewrite Ep, chars_of_app, chars_of_repeats by done.
    rewrite Z.add_comm. by apply total_energy_app. }
  destruct (String.eqb (p_method plan) "intersperse"); [|done].
  destruct (mapM _ _) as [parts|] eqn:Ep; [|done]. apply mapM_list_mul in Ep.
  revert Happ. bind_simpl. rewrite Ep. intros Happ.
  destruct (chars_of txt) as [|c0 cs] eqn:Hchars.
  { injection Happ as <-. rewrite chars_of_concat by done.
    destruct Htxt as (es & Hes & <-). cbn in Hes. injection Hes as <-. done. }
  rewrite <- Hchars in *.
  match type of Happ with context [if ?b then _ else _] => destruct b eqn:Hn end.
  { injection Happ as <-. apply Z.eqb_eq in Hn.
    destruct (symbols_of (steps plan)); [|cbn in Hn; lia].
    destruct Hsym as (es & Hes & <-). cbn in Hes. injection Hes as <-.
    cbn. by rewrite Z.add_0_r. }
  destruct (intersperse_loop _ _ _ _ _ _) as [outl i'] eqn:Hloop.
  injection Happ as <-.
  apply intersperse_loop_perm in Hloop. cbn [app drop] in Hloop.
  rewrite chars_of_concat.
  - eapply total_energy_perm; [symmetry; exact Hloop|]. by apply total_energy_app.
  - rewrite Hloop. apply Forall_app. split; [apply chars_of_singletons|done].
Qed.
End ReachesTarget.

Section AttunementCorrect.
Variable U : Unicode.

Lemma allowed_pairs_enumerate pr symbols allowed :
  allowed_pairs U (chars_of symbols) pr = Ok allowed ->
  Forall (fun ise : Z * (text * Z) =>
            char_energy U (fst (snd ise)) pr = Ok (snd (snd ise)) /\
            (exists c, fst (snd ise) = [c]) /\
            1 <= snd (snd ise)) (enumerate allowed).
Proof.
  intros Ha. pose proof (allowed_pairs_spec U _ _ _ Ha) as Hal.
  apply Forall_forall. intros [i [s e]] Hin. cbn [fst snd].
  assert ((s, e) ∈ allowed) as Hse.
  { unfold enumerate in Hin. clear -Hin. revert Hin. generalize 0.
    induction allowed as [|x l IH]; intros k; cbn; [by intros ?%not_elem_of_nil|].
    intros [[= _ <-]|Hin]%elem_of_cons; [by left|]. right. by eapply IH. }
  apply Hal in Hse as (Hs & He & Hne).
  split; [done|]. split.
  - unfold chars_of in Hs. apply list_elem_of_fmap in Hs as (c & -> & _). eauto.
  - apply char_energy_range in He. lia.
Qed.

(** The symbols of a plan of [optimize_attunement] are single characters
    with counts of at least 1; their energies add up to what the plan adds
    to the total, and the new total has the target as its digital root,
    unless zero is not normalised to nine, the text has total 0 and the
    target is 9. *)
Lemma attunement_plan_energy txt target pr allowed_symbols method max_steps plan total dr :
  optimize_attunement U txt target pr allowed_symbols method max_steps = Ok plan ->
  string_energy U txt pr = Ok (total, dr) ->
  normalize_zero_to_nine pr = true \/ 0 < total \/ target <> 9 ->
  total_energy U pr (symbols_of (steps plan)) (p_total_after plan - total) /\
  Forall (fun s : text => exists c, s = [c]) (symbols_of (steps plan)) /\
  Forall (fun sc : text * Z => 1 <= snd sc) (steps plan) /\
  digital_root (p_total_after plan) (normalize_zero_to_nine pr) = target /\
  p_dr_after plan = target.
Proof.
  intros Hopt He Hcase.
  pose proof (string_energy_total U _ _ _ _ He) as [Htot Hdr].
  destruct (optimize_attunement_inv U _ _ _ _ _ _ _ _ _ Hopt He)
    as (Ht & _ & [(-> & Hsteps & Hafter & Hdra)
                 |(Hne & allowed & seq & es & Ha & Hm & Hsteps & Hes & Hafter & Hdra)]).
  { (* attuned already *)
    rewrite Hsteps, Hafter, Z.sub_diag. split; [by exists []|].
    split; [constructor|]. split; [constructor|]. by rewrite <- Hdr. }
  pose proof (allowed_pairs_enumerate _ _ _ Ha) as Hen.
  apply minimal_residue_combo_shortest in Hm as [(picks & Hpicks & Hsum) _].
  set (counts := foldl (fun counts i => <[i := dict_get counts i 0 + 1]> counts)
                       (∅ : gmap Z Z) seq).
  assert (forall i v, counts !! i = Some v -> 1 <= v) as Hcpos.
  { apply counts_positive. intros i v. by rewrite lookup_empty. }
  destruct (steps_energy U pr counts (enumerate allowed)) as (es' & Hes' & Hsum' & Htot');
    [eapply Forall_impl; [exact Hen|]; by intros ? (? & _)|done|].
  pose proof Hsteps as Hsteps'. unfold build_steps_from_seq in Hsteps'.
  fold counts in Hsteps'. rewrite <- Hsteps' in Hes', Htot'.
  rewrite Hes in Hes'. injection Hes' as <-.
  (* the energies of the symbols of the sequence *)
  assert (exists ws, Forall2 (fun j w => (j, w) ∈ weights_of (enumerate allowed)) seq ws /\
                     Forall2 (fun w p => p = w mod 9) ws picks /\
                     Forall (fun w => 1 <= w) ws) as (ws & Hws & Hwp & Hw1).
  { clear -Hpicks Hen. induction Hpicks as [|j r seq picks [Hj Hr] _ IH].
    - exists []. repeat split; constructor.
    - destruct IH as (ws & Hws & Hwp & Hw1).
      rewrite list_lookup_fmap in Hr.
      destruct (allowed !! Z.to_nat j) as [[s e]|] eqn:El; [|done].
      cbn in Hr. injection Hr as <-.
      pose proof (enumerate_from_lookup allowed 0 _ _ El) as Hin.
      rewrite Z2Nat.id, Z.add_0_l in Hin by done.
      exists (e :: ws). split; [|split].
      + constructor; [|done]. unfold weights_of. apply list_elem_of_fmap.
        by exists (j, (s, e)).
      + by constructor.
      + constructor; [|done]. rewrite Forall_forall in Hen.
        by destruct (Hen _ Hin) as (_ & _ & ?). }
  assert (zsum es = zsum ws) as Hesws.
  { rewrite Hsum'. unfold counts. rewrite (wtally_counts _ _ ws); [by rewrite wtally_empty| |done].
    unfold weights_of. rewrite map_map. cbn.
    change (map (fun x : Z * (text * Z) => fst x) (enumerate allowed))
      with (map fst (enumerate allowed)).
    unfold enumerate. rewrite enumerate_from_keys. apply NoDup_seqZ. }
  assert ((total + zsum es) mod 9 = target mod 9) as Hmod.
  { apply target_residue_sum. rewrite Hesws, <- Hsum. symmetry. by apply zsum_mod. }
  assert (0 < total + zsum es) as Hpos.
  { rewrite Hesws. pose proof (zsum_lower _ Hw1) as Hlow.
    destruct seq as [|j seq].
    - exfalso. apply Forall2_nil_inv_l in Hws as ->.
      rewrite Hesws in Hmod. cbn [zsum foldr] in Hmod. rewrite Z.add_0_r in Hmod.
      destruct (decide (0 < total)) as [Hgt|Hle].
      + apply Hne. rewrite Hdr. by apply digital_root_hits.
      + assert (total = 0) as -> by lia.
        assert (target = 9) as ->.
        { destruct (decide (target = 9)); [done|].
          rewrite Z.mod_0_l, (Z.mod_small target) in Hmod by lia. lia. }
        destruct Hcase as [Hz|[?|?]]; [|lia|done].
        apply Hne. rewrite Hdr, Hz. done.
    - apply Forall2_length in Hws. cbn in Hws. lia. }
  assert (digital_root (total + zsum es) (normalize_zero_to_nine pr) = target) as Hroot
    by (by apply digital_root_hits).
  rewrite Hroot in Hdra. rewrite Hafter.
  replace (total + zsum es - total) with (zsum es) by lia.
  split; [done|]. split; [|split; [|by split]].
  - rewrite Hsteps. apply steps_singletons.
    eapply Forall_impl; [exact Hen|]. by intros ? (_ & ? & _).
  - rewrite Hsteps'. clear -Hcpos. induction (enumerate allowed) as [|[i [s e]] l IH];
      [constructor|].
    cbn [flat_map fst snd]. destruct (counts !! i) as [c|] eqn:Ec; [|done].
    constructor; [|done]. cbn. by eapply Hcpos.
Qed.

(** X13, where C1 holds: a plan of [optimize_attunement], applied by [apply_plan]
    under the method it was made for and any spread, gives a text whose
    digital root is the target, unless zero is not normalised to nine, the
    text has total 0 and the target is 9. *)
Theorem attunement_reaches_target (txt : text) (target : Z) (pr : Principle)
  (allowed_symbols : option text) (method : string) (max_steps : Z)
  (plan : Plan) (total dr : Z) (spread : option Z) (out : text) :
  optimize_attunement U txt target pr allowed_symbols method max_steps = Ok plan ->
  string_energy U txt pr = Ok (total, dr) ->
  normalize_zero_to_nine pr = true \/ 0 < total \/ target <> 9 ->
  apply_plan txt plan spread = Ok out ->
  string_energy U out pr = Ok (p_total_after plan, target) /\
  p_dr_after plan = target.
Proof.
  intros Hopt He Hcase Happ.
  destruct (attunement_plan_energy _ _ _ _ _ _ _ _ _ Hopt He Hcase)
    as (Hsym & Hsing & _ & Hroot & Hdra).
  split; [|done].
  assert (total_energy U pr (chars_of out) (total + (p_total_after plan - total))) as Hout.
  { eapply apply_plan_energy; [exact Happ| |exact Hsym|exact Hsing].
    by eapply total_energy_string_energy. }
  rewrite (string_energy_total_energy U pr _ _ Hout).
  replace (total + (p_total_after plan - total)) with (p_total_after plan) by lia.
  by rewrite Hroot.
Qed.
End AttunementCorrect.

(** ** A deletion before a substitution *)

(** The plans of [optimize_substitution] name positions of the text, while
    [apply_edit_plan] substitutes in the buffer the deletions have already
    shortened.  On "123" with the catalog 3 -> 5, deletions allowed and the
    target 7 the plan deletes position 0 and substitutes position 2; after
    the deletion the buffer "23" has no position 2, the substitution is
    passed over, and the output "23" has the digital root 5 ("25" has 7). *)
Example deletion_shifts_substitution :
  exists plan,
    optimize_substitution ascii_only (py "123") 7 ninefold_grid
      (Some three_five_catalog) true None 8 = Ok plan /\
    ops plan = [ Build_EditOp "del" 0 None 1; Build_EditOp "sub" 2 (Some (py "5")) 1 ] /\
    apply_edit_plan (py "123") plan = Ok (py "23") /\
    e_dr_after plan = 5 /\
    string_energy ascii_only (py "25") ninefold_grid = Ok (7, 7).
Proof. eexists. repeat split; vm_compute; reflexivity. Qed.

(** ** The planners end *)

Section PlannersEnd.
Variable U : Unicode.

(** [optimize_attunement] returns a plan or raises one of its own errors or
    an exception of a builtin: its loops are never cut off and its tables
    never miss a key. *)
Lemma optimize_attunement_error txt target pr allowed_symbols method max_steps e :
  optimize_attunement U txt target pr allowed_symbols method max_steps = Err e ->
  planner_error e \/ builtin_error e.
Proof.
  unfold optimize_attunement.
  destruct (string_energy U txt pr) as [[total dr]|e0] eqn:Ee; bind_simpl.
  2: { intros [= <-]. right. by eapply string_energy_error. }
  destruct (negb _); [intros [= <-]; left; by left|].
  destruct (dr =? target); [done|].
  destruct (allowed_pairs U _ pr) as [[|a al]|e0] eqn:Ea; bind_simpl.
  - intros [= <-]. left. right. by left.
  - destruct (minimal_residue_combo_total (_target_residue total target) (a :: al) max_steps)
      as [r ->]. bind_simpl.
    destruct r as [seq|]; [|intros [= <-]; left; right; right; by left].
    destruct (mapM _ _) as [es|e0] eqn:Es; bind_simpl; [done|].
    intros [= <-]. right. eapply mapM_error; [|exact Es].
    intros [s c] e'. cbn. destruct (char_energy U s pr) eqn:Ec; bind_simpl; [done|].
    intros [= <-]. by eapply char_energy_error.
  - intros [= <-]. right. by eapply allowed_pairs_error.
Qed.

Lemma see_error pr cur_e seen repl e :
  see U pr cur_e seen repl = Err e -> builtin_error e.
Proof.
  unfold see. destruct (char_energy U repl pr) eqn:Ec; bind_simpl; [done|].
  intros [= <-]. by eapply char_energy_error.
Qed.

Lemma see_all_error pr cur_e repls : forall seen e,
  see_all U pr cur_e seen repls = Err e -> builtin_error e.
Proof.
  induction repls as [|repl repls IH]; intros seen e; cbn; [done|].
  destruct (see U pr cur_e seen repl) eqn:Es; bind_simpl; [apply IH|].
  intros [= <-]. by eapply see_error.
Qed.

Lemma position_options_error pr subs allow_delete c e :
  position_options U pr subs allow_delete c = Err e -> builtin_error e.
Proof.
  unfold position_options.
  destruct (char_energy U c pr) as [cur_e|] eqn:Ec; bind_simpl;
    [|intros [= <-]; by eapply char_energy_error].
  destruct (match subs with Some d => _ | None => _ end) as [seen|] eqn:Es; bind_simpl.
  - destruct (if isalpha U c then _ else _) as [seen'|] eqn:Es'; bind_simpl; [done|].
    intros [= <-]. destruct (isalpha U c); [|done].
    destruct (bool_decide _); [done|]. by eapply see_error.
  - intros [= <-]. destruct subs as [d|]; [|done].
    destruct (d !! c); [|done]. by eapply see_all_error.
Qed.

(** *** The plans of the planners can be applied *)

Lemma walk_back_length fuel parent : forall at_ seq out,
  walk_back fuel parent at_ seq = Ok out -> (length out <= fuel + length seq)%nat.
Proof.
  induction fuel as [|fuel IH]; intros at_ seq out; cbn [walk_back].
  - destruct (at_ =? 0); [|done]. intros [= <-]. lia.
  - destruct (at_ =? 0); [intros [= <-]; lia|].
    destruct (parent !! at_) as [[prev i]|]; [|done].
    intros H. apply IH in H. rewrite length_app in H. cbn in H. lia.
Qed.

Lemma expand_length delta_res cur d rs : forall idx st seq,
  expand delta_res cur d rs idx st = Ok (inl seq) -> (length seq <= 9)%nat.
Proof.
  induction rs as [|r rs IH]; intros idx st seq; cbn -[walk_back]; [done|].
  destruct (parent st !! _); [apply IH|].
  destruct (_ =? delta_res); [|apply IH].
  destruct (walk_back _ _ _ _) as [l|] eqn:E; bind_simpl; [|done].
  intros [= <-]. apply walk_back_length in E. rewrite length_reverse. cbn in E. lia.
Qed.

Lemma bfs_length fuel delta_res rs max_steps : forall st seq,
  bfs fuel delta_res rs max_steps st = Ok (Some seq) -> (length seq <= 9)%nat.
Proof.
  induction fuel as [|fuel IH]; intros st seq; cbn [bfs].
  - by destruct (queue st).
  - destruct (queue st) as [|cur q']; [done|].
    destruct (depth st !! cur) as [d|]; [|done].
    destruct (d >=? max_steps); [apply IH|].
    destruct (expand _ _ _ _ _ _) as [[l|st']|] eqn:E; bind_simpl; [| |done].
    + intros [= <-]. by eapply expand_length.
    + apply IH.
Qed.

Lemma minimal_residue_combo_length delta_res allowed max_steps seq :
  minimal_residue_combo delta_res allowed max_steps = Ok (Some seq) ->
  (length seq <= 9)%nat.
Proof.
  unfold minimal_residue_combo.
  destruct (delta_res =? 0); [intros [= <-]; cbn; lia|].
  destruct (forallb _ _); [done|]. apply bfs_length.
Qed.

Lemma counts_at_most seq : forall (counts : gmap Z Z) b,
  0 <= b ->
  (forall i v, counts !! i = Some v -> v <= b) ->
  forall i v,
    foldl (fun counts i => <[i := dict_get counts i 0 + 1]> counts) counts seq !! i = Some v ->
    v <= b + Z.of_nat (length seq).
Proof.
  induction seq as [|j seq IH]; intros counts b Hb Hc i v; cbn [foldl length].
  - intros H. apply Hc in H. lia.
  - intros H. apply (IH _ (b + 1)) in H; [lia|lia|].
    intros i' v'. destruct (decide (j = i')) as [->|Hne].
    + rewrite lookup_insert_eq. intros [= <-]. unfold dict_get.
      destruct (counts !! i') as [w|] eqn:E; cbn; [|lia].
      apply Hc in E. lia.
    + rewrite lookup_insert_ne by done. intros H'. apply Hc in H'. lia.
Qed.

(** The steps of a plan of [optimize_attunement]: single characters, each
    at most nine times. *)
Lemma attunement_steps_small txt target pr allowed_symbols method max_steps plan :
  optimize_attunement U txt target pr allowed_symbols method max_steps = Ok plan ->
  Forall (fun sc : text * Z => (exists c, fst sc = [c]) /\ 1 <= snd sc <= 9) (steps plan).
Proof.
  intros Hopt.
  destruct (string_energy U txt pr) as [[total dr]|] eqn:He.
  2: { unfold optimize_attunement in Hopt. rewrite He in Hopt. done. }
  destruct (optimize_attunement_inv U _ _ _ _ _ _ _ _ _ Hopt He)
    as (_ & _ & [(_ & -> & _)|(_ & allowed & seq & es & Ha & Hm & -> & _)]);
    [constructor|].
  pose proof (allowed_pairs_enumerate U _ _ _ Ha) as Hen.
  apply minimal_residue_combo_length in Hm.
  unfold build_steps_from_seq. apply Forall_forall. intros [s c] Hin.
  apply list_elem_of_In, in_flat_map in Hin as ([i [s' e]] & Hi & Hsc).
  cbn [fst snd] in Hsc.
  destruct (_ !! i) as [v|] eqn:Ev; [|done].
  destruct Hsc as [[= <- <-]|[]]. cbn [fst snd]. split.
  - rewrite Forall_forall in Hen. apply list_elem_of_In in Hi.
    by destruct (Hen _ Hi) as (_ & ? & _).
  - split.
    + eapply (counts_positive seq ∅); [|exact Ev]. intros ? ?. by rewrite lookup_empty.
    + apply (counts_at_most seq ∅ 0) in Ev; [lia|lia|].
      intros ? ?. by rewrite lookup_empty.
Qed.

Lemma buildable_all (l : list EditOp) :
  Forall (fun op => can_build op = true) l -> buildable l = true.
Proof.
  intros Hl. unfold buildable. apply forallb_forall. intros op Hin.
  apply list_elem_of_In, list_elem_of_filter in Hin as [_ Hin].
  rewrite Forall_forall in Hl. by apply Hl.
Qed.

Lemma buildable_no_ins (l : list EditOp) :
  Forall (fun op => has_kind "ins" op = false) l -> buildable l = true.
Proof.
  intros Hl. unfold buildable.
  assert (filter (fun op => has_kind "ins" op = true) l = []) as ->; [|done].
  induction Hl as [|op l Hop _ IH]; [done|]. by rewrite filter_kind_cons, Hop.
Qed.

Lemma reconstruct_no_ins fuel best : forall cur acc l,
  reconstruct fuel best cur acc = Ok l ->
  Forall (fun op => has_kind "ins" op = false) acc ->
  Forall (fun op => has_kind "ins" op = false) l.
Proof.
  induction fuel as [|fuel IH]; intros cur acc l; cbn [reconstruct].
  - destruct (cur =? 0); [|done]. by intros [= <-].
  - destruct (cur =? 0); [by intros [= <-]|].
    destruct (od_get best cur) as [[[cnt prev] [[p r] repl]]|]; [|done].
    intros H Hacc. eapply IH; [exact H|].
    destruct (p >=? 0); [|done].
    destruct repl; apply Forall_app; (split; [done|by repeat constructor]).
Qed.

(** A plan without insertions is applied without an exception. *)
Lemma planner_edits_apply txt (l : list EditOp) m t tb db ta da :
  Forall (fun op => has_kind "ins" op = false) l ->
  exists out, apply_edit_plan txt (Build_EditPlan m t l tb db ta da) = Ok out.
Proof.
  intros Hl. rewrite apply_edit_plan_run. cbn [ops].
  rewrite buildable_no_ins by done. eauto.
Qed.

(** So are the insertions made of the steps of a plan of
    [optimize_attunement]. *)
Lemma fallback_edits_apply txt' target pr allowed_symbols method max_steps plan
  txt n m t tb db ta da :
  optimize_attunement U txt' target pr allowed_symbols method max_steps = Ok plan ->
  exists out,
    apply_edit_plan txt
      (Build_EditPlan m t
         (map (fun sc : text * Z => Build_EditOp "ins" n (Some (fst sc)) (snd sc))
              (steps plan)) tb db ta da) = Ok out.
Proof.
  intros Hopt. rewrite apply_edit_plan_run. cbn [ops].
  rewrite buildable_all; [eauto|].
  apply Forall_fmap. eapply Forall_impl; [by eapply attunement_steps_small|].
  intros [s c] [[x Hx] Hc]. cbn [fst snd] in *. subst s.
  unfold compose, can_build, insert_str_of. cbn [ch count fst snd].
  change (default [] (Some [x])) with [x].
  rewrite str_mul_char; [done|]. unfold index_max. lia.
Qed.

(** So does [optimize_substitution]. *)
Lemma optimize_substitution_error txt target pr subs allow_delete allowed_inserts
  max_edits e :
  optimize_substitution U txt target pr subs allow_delete allowed_inserts max_edits
    = Err e ->
  planner_error e \/ builtin_error e.
Proof.
  unfold optimize_substitution.
  destruct (string_energy U txt pr) as [[total dr]|e0] eqn:Ee; bind_simpl.
  2: { intros [= <-]. right. by eapply string_energy_error. }
  destruct (negb _); [intros [= <-]; left; by left|].
  destruct (dr =? target); [done|].
  destruct (mapM _ (chars_of txt)) as [pds|e0] eqn:Ep; bind_simpl.
  2: { intros [= <-]. right. eapply mapM_error; [|exact Ep].
       intros c e'. apply position_options_error. }
  destruct (od_get _ _) as [en|] eqn:Eg.
  - destruct (reconstruct_total _ _ _ _ Eg) as [l Hl]. rewrite Hl. bind_simpl.
    destruct (planner_edits_apply txt (reverse l) "edit" target total dr total dr)
      as [out Hout].
    { apply Forall_reverse. eapply reconstruct_no_ins; [exact Hl|constructor]. }
    rewrite Hout. bind_simpl.
    destruct (string_energy U out pr) as [[nt nd]|e0] eqn:Eo; bind_simpl; [done|].
    intros [= <-]. right. by eapply string_energy_error.
  - destruct allowed_inserts as [[|c s]|].
    + intros [= <-]. left. do 3 right. done.
    + destruct (optimize_attunement U txt target pr _ "append" 64)
        as [plan|e0] eqn:Ea; bind_simpl.
      * destruct (fallback_edits_apply _ _ _ _ _ _ _ txt (Z.of_nat (length txt))
                    "edit" target total dr total dr Ea) as [out Hout].
        rewrite Hout. bind_simpl.
        destruct (string_energy U out pr) as [[nt nd]|e0] eqn:Eo; bind_simpl; [done|].
        intros [= <-]. right. by eapply string_energy_error.
      * intros [= <-]. by eapply optimize_attunement_error.
    + intros [= <-]. left. do 3 right. done.
Qed.
End PlannersEnd.

(** * The rest of the code *)

(** ** gdk9/energy.py: the energy of a character *)

Section CharEnergy.
Variable U : Unicode.

(** X1: the energy of a string, when [char_energy] returns one, lies in
    0..9; it is 0 for white space; when zero is normalised to nine it is 0
    for white space only. *)
Theorem char_energy_bounds (s : text) (pr : Principle) (e : Z) :
  char_energy U s pr = Ok e ->
  0 <= e <= 9 /\
  (isspace U s = true -> e = 0) /\
  (normalize_zero_to_nine pr = true -> (e = 0 <-> isspace U s = true)).
Proof.
  intros He. split; [by eapply char_energy_range|]. split.
  - intros Hs. unfold char_energy in He. rewrite Hs in He. by injection He.
  - intros Hz. split.
    + intros ->. destruct (isspace U s) eqn:Hs; [done|].
      pose proof (char_energy_nonzero U s pr 0 Hz Hs He). lia.
    + intros Hs. unfold char_energy in He. rewrite Hs in He. by injection He.
Qed.

Lemma ascii_letter_cases c :
  chr_isupper c || chr_islower c = true -> c ∈ seqZ 65 26 \/ c ∈ seqZ 97 26.
Proof.
  unfold chr_isupper, chr_islower. rewrite !elem_of_seqZ. lia.
Qed.

(** X2: for an ASCII letter [letter_value] is the place of the letter in the
    alphabet, 1..26, the same for both cases; so under the letter mode
    a1z26 a letter and its other case have the same energy. *)
Theorem letter_value_ascii (c : Z) (pr : Principle) :
  chr_isupper c || chr_islower c = true ->
  letter_value U [c] = Ok (if chr_islower c then c - 96 else c - 64) /\
  letter_value U (swapcase U [c]) = letter_value U [c] /\
  (letter_mode pr = "a1z26"%string ->
   char_energy U (swapcase U [c]) pr = char_energy U [c] pr /\
   char_energy U [c] pr
   = Ok (weighted pr (if chr_islower c then c - 96 else c - 64) "letter")).
Proof.
  intros Hc.
  assert (Forall (fun c =>
            letter_value U [c] = Ok (if chr_islower c then c - 96 else c - 64) /\
            letter_value U (swapcase U [c]) = letter_value U [c] /\
            isspace U [c] = false /\ isalpha U [c] = true /\
            isspace U (swapcase U [c]) = false /\ isalpha U (swapcase U [c]) = true)
          (seqZ 65 26 ++ seqZ 97 26)) as Hall.
  { vm_compute. repeat constructor. }
  rewrite Forall_forall in Hall.
  destruct (Hall c) as (H1 & H2 & H3 & H4 & H5 & H6).
  { apply elem_of_app. by apply ascii_letter_cases. }
  split; [done|]. split; [done|].
  intros Hm. unfold char_energy. rewrite H3, H4, H5, H6, Hm. cbn [String.eqb].
  rewrite H2, H1. done.
Qed.
End CharEnergy.

Lemma char_energy_bounds_witness :
  0 <= 1 <= 9 /\
  (isspace ascii_only (py "A") = true -> 1 = 0) /\
  (normalize_zero_to_nine ninefold_grid = true ->
   (1 = 0 <-> isspace ascii_only (py "A") = true)).
Proof.
  apply (char_energy_bounds ascii_only (py "A") ninefold_grid 1).
  vm_compute. reflexivity.
Defined.

Lemma letter_value_ascii_witness :
  letter_value ascii_only [113] = Ok (if chr_islower 113 then 113 - 96 else 113 - 64) /\
  letter_value ascii_only (swapcase ascii_only [113]) = letter_value ascii_only [113] /\
  (letter_mode ninefold_grid = "a1z26"%string ->
   char_energy ascii_only (swapcase ascii_only [113]) ninefold_grid
   = char_energy ascii_only [113] ninefold_grid /\
   char_energy ascii_only [113] ninefold_grid
   = Ok (weighted ninefold_grid (if chr_islower 113 then 113 - 96 else 113 - 64) "letter")).
Proof.
  apply (letter_value_ascii ascii_only 113 ninefold_grid).
  vm_compute. reflexivity.
Defined.

(** ** gdk9/energy.py: the energy of a text *)

Lemma digital_root_zero n z : 0 <= n -> (digital_root n z = 0 <-> n = 0 /\ z = false).
Proof.
  intros Hn. unfold digital_root. rewrite Z.abs_eq by done.
  pose proof (Z.mod_pos_bound n 9 ltac:(lia)).
  destruct (Z.eqb_spec n 0) as [->|Hne].
  - destruct z; split; try done; try lia; by intros [_ ?].
  - destruct (Z.eqb_spec (n mod 9) 0); split; lia.
Qed.

(** Two numbers that are congruent modulo 9 have the same digital root when
    zero is normalised to nine, or when they are zero together. *)
Lemma digital_root_congruent a b z :
  0 <= a -> 0 <= b -> a mod 9 = b mod 9 -> z = true \/ (a = 0 <-> b = 0) ->
  digital_root a z = digital_root b z.
Proof.
  intros Ha Hb Hmod H0. unfold digital_root. rewrite !Z.abs_eq by done.
  destruct (Z.eqb_spec a 0) as [->|Hna], (Z.eqb_spec b 0) as [->|Hnb].
  - done.
  - destruct H0 as [->|[H0 _]]; [|by specialize (H0 eq_refl)].
    rewrite <- Hmod. done.
  - destruct H0 as [->|[_ H0]]; [|by specialize (H0 eq_refl)].
    rewrite Hmod. done.
  - by rewrite Hmod.
Qed.

Section TextEnergyLaws.
Variable U : Unicode.
Variable pr : Principle.

(** X3: the total of a concatenation is the sum of the totals, and its
    digital root is the digital root of the sum of the two digital roots. *)
Theorem string_energy_concat (s1 s2 : text) (t1 d1 t2 d2 : Z) :
  string_energy U s1 pr = Ok (t1, d1) ->
  string_energy U s2 pr = Ok (t2, d2) ->
  string_energy U (s1 ++ s2) pr
    = Ok (t1 + t2, digital_root (d1 + d2) (normalize_zero_to_nine pr)).
Proof.
  intros H1 H2.
  pose proof (string_energy_total U _ _ _ _ H1) as [Ht1 Hd1].
  pose proof (string_energy_total U _ _ _ _ H2) as [Ht2 Hd2].
  apply total_energy_string_energy in H1, H2.
  pose proof (total_energy_app U pr _ _ _ _ H1 H2) as H12.
  rewrite <- chars_of_app in H12.
  rewrite (string_energy_total_energy U pr _ _ H12). do 2 f_equal.
  set (z := normalize_zero_to_nine pr) in *.
  pose proof (digital_root_range t1 z). pose proof (digital_root_range t2 z).
  apply digital_root_congruent; [lia|lia| |].
  - rewrite Hd1, Hd2, (Zplus_mod (digital_root _ _)), !digital_root_nonneg_mod,
      <- Zplus_mod by done. done.
  - pose proof (digital_root_zero t1 z Ht1). pose proof (digital_root_zero t2 z Ht2).
    subst d1 d2. destruct z; [by left|right]. lia.
Qed.

(** X4: the energy of a text does not depend on the order of its
    characters. *)
Theorem string_energy_permutation (s1 s2 : text) (t d : Z) :
  s1 ≡ₚ s2 ->
  string_energy U s1 pr = Ok (t, d) ->
  string_energy U s2 pr = Ok (t, d).
Proof.
  intros Hp H1.
  pose proof (string_energy_total U _ _ _ _ H1) as [_ ->].
  apply total_energy_string_energy in H1.
  apply string_energy_total_energy.
  eapply total_energy_perm; [|exact H1].
  unfold chars_of. by apply fmap_Permutation.
Qed.
End TextEnergyLaws.

Lemma string_energy_concat_witness :
  string_energy ascii_only (py "AB" ++ py "C!") ninefold_grid
    = Ok (3 + 6, digital_root (3 + 6) (normalize_zero_to_nine ninefold_grid)).
Proof.
  apply (string_energy_concat ascii_only ninefold_grid (py "AB") (py "C!") 3 3 6 6);
    vm_compute; reflexivity.
Defined.

Lemma string_energy_permutation_witness :
  string_energy ascii_only (py "CAB") ninefold_grid = Ok (6, 6).
Proof.
  apply (string_energy_permutation ascii_only ninefold_grid (py "ABC") (py "CAB") 6 6).
  - symmetry. exact (Permutation_cons_append [65; 66] 67).
  - vm_compute. reflexivity.
Defined.

(** ** gdk9/energy.py: required_delta *)

(** The loop returns the first number from [d] on that hits the target,
    when one of the [n] numbers it tries does. *)
Lemma first_delta_spec current target z n : forall d d0,
  d <= d0 < d + Z.of_nat n ->
  digital_root (current + d0) z = target ->
  let r := first_delta current target z d n in
  d <= r <= d0 /\ digital_root (current + r) z = target /\
  forall d', d <= d' < r -> digital_root (current + d') z <> target.
Proof.
  induction n as [|n IH]; intros d d0 Hd0 Hhit; [lia|].
  cbn [first_delta]. destruct (Z.eqb_spec (digital_root (current + d) z) target) as [E|E].
  - cbn. split; [lia|]. split; [done|]. intros; lia.
  - assert (d <> d0) by (intros ->; done).
    destruct (IH (d + 1) d0 ltac:(lia) Hhit) as (Hr & Hhr & Hmin).
    cbn. split; [lia|]. split; [done|].
    intros d' Hd'. destruct (decide (d' = d)) as [->|]; [done|]. apply Hmin. lia.
Qed.

(** Within nine steps from a total every target comes up once. *)
Lemma nine_steps_hit current target z :
  0 <= current -> 1 <= target <= 9 ->
  exists d0, 1 <= d0 <= 9 /\ digital_root (current + d0) z = target.
Proof.
  intros Hc Ht.
  set (m := (target - current) mod 9).
  pose proof (Z.mod_pos_bound (target - current) 9 ltac:(lia)) as Hm. fold m in Hm.
  set (d0 := if m =? 0 then 9 else m).
  assert (1 <= d0 <= 9) as Hd0 by (unfold d0; destruct (Z.eqb_spec m 0); lia).
  exists d0. split; [done|].
  apply digital_root_hits; [lia|done|].
  assert (d0 mod 9 = m) as Hd0m.
  { unfold d0. destruct (Z.eqb_spec m 0) as [->|]; [done|]. apply Z.mod_small. lia. }
  rewrite <- Zplus_mod_idemp_r, Hd0m. unfold m. rewrite Zplus_mod_idemp_r.
  f_equal. lia.
Qed.

Lemma required_delta_range current target z :
  0 <= current -> 1 <= target <= 9 -> current <> target ->
  1 <= required_delta current target z <= 9.
Proof.
  intros Hc Ht Hne. unfold required_delta.
  destruct (Z.eqb_spec current target); [done|].
  destruct (nine_steps_hit current target z Hc Ht) as (d0 & Hd0 & Hhit).
  destruct (first_delta_spec current target z 100 1 d0 ltac:(lia) Hhit) as (Hr & _).
  lia.
Qed.

(** X5: for a total [current >= 0] and a target in 1..9 other than
    [current], [required_delta] is the least [d >= 1] for which
    [current + d] has the target as its digital root, and [d <= 9]. *)
Theorem required_delta_least (current target : Z) (z : bool) :
  0 <= current -> 1 <= target <= 9 -> current <> target ->
  let d := required_delta current target z in
  1 <= d <= 9 /\
  digital_root (current + d) z = target /\
  forall d', 1 <= d' < d -> digital_root (current + d') z <> target.
Proof.
  intros Hc Ht Hne. unfold required_delta.
  destruct (Z.eqb_spec current target); [done|].
  destruct (nine_steps_hit current target z Hc Ht) as (d0 & Hd0 & Hhit).
  destruct (first_delta_spec current target z 100 1 d0 ltac:(lia) Hhit) as (Hr & Hhr & Hmin).
  cbn zeta. split; [lia|]. split; [done|]. exact Hmin.
Qed.

Lemma required_delta_least_witness :
  1 <= required_delta 6 1 true <= 9 /\
  digital_root (6 + required_delta 6 1 true) true = 1 /\
  forall d', 1 <= d' < required_delta 6 1 true -> digital_root (6 + d') true <> 1.
Proof. apply (required_delta_least 6 1 true); lia. Defined.

(** ** gdk9/energy.py: attune_text *)

Lemma steps_to_coprime :
  forallb (fun a =>
    forallb (fun e =>
      (e mod 3 =? 0) || forallb (fun t => steps_to a e t) (seqZ 0 9))
      (seqZ 1 9))
    (seqZ 0 9) = true.
Proof. vm_compute. reflexivity. Qed.

(** An energy that is no multiple of 3 reaches every residue in at most
    eight steps. *)
Lemma residue_reached a e t :
  1 <= e <= 9 -> e mod 3 <> 0 ->
  exists j, 0 <= j <= 8 /\ (a + j * e) mod 9 = t mod 9.
Proof.
  intros He H3.
  assert (a mod 9 ∈ seqZ 0 9) as Ha
    by (apply elem_of_seqZ; pose proof (Z.mod_pos_bound a 9); lia).
  assert (t mod 9 ∈ seqZ 0 9) as Ht
    by (apply elem_of_seqZ; pose proof (Z.mod_pos_bound t 9); lia).
  assert (e ∈ seqZ 1 9) as Hin by (apply elem_of_seqZ; lia).
  pose proof steps_to_coprime as Hall.
  rewrite forallb_forall in Hall.
  specialize (Hall _ (proj1 (list_elem_of_In _ _) Ha)).
  rewrite forallb_forall in Hall.
  specialize (Hall _ (proj1 (list_elem_of_In _ _) Hin)).
  apply orb_true_iff in Hall as [Hall|Hall]; [apply Z.eqb_eq in Hall; lia|].
  rewrite forallb_forall in Hall.
  specialize (Hall _ (proj1 (list_elem_of_In _ _) Ht)).
  unfold steps_to in Hall. rewrite existsb_exists in Hall.
  destruct Hall as (j & Hj & Hjt).
  apply list_elem_of_In, elem_of_seqZ in Hj. apply Z.eqb_eq in Hjt.
  exists j. split; [lia|]. by rewrite <- Zplus_mod_idemp_l.
Qed.

Lemma digital_root_mod3 n z : digital_root n z mod 3 = Z.abs n mod 3.
Proof.
  rewrite <- (Z.mod_mod_divide (digital_root n z) 9 3), digital_root_mod,
    Z.mod_mod_divide; try done; by exists 3.
Qed.

Lemma str_repeat_char c n : str_repeat [c] n = replicate (Z.to_nat n) c.
Proof.
  unfold str_repeat. induction (Z.to_nat n) as [|k IH]; [done|]. cbn. by rewrite IH.
Qed.

Section AttuneText.
Variable U : Unicode.
Variable pr : Principle.

(** The energy of a text with [k] copies of a symbol appended. *)
Lemma string_energy_appended txt c total dr e k :
  string_energy U txt pr = Ok (total, dr) ->
  char_energy U [c] pr = Ok e ->
  string_energy U (txt ++ replicate k c) pr
    = Ok (total + Z.of_nat k * e,
          digital_root (total + Z.of_nat k * e) (normalize_zero_to_nine pr)).
Proof.
  intros Ht He. apply string_energy_total_energy.
  rewrite chars_of_app. apply total_energy_app.
  - by eapply total_energy_string_energy.
  - unfold chars_of. rewrite fmap_replicate. by apply total_energy_replicate.
Qed.

(** The adjusting loop stops at the first count that hits the target. *)
Lemma adjust_hit txt c total dr e target left : forall k j,
  string_energy U txt pr = Ok (total, dr) ->
  char_energy U [c] pr = Ok e ->
  (j <= left)%nat ->
  digital_root (total + Z.of_nat (k + j) * e) (normalize_zero_to_nine pr) = target ->
  exists j', (j' <= j)%nat /\
    digital_root (total + Z.of_nat (k + j') * e) (normalize_zero_to_nine pr) = target /\
    adjust U left [c] pr target (txt ++ replicate k c) (total + Z.of_nat k * e)
      (digital_root (total + Z.of_nat k * e) (normalize_zero_to_nine pr))
    = Ok (txt ++ replicate (k + j') c, total + Z.of_nat (k + j') * e, target).
Proof.
  induction left as [|left IH]; intros k j Ht He Hj Hhit.
  - assert (j = 0)%nat as -> by lia. rewrite Nat.add_0_r in Hhit.
    exists 0%nat. rewrite Nat.add_0_r. split; [done|]. split; [done|].
    cbn. by rewrite Hhit, Z.eqb_refl.
  - cbn [adjust].
    destruct (Z.eqb_spec (digital_root (total + Z.of_nat k * e) (normalize_zero_to_nine pr))
                target) as [E|E].
    + exists 0%nat. rewrite Nat.add_0_r. split; [lia|]. split; [done|]. by rewrite E.
    + destruct j as [|j]; [by rewrite Nat.add_0_r in Hhit|].
      rewrite <- app_assoc.
      replace (replicate k c ++ [c]) with (replicate (S k) c)
        by (by rewrite replicate_S_end).
      rewrite (string_energy_appended _ _ _ _ _ (S k) Ht He). bind_simpl.
      destruct (IH (S k) j Ht He ltac:(lia)) as (j' & Hj' & Hroot & Hadj).
      { by replace (S k + j)%nat with (k + S j)%nat by lia. }
      exists (S j'). split; [lia|].
      replace (k + S j')%nat with (S k + j')%nat by lia. by split.
Qed.

(** The adjusting loop runs to its end when no count hits the target. *)
Lemma adjust_miss txt c total dr e target left : forall k,
  string_energy U txt pr = Ok (total, dr) ->
  char_energy U [c] pr = Ok e ->
  (forall n, digital_root (total + Z.of_nat n * e) (normalize_zero_to_nine pr) <> target) ->
  adjust U left [c] pr target (txt ++ replicate k c) (total + Z.of_nat k * e)
    (digital_root (total + Z.of_nat k * e) (normalize_zero_to_nine pr))
  = Ok (txt ++ replicate (k + left) c, total + Z.of_nat (k + left) * e,
        digital_root (total + Z.of_nat (k + left) * e) (normalize_zero_to_nine pr)).
Proof.
  induction left as [|left IH]; intros k Ht He Hmiss.
  - cbn. rewrite Nat.add_0_r. by destruct (_ =? _).
  - cbn [adjust].
    destruct (Z.eqb_spec (digital_root (total + Z.of_nat k * e) (normalize_zero_to_nine pr))
                target) as [E|E]; [by apply Hmiss in E|].
    rewrite <- app_assoc.
    replace (replicate k c ++ [c]) with (replicate (S k) c)
      by (by rewrite replicate_S_end).
    rewrite (string_energy_appended _ _ _ _ _ (S k) Ht He). bind_simpl.
    rewrite (IH (S k) Ht He Hmiss).
    by replace (S k + left)%nat with (k + S left)%nat by lia.
Qed.

(** What [attune_text] does up to its adjusting loop. *)
Lemma attune_text_unfold txt target c total dr e :
  string_energy U txt pr = Ok (total, dr) ->
  char_energy U [c] pr = Ok e ->
  1 <= target <= 9 -> dr <> target -> e <> 0 ->
  let delta := required_delta total target (normalize_zero_to_nine pr) in
  let count := Z.max 1 ((delta + e - 1) / e) in
  1 <= delta <= 9 /\ 1 <= count <= 9 /\
  attune_text U txt target pr "append" [c]
  = ('(new_text, new_total, new_dr) ←
       lift (adjust U 20 [c] pr target (txt ++ replicate (Z.to_nat count) c)
               (total + Z.of_nat (Z.to_nat count) * e)
               (digital_root (total + Z.of_nat (Z.to_nat count) * e)
                  (normalize_zero_to_nine pr)));
     Done (new_text, new_total, new_dr, count)).
Proof.
  intros Ht He Htg Hdr He0 delta count.
  pose proof (string_energy_total U _ _ _ _ Ht) as [Htot Hd].
  pose proof (char_energy_range U _ _ _ He) as Her.
  assert (total <> target) as Hne.
  { intros ->. apply Hdr. rewrite Hd. apply digital_root_hits; [lia|done|done]. }
  pose proof (required_delta_range total target (normalize_zero_to_nine pr) Htot Htg Hne)
    as Hdelta. fold delta in Hdelta.
  assert (1 <= count <= 9) as Hcount.
  { unfold count. assert (0 <= (delta + e - 1) / e <= 9); [|lia]. split.
    - apply Z.div_pos; lia.
    - apply Z.div_le_upper_bound; nia. }
  split; [done|]. split; [done|].
  unfold attune_text. rewrite Ht. cbn [lift]. outcome_simpl.
  assert ((1 <=? target) && (target <=? 9) = true) as -> by lia. cbn [negb].
  destruct (Z.eqb_spec dr target); [done|]. cbn [String.eqb negb].
  rewrite He. cbn [lift]. outcome_simpl.
  destruct (Z.eqb_spec e 0); [done|].
  fold delta. fold count. rewrite str_repeat_char.
  rewrite (string_energy_appended _ _ _ _ _ (Z.to_nat count) Ht He).
  cbn [lift]. outcome_simpl. done.
Qed.

(** X6: with a symbol whose energy is no multiple of 3, [attune_text]
    reaches the target: it returns the text with [k <= 17] copies of the
    symbol appended, the total of this text and the target as its digital
    root; the count it returns is that of the first guess, at most [k]. *)
Theorem attune_text_reaches_target (txt : text) (target : Z) (c : Z) (total dr e : Z) :
  string_energy U txt pr = Ok (total, dr) ->
  char_energy U [c] pr = Ok e ->
  1 <= target <= 9 ->
  e mod 3 <> 0 ->
  exists (k : nat) (count : Z),
    attune_text U txt target pr "append" [c]
      = Done (txt ++ replicate k c, total + Z.of_nat k * e, target, count) /\
    0 <= count <= Z.of_nat k /\ (k <= 17)%nat /\
    string_energy U (txt ++ replicate k c) pr = Ok (total + Z.of_nat k * e, target).
Proof.
  intros Ht He Htg H3.
  pose proof (string_energy_total U _ _ _ _ Ht) as [Htot Hd].
  pose proof (char_energy_range U _ _ _ He) as Her.
  assert (e <> 0) as He0 by (intros ->; by apply H3).
  destruct (decide (dr = target)) as [->|Hdr].
  { exists 0%nat, 0. rewrite app_nil_r, Z.add_0_r.
    split; [|split; [done|split; [lia|done]]].
    unfold attune_text. rewrite Ht. cbn [lift]. outcome_simpl.
    assert ((1 <=? target) && (target <=? 9) = true) as -> by lia. cbn [negb].
    by rewrite Z.eqb_refl. }
  destruct (attune_text_unfold txt target c total dr e Ht He Htg Hdr He0)
    as (Hdelta & Hcount & ->).
  set (count := Z.max 1 _) in *. set (k := Z.to_nat count).
  destruct (residue_reached (total + Z.of_nat k * e) e target ltac:(lia) H3)
    as (j & Hj & Hmod).
  assert (digital_root (total + Z.of_nat (k + Z.to_nat j) * e) (normalize_zero_to_nine pr)
          = target) as Hhit.
  { apply digital_root_hits; [nia|done|]. rewrite <- Hmod. f_equal. lia. }
  destruct (adjust_hit txt c total dr e target 20 k (Z.to_nat j) Ht He ltac:(lia) Hhit)
    as (j' & Hj' & Hroot & ->).
  cbn [lift]. outcome_simpl.
  exists (k + j')%nat, count. split; [done|]. split; [lia|]. split; [lia|].
  rewrite (string_energy_appended _ _ _ _ _ (k + j') Ht He). by rewrite Hroot.
Qed.

(** X7: with a symbol whose energy is a multiple of 3 and a target that
    differs from the total by no multiple of 3, [attune] cannot reach the
    target and raises nothing: it returns the text with the copies of its
    first guess and twenty more, and a digital root other than the
    target. *)
Theorem attune_gives_up (txt : text) (target : Z) (c : Z) (total dr e : Z) :
  string_energy U txt pr = Ok (total, dr) ->
  char_energy U [c] pr = Ok e ->
  1 <= target <= 9 ->
  e <> 0 -> e mod 3 = 0 -> (target - total) mod 3 <> 0 ->
  exists (count new_dr : Z),
    attune U txt target pr [c]
      = Done (txt ++ replicate (Z.to_nat count + 20) c,
              total + (count + 20) * e, new_dr, count) /\
    1 <= count <= 3 /\ new_dr <> target /\
    string_energy U (txt ++ replicate (Z.to_nat count + 20) c) pr
      = Ok (total + (count + 20) * e, new_dr).
Proof.
  intros Ht He Htg He0 H3 Hoff.
  pose proof (string_energy_total U _ _ _ _ Ht) as [Htot Hd].
  pose proof (char_energy_range U _ _ _ He) as Her.
  assert (forall n, digital_root (total + Z.of_nat n * e) (normalize_zero_to_nine pr)
                    <> target) as Hmiss.
  { intros n Hhit. apply Hoff.
    assert (digital_root (total + Z.of_nat n * e) (normalize_zero_to_nine pr) mod 3
            = target mod 3) as Hm by (by rewrite Hhit).
    rewrite digital_root_mod3, Z.abs_eq in Hm by nia.
    rewrite Zminus_mod, <- Hm, <- Zminus_mod.
    replace (total + Z.of_nat n * e - total) with (Z.of_nat n * e) by lia.
    rewrite <- Zmult_mod_idemp_r, H3, Z.mul_0_r. done. }
  assert (dr <> target) as Hdr.
  { intros ->. apply (Hmiss 0%nat). by rewrite Z.mul_0_l, Z.add_0_r. }
  unfold attune.
  destruct (attune_text_unfold txt target c total dr e Ht He Htg Hdr He0)
    as (Hdelta & Hcount & ->).
  set (count := Z.max 1 _) in *.
  rewrite (adjust_miss txt c total dr e target 20 (Z.to_nat count) Ht He Hmiss).
  cbn [lift]. outcome_simpl.
  assert (Z.of_nat (Z.to_nat count + 20) = count + 20) as Hk by lia.
  exists count, (digital_root (total + (count + 20) * e) (normalize_zero_to_nine pr)).
  rewrite Hk. split; [done|]. split; [|split].
  - assert (3 <= e) by (destruct (decide (e = 1)) as [->|]; [done|];
                        destruct (decide (e = 2)) as [->|]; [done|]; lia).
    assert ((required_delta total target (normalize_zero_to_nine pr) + e - 1) / e < 4);
      [|lia].
    apply Z.div_lt_upper_bound; lia.
  - rewrite <- Hk. apply Hmiss.
  - rewrite (string_energy_appended _ _ _ _ _ (Z.to_nat count + 20) Ht He).
    by rewrite Hk.
Qed.
End AttuneText.

Lemma attune_text_reaches_target_witness :
  exists (k : nat) (count : Z),
    attune_text ascii_only (py "ABC") 1 ninefold_grid "append" [46]
      = Done (py "ABC" ++ replicate k 46, 6 + Z.of_nat k * 1, 1, count) /\
    0 <= count <= Z.of_nat k /\ (k <= 17)%nat /\
    string_energy ascii_only (py "ABC" ++ replicate k 46) ninefold_grid
      = Ok (6 + Z.of_nat k * 1, 1).
Proof.
  apply (attune_text_reaches_target ascii_only ninefold_grid (py "ABC") 1 46 6 6 1);
    [vm_compute; reflexivity | vm_compute; reflexivity | lia | done].
Defined.

Lemma attune_gives_up_witness :
  exists (count new_dr : Z),
    attune ascii_only (py "AB") 1 ninefold_grid [67]
      = Done (py "AB" ++ replicate (Z.to_nat count + 20) 67,
              3 + (count + 20) * 3, new_dr, count) /\
    1 <= count <= 3 /\ new_dr <> 1 /\
    string_energy ascii_only (py "AB" ++ replicate (Z.to_nat count + 20) 67) ninefold_grid
      = Ok (3 + (count + 20) * 3, new_dr).
Proof.
  apply (attune_gives_up ascii_only ninefold_grid (py "AB") 1 67 3 3 3);
    [vm_compute; reflexivity | vm_compute; reflexivity | lia | done | done | done].
Defined.

(** ** gdk9/energy.py: attune_text with any symbol *)

Section AttuneResult.
Variable U : Unicode.
Variable pr : Principle.

Lemma str_repeat_succ s k : str_repeat s (Z.of_nat k) ++ s = str_repeat s (Z.of_nat (S k)).
Proof.
  unfold str_repeat. rewrite !Nat2Z.id, replicate_S_end, concat_app. cbn.
  by rewrite app_nil_r.
Qed.

(** The adjusting loop appends whole symbols, keeps total and digital root
    those of its text, and stops early only on the target. *)
Lemma adjust_result symbol target txt left : forall k new_total new_dr t' tot' dr',
  string_energy U (txt ++ str_repeat symbol (Z.of_nat k)) pr = Ok (new_total, new_dr) ->
  adjust U left symbol pr target (txt ++ str_repeat symbol (Z.of_nat k)) new_total new_dr
    = Ok (t', tot', dr') ->
  exists j, (j <= left)%nat /\
    t' = txt ++ str_repeat symbol (Z.of_nat (k + j)) /\
    string_energy U t' pr = Ok (tot', dr') /\
    (dr' = target \/ j = left).
Proof.
  induction left as [|left IH]; intros k new_total new_dr t' tot' dr' He.
  - cbn. destruct (Z.eqb_spec new_dr target) as [E|E]; intros [= <- <- <-];
      exists 0%nat; rewrite Nat.add_0_r; auto.
  - cbn [adjust]. destruct (Z.eqb_spec new_dr target) as [E|E].
    { intros [= <- <- <-]. exists 0%nat. rewrite Nat.add_0_r.
      split; [lia|]. auto. }
    rewrite <- app_assoc, str_repeat_succ.
    destruct (string_energy U (txt ++ str_repeat symbol (Z.of_nat (S k))) pr)
      as [[total2 dr2]|] eqn:E2; bind_simpl; [|done].
    intros Hadj. destruct (IH (S k) _ _ _ _ _ E2 Hadj) as (j & Hj & -> & Hs & Hstop).
    exists (S j). replace (k + S j)%nat with (S k + j)%nat by lia.
    split; [lia|]. split; [done|]. split; [done|].
    destruct Hstop as [->| ->]; auto.
Qed.

(** X8: whatever [attune_text] returns is consistent: the text is the given
    one followed by [k] copies of the symbol, total and digital root are
    those of the returned text, and [k] is 0 with count 0 (the text was
    attuned already) or lies between the count and the count plus 20, the
    upper bound only when the target was missed. *)
Theorem attune_text_result (txt : text) (target : Z) (method : string) (symbol : text)
  (t' : text) (tot' dr' count : Z) :
  attune_text U txt target pr method symbol = Done (t', tot', dr', count) ->
  exists k : Z,
    t' = txt ++ str_repeat symbol k /\
    string_energy U t' pr = Ok (tot', dr') /\
    1 <= target <= 9 /\
    (count = 0 /\ k = 0 /\ dr' = target \/
     1 <= count /\ method = "append"%string /\ count <= k <= count + 20 /\
     (dr' = target \/ k = count + 20)).
Proof.
  unfold attune_text.
  destruct (string_energy U txt pr) as [[total dr]|] eqn:Ht; cbn [lift]; outcome_simpl;
    [|done].
  destruct (Z.leb_spec 1 target); [|done]. destruct (Z.leb_spec target 9); [|done].
  cbn [andb negb].
  destruct (Z.eqb_spec dr target) as [->|Hdr].
  { intros [= <- <- <- <-]. exists 0. unfold str_repeat. cbn. rewrite app_nil_r.
    split; [done|]. split; [done|]. split; [lia|]. left. done. }
  destruct (String.eqb_spec method "append") as [->|]; [|done]. cbn [negb].
  destruct (char_energy U symbol pr) as [sym_e|]; cbn [lift]; outcome_simpl; [|done].
  destruct (Z.eqb_spec sym_e 0); [done|].
  set (cnt := Z.max 1 _).
  assert (str_repeat symbol cnt = str_repeat symbol (Z.of_nat (Z.to_nat cnt))) as ->
    by (unfold str_repeat; by rewrite Nat2Z.id).
  destruct (string_energy U (txt ++ str_repeat symbol (Z.of_nat (Z.to_nat cnt))) pr)
    as [[total2 dr2]|] eqn:E2; cbn [lift]; outcome_simpl; [|done].
  destruct (adjust U 20 symbol pr target _ total2 dr2) as [[[t2 tot2] d2]|] eqn:Hadj;
    cbn [lift]; outcome_simpl; [|done].
  intros [= <- <- <- <-].
  destruct (adjust_result _ _ _ _ _ _ _ _ _ _ E2 Hadj) as (j & Hj & -> & Hs & Hstop).
  exists (Z.of_nat (Z.to_nat cnt + j)).
  split; [done|]. split; [done|]. split; [lia|]. right.
  split; [lia|]. split; [done|]. split; [lia|].
  destruct Hstop as [->| ->]; [by left|right; lia].
Qed.
End AttuneResult.

Lemma attune_text_result_witness :
  exists k : Z,
    py "ABC...." = py "ABC" ++ str_repeat (py ".") k /\
    string_energy ascii_only (py "ABC....") ninefold_grid = Ok (10, 1) /\
    1 <= 1 <= 9 /\
    (4 = 0 /\ k = 0 /\ 1 = 1 \/
     1 <= 4 /\ "append"%string = "append"%string /\ 4 <= k <= 4 + 20 /\
     (1 = 1 \/ k = 4 + 20)).
Proof.
  apply (attune_text_result ascii_only ninefold_grid (py "ABC") 1 "append" (py ".")
           (py "ABC....") 10 1 4).
  vm_compute. reflexivity.
Defined.

(** ** gdk9/energy.py: energy_profile, harmonic_triads, vector_energy *)

Lemma how_many_ext (P Q : Z -> bool) es :
  Forall (fun e => P e = Q e) es -> how_many P es = how_many Q es.
Proof. induction 1 as [|e es He _ IH]; cbn; [done|]. by rewrite He, IH. Qed.

Lemma how_many_range (P : Z -> bool) es : 0 <= how_many P es <= Z.of_nat (length es).
Proof. induction es as [|e es IH]; cbn; [lia|]. destruct (P e); lia. Qed.

(** Slots that no energy falls into twice and every energy into one of
    them share the energies among them. *)
Lemma how_many_partition (P : Z -> bool) (Q : Z -> Z -> bool) (slots : list Z) es :
  Forall (fun e => zsum (map (fun i => if Q i e then 1 else 0) slots)
                   = if P e then 1 else 0) es ->
  zsum (map (fun i => how_many (Q i) es) slots) = how_many P es.
Proof.
  induction 1 as [|e es He _ IH]; cbn.
  - induction slots as [|i slots IHs]; cbn; [done|]. fold (zsum (map (fun _ => 0) slots)).
    by rewrite IHs.
  - rewrite <- IH, <- He. clear.
    induction slots as [|i slots IHs]; cbn; [done|].
    fold (zsum (map (fun i => (if Q i e then 1 else 0) + how_many (Q i) es) slots)).
    fold (zsum (map (fun i => if Q i e then 1 else 0) slots)).
    fold (zsum (map (fun i => how_many (Q i) es) slots)).
    rewrite IHs. lia.
Qed.

Section Views.
Variable U : Unicode.
Variable pr : Principle.

Lemma energies_range txt es :
  energies U txt pr = Ok es -> Forall (fun e => 0 <= e <= 9) es.
Proof.
  intros H. apply mapM_Forall2 in H.
  induction H as [|s e l es' He _ IH]; constructor; [|done].
  by eapply char_energy_range.
Qed.

Lemma energies_length txt es : energies U txt pr = Ok es -> length es = length txt.
Proof.
  intros H. apply mapM_Forall2, Forall2_length in H.
  unfold chars_of in H. by rewrite length_map in H.
Qed.

Lemma energies_string_energy txt es :
  energies U txt pr = Ok es ->
  string_energy U txt pr = Ok (zsum es, digital_root (zsum es) (normalize_zero_to_nine pr)).
Proof. unfold energies, string_energy. by intros ->. Qed.

(** The profile loop counts each energy under its key, as long as the keys
    1 to 9 are there. *)
Lemma profile_loop_spec chars : forall es (p : gmap string Z),
  mapM (fun ch => char_energy U ch pr) chars = Ok es ->
  (forall i, 1 <= i <= 9 -> is_Some (p !! pretty i)) ->
  exists p', profile_loop U pr chars p = Ok p' /\
    forall k, p' !! k
      = (fun v => v + how_many (fun e => String.eqb (pretty (if e =? 0 then 9 else e)) k) es)
          <$> p !! k.
Proof.
  induction chars as [|ch rest IH]; intros es p; cbn.
  - intros [= <-] _. exists p. split; [done|]. intros k. cbn.
    destruct (p !! k); cbn; [f_equal; lia|done].
  - destruct (char_energy U ch pr) as [e|] eqn:He; bind_simpl; [|done].
    destruct (mapM _ rest) as [es'|] eqn:Hes; bind_simpl; [|done].
    intros [= <-] Hkeys.
    apply char_energy_range in He.
    set (key := pretty (if e =? 0 then 9 else e)).
    destruct (Hkeys (if e =? 0 then 9 else e)) as [v Hv];
      [destruct (Z.eqb_spec e 0); lia|].
    fold key in Hv. unfold dict_add. rewrite Hv. bind_simpl.
    destruct (IH es' (<[key := v + 1]> p) eq_refl) as (p' & -> & Hp').
    { intros i Hi. destruct (decide (key = pretty i)) as [->|].
      - rewrite lookup_insert_eq. by eexists.
      - rewrite lookup_insert_ne by done. by apply Hkeys. }
    exists p'. split; [done|]. intros k. rewrite Hp'. cbn. fold key.
    destruct (String.eqb_spec key k) as [<-|Hne].
    + rewrite lookup_insert_eq, Hv. cbn. f_equal. lia.
    + rewrite lookup_insert_ne by done. destruct (p !! k); cbn; [f_equal; lia|done].
Qed.

Lemma profile_init_lookup k (l : list Z) :
  (list_to_map (map (fun i : Z => (pretty i, 0)) l) : gmap string Z) !! k
  = if existsb (fun i => String.eqb (pretty i) k) l then Some 0 else None.
Proof.
  induction l as [|i l IH]; cbn [map list_to_map foldr existsb]; [done|].
  cbn [fst snd uncurry]. destruct (String.eqb_spec (pretty i) k) as [<-|Hne]; cbn [orb].
  - apply lookup_insert_eq.
  - rewrite <- IH. by apply lookup_insert_ne.
Qed.

(** X9: [energy_profile] raises no [KeyError]: its keys are the numerals 1
    to 9, each with the number of characters of that energy, the
    characters of energy 0 counted under 9; the counts add up to the
    length of the text. *)
Theorem energy_profile_histogram (txt : text) (es : list Z) :
  energies U txt pr = Ok es ->
  exists profile : gmap string Z,
    energy_profile U txt pr = Ok profile /\
    (forall i, 1 <= i <= 9 ->
       profile !! pretty i = Some (how_many (fun e => (if e =? 0 then 9 else e) =? i) es)) /\
    (forall k, is_Some (profile !! k) -> exists i, 1 <= i <= 9 /\ k = pretty i) /\
    zsum (map (fun i => default 0 (profile !! pretty i)) (seqZ 1 9))
      = Z.of_nat (length txt).
Proof.
  intros Hes. unfold energy_profile.
  destruct (profile_loop_spec (chars_of txt) es
              (list_to_map (map (fun i : Z => (pretty i, 0)) (seqZ 1 9))) Hes)
    as (p & -> & Hp).
  { intros i Hi. rewrite profile_init_lookup.
    assert (existsb (fun j => String.eqb (pretty j) (pretty i)) (seqZ 1 9) = true) as ->;
      [|by eexists].
    apply existsb_exists. exists i. split; [|apply String.eqb_refl].
    apply list_elem_of_In, elem_of_seqZ. lia. }
  assert (forall i, 1 <= i <= 9 ->
            p !! pretty i = Some (how_many (fun e => (if e =? 0 then 9 else e) =? i) es))
    as Hslot.
  { intros i Hi. rewrite Hp, profile_init_lookup.
    assert (existsb (fun j => String.eqb (pretty j) (pretty i)) (seqZ 1 9) = true) as ->.
    { apply existsb_exists. exists i. split; [|apply String.eqb_refl].
      apply list_elem_of_In, elem_of_seqZ. lia. }
    cbn. f_equal. apply how_many_ext, Forall_forall. intros e _.
    destruct (String.eqb_spec (pretty (if e =? 0 then 9 else e)) (pretty i)) as [E|E].
    - apply (inj pretty) in E. symmetry. by apply Z.eqb_eq.
    - symmetry. apply Z.eqb_neq. intros Heq. apply E. by rewrite Heq. }
  exists p. split; [done|]. split; [done|]. split.
  - intros k [v Hk]. rewrite Hp, profile_init_lookup in Hk.
    destruct (existsb _ _) eqn:Hex; [|done].
    apply existsb_exists in Hex as (i & Hi & Heq).
    apply list_elem_of_In, elem_of_seqZ in Hi. apply String.eqb_eq in Heq.
    exists i. split; [lia|done].
  - rewrite <- (energies_length _ _ Hes).
    transitivity (zsum (map (fun i => how_many (fun e => (if e =? 0 then 9 else e) =? i) es)
                          (seqZ 1 9))).
    { f_equal. apply map_ext_in. intros i Hi.
      apply list_elem_of_In, elem_of_seqZ in Hi. rewrite Hslot by lia. done. }
    rewrite (how_many_partition (fun _ => true)
               (fun i e => (if e =? 0 then 9 else e) =? i)).
    + clear. induction es as [|e es' IH]; cbn; [done|]. lia.
    + eapply Forall_impl; [by eapply energies_range|]. intros e He. cbn beta in *.
      assert (e = 0 \/ e = 1 \/ e = 2 \/ e = 3 \/ e = 4 \/ e = 5 \/ e = 6 \/ e = 7
              \/ e = 8 \/ e = 9) as Hc by lia.
      destruct Hc as [E|[E|[E|[E|[E|[E|[E|[E|[E|E]]]]]]]]]; subst e; reflexivity.
Qed.

(** The triad loop counts each energy other than 0 under its triad. *)
Lemma triads_loop_spec chars : forall es (p : gmap string Z),
  mapM (fun ch => char_energy U ch pr) chars = Ok es ->
  (forall r, is_Some (p !! triad_of r)) ->
  exists p', triads_loop U pr chars p = Ok p' /\
    forall k, p' !! k
      = (fun v => v + how_many (fun e => negb (e =? 0) && String.eqb (triad_of (e mod 9)) k) es)
          <$> p !! k.
Proof.
  induction chars as [|ch rest IH]; intros es p; cbn.
  - intros [= <-] _. exists p. split; [done|]. intros k. cbn.
    destruct (p !! k); cbn; [f_equal; lia|done].
  - destruct (char_energy U ch pr) as [e|] eqn:He; bind_simpl; [|done].
    destruct (mapM _ rest) as [es'|] eqn:Hes; bind_simpl; [|done].
    intros [= <-] Hkeys. cbn [how_many].
    destruct (Z.eqb_spec e 0) as [->|Hne]; cbn [negb andb].
    { destruct (IH es' p eq_refl Hkeys) as (p' & -> & Hp'). by exists p'. }
    set (key := triad_of (e mod 9)).
    destruct (Hkeys (e mod 9)) as [v Hv]. fold key in Hv.
    unfold dict_add. rewrite Hv. bind_simpl.
    destruct (IH es' (<[key := v + 1]> p) eq_refl) as (p' & -> & Hp').
    { intros r. destruct (decide (key = triad_of r)) as [->|].
      - rewrite lookup_insert_eq. by eexists.
      - rewrite lookup_insert_ne by done. by apply Hkeys. }
    exists p'. split; [done|]. intros k. rewrite Hp'.
    destruct (String.eqb_spec key k) as [<-|Hk].
    + rewrite lookup_insert_eq, Hv. cbn. f_equal. lia.
    + rewrite lookup_insert_ne by done. destruct (p !! k); cbn; [f_equal; lia|done].
Qed.

(** X10: [harmonic_triads] raises no [KeyError]: it counts the characters
    of energy 1, 4 or 7 as root, those of energy 2, 5 or 8 as wave and
    those of energy 3, 6 or 9 as peak; the characters of energy 0 are
    counted nowhere. *)
Theorem harmonic_triads_counts (txt : text) (es : list Z) :
  energies U txt pr = Ok es ->
  exists triads : gmap string Z,
    harmonic_triads U txt pr = Ok triads /\
    triads !! "root"%string = Some (how_many (fun e => (e =? 1) || (e =? 4) || (e =? 7)) es) /\
    triads !! "wave"%string = Some (how_many (fun e => (e =? 2) || (e =? 5) || (e =? 8)) es) /\
    triads !! "peak"%string = Some (how_many (fun e => (e =? 3) || (e =? 6) || (e =? 9)) es) /\
    (forall k, is_Some (triads !! k) -> k ∈ ["root"; "wave"; "peak"]%string) /\
    zsum (map (fun k => default 0 (triads !! k)) ["root"; "wave"; "peak"]%string)
      = how_many (fun e => negb (e =? 0)) es.
Proof.
  intros Hes. unfold harmonic_triads.
  set (init := list_to_map _).
  destruct (triads_loop_spec (chars_of txt) es init Hes) as (p & -> & Hp).
  { intros r. unfold triad_of.
    destruct ((r =? 1) || (r =? 4) || (r =? 7)); [by eexists|].
    destruct ((r =? 2) || (r =? 5) || (r =? 8)); by eexists. }
  pose proof (energies_range _ _ Hes) as Hrange.
  assert (forall (k : string) (P : Z -> bool),
            k ∈ ["root"; "wave"; "peak"]%string ->
            (forall e, 0 <= e <= 9 ->
               negb (e =? 0) && String.eqb (triad_of (e mod 9)) k = P e) ->
            p !! k = Some (how_many P es)) as Hslot.
  { intros k P Hk HP. rewrite Hp.
    assert (init !! k = Some 0) as ->.
    { apply elem_of_cons in Hk as [->|Hk]; [done|].
      apply elem_of_cons in Hk as [->|Hk]; [done|].
      apply list_elem_of_singleton in Hk as ->. done. }
    cbn. f_equal. apply how_many_ext.
    eapply Forall_impl; [exact Hrange|]. intros e He. by apply HP. }
  assert (forall (P : Z -> bool) (Q : Z -> bool),
            forallb (fun e => Bool.eqb (P e) (Q e)) (seqZ 0 10) = true ->
            forall e, 0 <= e <= 9 -> P e = Q e) as Hcheck.
  { intros P Q H e He. rewrite forallb_forall in H.
    apply Bool.eqb_prop, H, list_elem_of_In, elem_of_seqZ. lia. }
  assert (p !! "root"%string = Some (how_many (fun e => (e =? 1) || (e =? 4) || (e =? 7)) es))
    as Hroot by (apply Hslot; [by repeat constructor|by apply Hcheck]).
  assert (p !! "wave"%string = Some (how_many (fun e => (e =? 2) || (e =? 5) || (e =? 8)) es))
    as Hwave by (apply Hslot; [by repeat constructor|by apply Hcheck]).
  assert (p !! "peak"%string = Some (how_many (fun e => (e =? 3) || (e =? 6) || (e =? 9)) es))
    as Hpeak by (apply Hslot; [by repeat constructor|by apply Hcheck]).
  exists p. split; [done|]. split; [done|]. split; [done|]. split; [done|]. split.
  - intros k [v Hk]. rewrite Hp in Hk.
    destruct (init !! k) as [w|] eqn:Hi; [|done].
    unfold init in Hi. cbn [list_to_map foldr fst snd uncurry] in Hi.
    destruct (decide (k = "root"%string)) as [->|]; [by repeat constructor|].
    destruct (decide (k = "wave"%string)) as [->|]; [by repeat constructor|].
    destruct (decide (k = "peak"%string)) as [->|]; [by repeat constructor|].
    by rewrite !lookup_insert_ne in Hi.
  - cbn [map zsum foldr]. rewrite Hroot, Hwave, Hpeak. cbn [default].
    eapply Forall_impl in Hrange.
    2:{ intros e He.
        exact (Hcheck (fun e => Z.eqb
                 ((if (e =? 1) || (e =? 4) || (e =? 7) then 1 else 0)
                  + ((if (e =? 2) || (e =? 5) || (e =? 8) then 1 else 0)
                     + ((if (e =? 3) || (e =? 6) || (e =? 9) then 1 else 0) + 0)))
                 (if negb (e =? 0) then 1 else 0)) (fun _ => true) eq_refl e He). }
    unfold id. clear -Hrange.
    induction Hrange as [|e es' He _ IH]; cbn [how_many]; [done|].
    apply Z.eqb_eq in He. lia.
Qed.

(** The three sums of [vector_energy] share the energies of the text. *)
Lemma vector_loop_spec chars : forall es letters digits symbols,
  mapM (fun ch => char_energy U ch pr) chars = Ok es ->
  exists l d s,
    vector_loop U pr chars letters digits symbols = Ok (l, d, s) /\
    letters <= l /\ digits <= d /\ symbols <= s /\
    l + d + s = letters + digits + symbols + zsum es.
Proof.
  induction chars as [|ch rest IH]; intros es letters digits symbols; cbn.
  - intros [= <-]. exists letters, digits, symbols. cbn. repeat split; lia.
  - destruct (char_energy U ch pr) as [e|] eqn:He; bind_simpl; [|done].
    destruct (mapM _ rest) as [es'|] eqn:Hes; bind_simpl; [|done].
    intros [= <-]. cbn [zsum foldr]. fold (zsum es').
    pose proof (char_energy_range U _ _ _ He) as Hr.
    destruct (isspace U ch) eqn:Hsp.
    { unfold char_energy in He. rewrite Hsp in He. injection He as <-.
      destruct (IH es' letters digits symbols eq_refl) as (l & d & s & -> & ?).
      exists l, d, s. repeat split; lia. }
    destruct (isalpha U ch); [|destruct (isdigit U ch)].
    + destruct (IH es' (letters + e) digits symbols eq_refl) as (l & d & s & -> & ?).
      exists l, d, s. repeat split; lia.
    + destruct (IH es' letters (digits + e) symbols eq_refl) as (l & d & s & -> & ?).
      exists l, d, s. repeat split; lia.
    + destruct (IH es' letters digits (symbols + e) eq_refl) as (l & d & s & -> & ?).
      exists l, d, s. repeat split; lia.
Qed.

(** X11: on a text that [string_energy] accepts, [vector_energy] raises
    nothing, and its three sums, of letters, digits and symbols, are not
    negative and add up to the total of [string_energy]; its three digital
    roots are those of the sums. *)
Theorem vector_energy_splits_total (txt : text) (total dr : Z) :
  string_energy U txt pr = Ok (total, dr) ->
  exists (v : gmap string (gmap string Z)) (sums roots : gmap string Z) (l d s : Z),
    vector_energy U txt pr = Ok v /\
    v !! "sum"%string = Some sums /\ v !! "dr"%string = Some roots /\
    sums !! "letters"%string = Some l /\ sums !! "digits"%string = Some d /\
    sums !! "symbols"%string = Some s /\
    0 <= l /\ 0 <= d /\ 0 <= s /\ l + d + s = total /\
    roots !! "letters"%string = Some (digital_root l (normalize_zero_to_nine pr)) /\
    roots !! "digits"%string = Some (digital_root d (normalize_zero_to_nine pr)) /\
    roots !! "symbols"%string = Some (digital_root s (normalize_zero_to_nine pr)).
Proof.
  unfold string_energy.
  destruct (mapM _ (chars_of txt)) as [es|] eqn:Hes; bind_simpl; [|done].
  intros [= <- _].
  destruct (vector_loop_spec (chars_of txt) es 0 0 0 Hes) as (l & d & s & Hv & ? & ? & ? & ?).
  unfold vector_energy. rewrite Hv. bind_simpl.
  eexists _, _, _, l, d, s. split; [done|].
  split; [done|]. split; [done|].
  repeat (split; [done || lia|]). done.
Qed.
End Views.

Lemma energy_profile_histogram_witness :
  exists profile : gmap string Z,
    energy_profile ascii_only (py "A J!") ninefold_grid = Ok profile /\
    (forall i, 1 <= i <= 9 ->
       profile !! pretty i
       = Some (how_many (fun e => (if e =? 0 then 9 else e) =? i) [1; 0; 1; 3])) /\
    (forall k, is_Some (profile !! k) -> exists i, 1 <= i <= 9 /\ k = pretty i) /\
    zsum (map (fun i => default 0 (profile !! pretty i)) (seqZ 1 9))
      = Z.of_nat (length (py "A J!")).
Proof.
  apply (energy_profile_histogram ascii_only ninefold_grid (py "A J!") [1; 0; 1; 3]).
  vm_compute. reflexivity.
Defined.

Lemma harmonic_triads_counts_witness :
  exists triads : gmap string Z,
    harmonic_triads ascii_only (py "A J!") ninefold_grid = Ok triads /\
    triads !! "root"%string
      = Some (how_many (fun e => (e =? 1) || (e =? 4) || (e =? 7)) [1; 0; 1; 3]) /\
    triads !! "wave"%string
      = Some (how_many (fun e => (e =? 2) || (e =? 5) || (e =? 8)) [1; 0; 1; 3]) /\
    triads !! "peak"%string
      = Some (how_many (fun e => (e =? 3) || (e =? 6) || (e =? 9)) [1; 0; 1; 3]) /\
    (forall k, is_Some (triads !! k) -> k ∈ ["root"; "wave"; "peak"]%string) /\
    zsum (map (fun k => default 0 (triads !! k)) ["root"; "wave"; "peak"]%string)
      = how_many (fun e => negb (e =? 0)) [1; 0; 1; 3].
Proof.
  apply (harmonic_triads_counts ascii_only ninefold_grid (py "A J!") [1; 0; 1; 3]).
  vm_compute. reflexivity.
Defined.

Lemma vector_energy_splits_total_witness :
  exists (v : gmap string (gmap string Z)) (sums roots : gmap string Z) (l d s : Z),
    vector_energy ascii_only (py "A1!") ninefold_grid = Ok v /\
    v !! "sum"%string = Some sums /\ v !! "dr"%string = Some roots /\
    sums !! "letters"%string = Some l /\ sums !! "digits"%string = Some d /\
    sums !! "symbols"%string = Some s /\
    0 <= l /\ 0 <= d /\ 0 <= s /\ l + d + s = 5 /\
    roots !! "letters"%string
      = Some (digital_root l (normalize_zero_to_nine ninefold_grid)) /\
    roots !! "digits"%string
      = Some (digital_root d (normalize_zero_to_nine ninefold_grid)) /\
    roots !! "symbols"%string
      = Some (digital_root s (normalize_zero_to_nine ninefold_grid)).
Proof.
  apply (vector_energy_splits_total ascii_only ninefold_grid (py "A1!") 5 5).
  vm_compute. reflexivity.
Defined.

(** ** gdk9/optimize.py: what the search finds and what it misses *)

Section SearchComplete.
Variable rs : list Z.
Variable max_steps : Z.

(** The level invariant when the head of the queue is taken off. *)
Lemma bfs_pop_level st d cur q' dc :
  bfs_level rs max_steps d [] st ->
  queue st = cur :: q' -> depth st !! cur = Some dc ->
  bfs_level rs max_steps dc [cur]
    {| parent := parent st; depth := depth st; queue := q' |}.
Proof.
  intros Hlv Hq Hdc.
  destruct (lv_queue _ _ _ _ _ Hlv) as (qa & qb & Hqq & Hqa & Hqb).
  rewrite Hq in Hqq.
  assert (forall x dx, depth st !! x = Some dx -> x ∉ q' -> x ∉ [cur] ->
            dx <= d /\
            (dx < max_steps -> forall r, r ∈ rs ->
               exists d', depth st !! ((x + r) mod 9) = Some d' /\ d' <= dx + 1))
    as Hclosed.
  { intros x dx Hx Hxq Hxc.
    apply (lv_closed _ _ _ _ _ Hlv x dx Hx); [|by apply not_elem_of_nil].
    rewrite Hq. intros [->|Hin]%elem_of_cons; [|done].
    apply Hxc. by left. }
  destruct qa as [|a qa].
  - cbn in Hqq. subst qb.
    assert (dc = d + 1) as ->.
    { specialize (Hqb cur ltac:(by left)). congruence. }
    split.
    + exists q', []. cbn. rewrite app_nil_r. split; [done|]. split.
      * intros x Hx. apply Hqb. by right.
      * intros x Hx. by apply not_elem_of_nil in Hx.
    + intros x dx Hx. cbn in Hx. apply (lv_bound _ _ _ _ _ Hlv) in Hx. lia.
    + intros x dx Hx Hxq Hxc. cbn in Hx, Hxq.
      destruct (Hclosed x dx Hx Hxq Hxc) as [? ?]. split; [lia|done].
  - injection Hqq as <- ->.
    assert (dc = d) as ->.
    { specialize (Hqa cur ltac:(by left)). congruence. }
    split.
    + exists qa, qb. cbn. split; [done|]. split.
      * intros x Hx. apply Hqa. by right.
      * done.
    + apply (lv_bound _ _ _ _ _ Hlv).
    + intros x dx Hx Hxq Hxc. cbn in Hx, Hxq. by apply Hclosed.
Qed.

(** Once the queue is empty, whatever can be reached within [max_steps]
    steps has been found. *)
Lemma reach_closed st d k x :
  bfs_wf rs st -> bfs_level rs max_steps d [] st -> queue st = [] ->
  reach rs k x -> Z.of_nat k <= max_steps ->
  exists dx, depth st !! x = Some dx /\ dx <= Z.of_nat k.
Proof.
  intros Hwf Hlv Hq Hreach. induction Hreach as [|k y r Hreach IH Hr]; intros Hk.
  - exists 0. split; [apply (wf_root _ _ Hwf)|lia].
  - destruct IH as (dy & Hdy & Hdyk); [lia|].
    destruct (lv_closed _ _ _ _ _ Hlv y dy Hdy) as [_ Hsucc].
    { rewrite Hq. apply not_elem_of_nil. }
    { apply not_elem_of_nil. }
    destruct (Hsucc ltac:(lia) r Hr) as (d' & Hd' & Hle).
    exists d'. split; [done|lia].
Qed.

(** The loop over the residues: a path it returns is one step longer than
    the node it expands is deep; when it returns none, [delta_res] is still
    not found. *)
Lemma expand_post delta_res cur d todo : forall done st,
  rs = done ++ todo ->
  bfs_wf rs st -> bfs_level rs max_steps d [cur] st ->
  depth st !! cur = Some d ->
  depth st !! delta_res = None ->
  match expand delta_res cur d todo (Z.of_nat (length done)) st with
  | Ok (inl seq) => Z.of_nat (length seq) = d + 1 /\ (length seq <= 8)%nat
  | Ok (inr st') => depth st' !! delta_res = None
  | Err _ => True
  end.
Proof.
  induction todo as [|r todo IH]; intros done st Hrs Hwf Hlv Hcur Hnone;
    [cbn; exact Hnone|].
  cbn -[walk_back].
  assert (rs !! length done = Some r) as Hr.
  { rewrite Hrs. by rewrite list_lookup_middle. }
  assert (rs = (done ++ [r]) ++ todo) as Hrs' by (by rewrite <- app_assoc).
  assert (Z.of_nat (length done) + 1 = Z.of_nat (length (done ++ [r]))) as Hidx.
  { rewrite length_app. cbn. lia. }
  destruct (parent st !! ((cur + r) mod 9)) as [pi|] eqn:Hp.
  - rewrite Hidx. by apply IH.
  - destruct (discover_spec rs max_steps st cur d (length done) r Hr Hwf Hlv Hcur Hp)
      as (Hwf1 & Hlv1 & Hcur1 & Hnxt1 & Hkeep & Hsize).
    set (st1 := {| parent := _; depth := _; queue := _ |}) in *.
    destruct (Z.eqb_spec ((cur + r) mod 9) delta_res) as [Heq|Hne].
    + pose proof (bfs_wf_size rs _ Hwf1) as Hsz.
      pose proof (wf_size _ _ Hwf1 _ _ Hnxt1) as Hdsz.
      destruct (walk_back_spec rs st1 9 _ _ [] Hwf1 Hnxt1 ltac:(lia))
        as (js & picks & Hw & Hlen & _).
      change (<[_ := _]> (parent st)) with (parent st1).
      rewrite Hw. bind_simpl. cbn [app]. rewrite length_reverse. lia.
    + rewrite Hidx. apply IH; try done.
      unfold st1. cbn [depth]. by rewrite lookup_insert_ne.
Qed.

(** The search loop: a path it returns has at most [max_steps] and at most
    eight steps; it returns none only when [delta_res] is out of reach
    within [max_steps] steps. *)
Lemma bfs_post delta_res fuel : forall st d,
  bfs_wf rs st -> bfs_level rs max_steps d [] st -> bfs_fuel fuel st ->
  depth st !! delta_res = None ->
  match bfs fuel delta_res rs max_steps st with
  | Ok (Some seq) => Z.of_nat (length seq) <= max_steps /\ (length seq <= 8)%nat
  | Ok None => forall k, Z.of_nat k <= max_steps -> ~ reach rs k delta_res
  | Err _ => True
  end.
Proof.
  assert (forall st d, bfs_wf rs st -> bfs_level rs max_steps d [] st ->
            queue st = [] -> depth st !! delta_res = None ->
            forall k, Z.of_nat k <= max_steps -> ~ reach rs k delta_res) as Hend.
  { intros st d Hwf Hlv Hq Hnone k Hk Hreach.
    destruct (reach_closed st d k _ Hwf Hlv Hq Hreach Hk) as (dx & Hdx & _).
    congruence. }
  induction fuel as [|fuel IH]; intros st d Hwf Hlv Hfuel Hnone.
  - cbn. destruct (queue st) as [|cur q'] eqn:Hq; [by eapply Hend|done].
  - cbn [bfs]. destruct (queue st) as [|cur q'] eqn:Hq; [by eapply Hend|].
    assert (is_Some (depth st !! cur)) as [dc Hdc].
    { apply (wf_queue _ _ Hwf). rewrite Hq. by left. }
    rewrite Hdc.
    set (st' := {| parent := parent st; depth := depth st; queue := q' |}).
    assert (bfs_wf rs st') as Hwf'.
    { destruct Hwf. split; try done. cbn. intros x Hx. apply wf_queue0.
      rewrite Hq. by right. }
    assert (bfs_fuel fuel st') as Hfuel'.
    { unfold bfs_fuel in *. rewrite Hq in Hfuel. cbn in *. lia. }
    pose proof (bfs_pop_level st d cur q' dc Hlv Hq Hdc) as Hlv'. fold st' in Hlv'.
    destruct (Z.geb_spec dc max_steps) as [Hge|Hlt].
    + apply (IH st' dc); [done| |done|done].
      apply (bfs_level_unskip rs max_steps _ cur); [done|done|]. intros ?. lia.
    + pose proof (expand_spec rs max_steps delta_res cur dc fuel rs [] st' eq_refl Hwf' Hlv'
                    Hfuel' Hdc Hlt) as Hex.
      pose proof (expand_post delta_res cur dc rs [] st' eq_refl Hwf' Hlv' Hdc Hnone)
        as Hpost.
      cbn [length] in Hex, Hpost. change (Z.of_nat 0) with 0 in Hex, Hpost.
      destruct (expand delta_res cur dc rs 0 st') as [[seq|st'']|e]; bind_simpl.
      * destruct Hpost as [Hlen H8]. split; [lia|done].
      * destruct Hex as (Hwf'' & Hlv'' & Hfuel'').
        { intros r Hr. by apply not_elem_of_nil in Hr. }
        by apply (IH st'' dc).
      * done.
Qed.
End SearchComplete.

(** Residues that are all 0 lead nowhere but to 0. *)
Lemma reach_zero rs k x :
  Forall (fun r => r mod 9 = 0) rs -> reach rs k x -> x = 0.
Proof.
  intros Hrs. induction 1 as [|k x r _ -> Hr]; [done|].
  rewrite Forall_forall in Hrs. rewrite Z.add_0_l. by apply Hrs.
Qed.

(** A path the search returns is a way to [delta_res]. *)
Lemma shortest_path_reach rs delta_res seq :
  shortest_path rs delta_res seq -> reach rs (length seq) delta_res.
Proof.
  intros [(picks & Hpicks & <-) _].
  rewrite (Forall2_length _ _ _ Hpicks).
  apply reach_of_picks. by eapply picks_of_valid.
Qed.

(** What [minimal_residue_combo] returns, by reachability. *)
Lemma minimal_residue_combo_cases delta_res allowed max_steps :
  0 <= max_steps ->
  match minimal_residue_combo delta_res allowed max_steps with
  | Ok (Some seq) =>
      reach (map (fun se => snd se mod 9) allowed) (length seq) delta_res /\
      Z.of_nat (length seq) <= max_steps /\ (length seq <= 8)%nat
  | Ok None =>
      forall k, Z.of_nat k <= max_steps ->
                ~ reach (map (fun se => snd se mod 9) allowed) k delta_res
  | Err _ => False
  end.
Proof.
  intros Hmax.
  destruct (minimal_residue_combo_total delta_res allowed max_steps) as [r Hr].
  rewrite Hr. destruct r as [seq|].
  - split; [by apply shortest_path_reach, (minimal_residue_combo_shortest _ _ max_steps)|].
    revert Hr. unfold minimal_residue_combo.
    destruct (Z.eqb_spec delta_res 0) as [->|Hne]; [intros [= <-]; cbn; lia|].
    destruct (forallb _ _); [done|].
    set (rs := map _ allowed). intros Hb.
    pose proof (bfs_post rs max_steps delta_res 9 bfs_init 0 (bfs_init_wf rs)
                  (bfs_init_level rs max_steps)) as H.
    rewrite Hb in H. apply H.
    + unfold bfs_fuel. cbn. rewrite map_size_singleton. lia.
    + cbn. by rewrite lookup_singleton_ne.
  - revert Hr. unfold minimal_residue_combo.
    destruct (Z.eqb_spec delta_res 0) as [->|Hne]; [done|].
    set (rs := map _ allowed).
    destruct (forallb _ rs) eqn:Hall.
    + intros _ k _ Hreach. apply Hne. apply (reach_zero rs k); [|done].
      apply Forall_forall. intros r Hin.
      rewrite forallb_forall in Hall. apply list_elem_of_In, Hall, Z.eqb_eq in Hin.
      by subst r.
    + intros Hb.
      pose proof (bfs_post rs max_steps delta_res 9 bfs_init 0 (bfs_init_wf rs)
                    (bfs_init_level rs max_steps)) as H.
      rewrite Hb in H. apply H.
      * unfold bfs_fuel. cbn. rewrite map_size_singleton. lia.
      * cbn. by rewrite lookup_singleton_ne.
Qed.

(** X12: [minimal_residue_combo] raises nothing; it returns [None] exactly
    when no sequence of at most [max_steps] residues of the allowed symbols
    adds up to [delta_res] modulo 9; a sequence it returns has at most
    [max_steps] and at most eight indices. *)
Theorem minimal_residue_combo_feasible (delta_res : Z) (allowed : list (text * Z))
  (max_steps : Z) :
  0 <= max_steps ->
  (minimal_residue_combo delta_res allowed max_steps = Ok None <->
   forall k, Z.of_nat k <= max_steps ->
             ~ reach (map (fun se => snd se mod 9) allowed) k delta_res) /\
  (forall seq, minimal_residue_combo delta_res allowed max_steps = Ok (Some seq) ->
     reach (map (fun se => snd se mod 9) allowed) (length seq) delta_res /\
     Z.of_nat (length seq) <= max_steps /\ (length seq <= 8)%nat) /\
  (exists r, minimal_residue_combo delta_res allowed max_steps = Ok r).
Proof.
  intros Hmax.
  pose proof (minimal_residue_combo_cases delta_res allowed max_steps Hmax) as H.
  destruct (minimal_residue_combo delta_res allowed max_steps) as [[seq|]|e]; [| |done].
  - destruct H as (Hreach & Hlen & H8). split; [|split].
    + split; [done|]. intros Hno. exfalso. by apply (Hno (length seq)).
    + by intros ? [= <-].
    + eauto.
  - split; [|split]; [done|done|eauto].
Qed.

Lemma minimal_residue_combo_feasible_witness :
  (minimal_residue_combo 1 [(py "!", 3)] 64 = Ok None <->
   forall k, Z.of_nat k <= 64 ->
             ~ reach (map (fun se : text * Z => snd se mod 9) [(py "!", 3)]) k 1) /\
  (forall seq, minimal_residue_combo 1 [(py "!", 3)] 64 = Ok (Some seq) ->
     reach (map (fun se : text * Z => snd se mod 9) [(py "!", 3)]) (length seq) 1 /\
     Z.of_nat (length seq) <= 64 /\ (length seq <= 8)%nat) /\
  (exists r, minimal_residue_combo 1 [(py "!", 3)] 64 = Ok r).
Proof. apply (minimal_residue_combo_feasible 1 [(py "!", 3)] 64). lia. Defined.

(** ** gdk9/optimize.py: when the insertion planner finds a plan *)

Lemma attunement_reaches_target_witness :
  string_energy ascii_only (py "ABC....") ninefold_grid
    = Ok (p_total_after (Build_Plan "append" 1 [(py ".", 4)] 6 6 10 1), 1) /\
  p_dr_after (Build_Plan "append" 1 [(py ".", 4)] 6 6 10 1) = 1.
Proof.
  apply (attunement_reaches_target ascii_only (py "ABC") 1 ninefold_grid (Some (py "."))
           "append" 64 (Build_Plan "append" 1 [(py ".", 4)] 6 6 10 1) 6 6 None
           (py "ABC...."));
    [vm_compute; reflexivity | vm_compute; reflexivity | by left | vm_compute; reflexivity].
Defined.

Lemma reach_repeat rs r (j : nat) :
  r ∈ rs -> reach rs j ((Z.of_nat j * r) mod 9).
Proof.
  intros Hr. induction j as [|j IH]; [constructor|].
  replace (Z.of_nat (S j) * r) with (Z.of_nat j * r + r) by lia.
  rewrite <- Zplus_mod_idemp_l. by constructor.
Qed.

Lemma target_residue_range total target : 0 <= _target_residue total target < 9.
Proof. unfold _target_residue. apply Z.mod_pos_bound. lia. Qed.

Section InsertionPlans.
Variable U : Unicode.

(** [allowed_pairs] returns when every symbol has an energy. *)
Lemma allowed_pairs_total l pr :
  Forall (fun s => exists e, char_energy U s pr = Ok e) l ->
  exists al, allowed_pairs U l pr = Ok al.
Proof.
  induction 1 as [|s l [e He] _ [al IH]]; cbn; [eauto|].
  rewrite He, IH. bind_simpl. eauto.
Qed.

(** The planner up to its search, for a text that is not attuned yet. *)
Lemma optimize_attunement_search txt target pr allowed_symbols method max_steps total dr
  allowed :
  string_energy U txt pr = Ok (total, dr) ->
  1 <= target <= 9 -> dr <> target ->
  allowed_pairs U (chars_of (effective_symbols allowed_symbols)) pr = Ok allowed ->
  allowed <> [] ->
  match minimal_residue_combo (_target_residue total target) allowed max_steps with
  | Ok (Some seq) =>
      exists plan,
        optimize_attunement U txt target pr allowed_symbols method max_steps = Ok plan /\
        insertions plan = Z.of_nat (length seq)
  | Ok None =>
      optimize_attunement U txt target pr allowed_symbols method max_steps
        = Err NoFeasibleCombination
  | Err _ => True
  end.
Proof.
  intros He Ht Hdr Ha Hne.
  destruct (minimal_residue_combo _ allowed max_steps) as [[seq|]|e] eqn:Hm; [| |done].
  - pose proof (allowed_pairs_enumerate U _ _ _ Ha) as Hen.
    set (counts := foldl (fun counts i => <[i := dict_get counts i 0 + 1]> counts)
                         (∅ : gmap Z Z) seq).
    assert (forall i v, counts !! i = Some v -> 1 <= v) as Hcpos.
    { apply counts_positive. intros i v. by rewrite lookup_empty. }
    destruct (steps_energy U pr counts (enumerate allowed)) as (es & Hes & _);
      [eapply Forall_impl; [exact Hen|]; by intros ? (? & _)|done|].
    unfold optimize_attunement. rewrite He. bind_simpl.
    assert ((1 <=? target) && (target <=? 9) = true) as -> by lia. cbn [negb].
    destruct (Z.eqb_spec dr target); [done|].
    fold (effective_symbols allowed_symbols). rewrite Ha. bind_simpl.
    destruct allowed as [|a al]; [done|]. rewrite Hm. bind_simpl.
    unfold build_steps_from_seq. fold counts.
    revert Hes. bind_simpl. intros ->.
    eexists. split; [done|]. unfold insertions. cbn [steps].
    apply (build_steps_from_seq_count seq (a :: al)).
    apply minimal_residue_combo_shortest in Hm as [(picks & Hpicks & _) _].
    apply picks_of_valid in Hpicks as [Hjs _]. by rewrite length_map in Hjs.
  - unfold optimize_attunement. rewrite He. bind_simpl.
    assert ((1 <=? target) && (target <=? 9) = true) as -> by lia. cbn [negb].
    destruct (Z.eqb_spec dr target); [done|].
    fold (effective_symbols allowed_symbols). rewrite Ha. bind_simpl.
    destruct allowed as [|a al]; [done|]. by rewrite Hm.
Qed.

(** X14: with a symbol among the allowed ones whose energy is no multiple
    of 3, and at least eight steps allowed, [optimize_attunement] finds a
    plan for every text and target, of at most eight insertions. *)
Theorem optimize_attunement_succeeds (txt : text) (target : Z) (pr : Principle)
  (allowed_symbols : option text) (method : string) (max_steps : Z)
  (total dr : Z) (c e : Z) :
  string_energy U txt pr = Ok (total, dr) ->
  1 <= target <= 9 ->
  Forall (fun s => exists e, char_energy U s pr = Ok e)
    (chars_of (effective_symbols allowed_symbols)) ->
  c ∈ effective_symbols allowed_symbols ->
  char_energy U [c] pr = Ok e -> e mod 3 <> 0 ->
  8 <= max_steps ->
  exists plan,
    optimize_attunement U txt target pr allowed_symbols method max_steps = Ok plan /\
    0 <= insertions plan <= 8.
Proof.
  intros He Ht Hall Hc Hce H3 Hmax.
  destruct (decide (dr = target)) as [->|Hdr].
  { eexists. unfold optimize_attunement. rewrite He. bind_simpl.
    assert ((1 <=? target) && (target <=? 9) = true) as -> by lia. cbn [negb].
    rewrite Z.eqb_refl. split; [done|]. by cbn. }
  destruct (allowed_pairs_total _ pr Hall) as [allowed Ha].
  assert (([c], e) ∈ allowed) as Hin.
  { apply (allowed_pairs_spec U _ _ _ Ha). split; [|split; [done|]].
    - unfold chars_of. apply list_elem_of_fmap. eauto.
    - intros ->. by apply H3. }
  assert (allowed <> []) as Hne by (intros ->; by apply not_elem_of_nil in Hin).
  pose proof (optimize_attunement_search txt target pr allowed_symbols method max_steps
                total dr allowed He Ht Hdr Ha Hne) as Hsearch.
  pose proof (minimal_residue_combo_cases (_target_residue total target) allowed max_steps
                ltac:(lia)) as Hcases.
  destruct (minimal_residue_combo _ allowed max_steps) as [[seq|]|err]; [| |done].
  - destruct Hsearch as (plan & Hplan & Hins). destruct Hcases as (_ & _ & H8).
    exists plan. split; [done|]. lia.
  - exfalso.
    pose proof (char_energy_range U _ _ _ Hce) as Her.
    assert (e <> 0) as He0 by (intros ->; by apply H3).
    destruct (residue_reached 0 e (_target_residue total target)) as (j & Hj & Hmod);
      [lia|done|].
    pose proof (target_residue_range total target) as Hrange.
    rewrite (Z.mod_small (_target_residue total target)) in Hmod by lia.
    apply (Hcases (Z.to_nat j)); [lia|].
    rewrite <- Hmod, Z.add_0_l, <- Zmult_mod_idemp_r.
    replace (j * (e mod 9)) with (Z.of_nat (Z.to_nat j) * (e mod 9))
      by (by rewrite Z2Nat.id by lia).
    apply reach_repeat.
    apply list_elem_of_fmap. by exists ([c], e).
Qed.

(** X15: for a text that is not attuned and allowed symbols that all have
    an energy, [optimize_attunement] raises "No feasible combination"
    exactly when some allowed symbol has an energy other than 0 and no
    sequence of at most [max_steps] such symbols has energies that add up
    to the residue that is missing. *)
Theorem no_feasible_combination_iff (txt : text) (target : Z) (pr : Principle)
  (allowed_symbols : option text) (method : string) (max_steps : Z)
  (total dr : Z) (allowed : list (text * Z)) :
  string_energy U txt pr = Ok (total, dr) ->
  1 <= target <= 9 -> dr <> target ->
  allowed_pairs U (chars_of (effective_symbols allowed_symbols)) pr = Ok allowed ->
  0 <= max_steps ->
  (optimize_attunement U txt target pr allowed_symbols method max_steps
     = Err NoFeasibleCombination <->
   allowed <> [] /\
   forall k, Z.of_nat k <= max_steps ->
             ~ reach (map (fun se => snd se mod 9) allowed) k (_target_residue total target)).
Proof.
  intros He Ht Hdr Ha Hmax.
  destruct (decide (allowed = [])) as [->|Hne].
  { split; [|by intros [? _]]. unfold optimize_attunement. rewrite He. bind_simpl.
    assert ((1 <=? target) && (target <=? 9) = true) as -> by lia. cbn [negb].
    destruct (Z.eqb_spec dr target); [done|].
    fold (effective_symbols allowed_symbols). by rewrite Ha. }
  pose proof (optimize_attunement_search txt target pr allowed_symbols method max_steps
                total dr allowed He Ht Hdr Ha Hne) as Hsearch.
  pose proof (minimal_residue_combo_cases (_target_residue total target) allowed max_steps
                Hmax) as Hcases.
  destruct (minimal_residue_combo _ allowed max_steps) as [[seq|]|err]; [| |done].
  - destruct Hsearch as (plan & -> & _). destruct Hcases as (Hreach & Hlen & _).
    split; [done|]. intros [_ Hno]. exfalso. by apply (Hno (length seq)).
  - by rewrite Hsearch.
Qed.
End InsertionPlans.

Lemma optimize_attunement_succeeds_witness :
  exists plan,
    optimize_attunement ascii_only (py "ABC") 1 ninefold_grid (Some (py "!.")) "append" 8
      = Ok plan /\
    0 <= insertions plan <= 8.
Proof.
  apply (optimize_attunement_succeeds ascii_only (py "ABC") 1 ninefold_grid
           (Some (py "!.")) "append" 8 6 6 46 1).
  - vm_compute. reflexivity.
  - lia.
  - repeat constructor; eexists; vm_compute; reflexivity.
  - vm_compute. by repeat constructor.
  - vm_compute. reflexivity.
  - done.
  - lia.
Defined.

Lemma no_feasible_combination_iff_witness :
  optimize_attunement ascii_only (py "AB") 1 ninefold_grid (Some (py "!")) "append" 64
    = Err NoFeasibleCombination <->
  [(py "!", 3)] <> [] /\
  forall k, Z.of_nat k <= 64 ->
            ~ reach (map (fun se : text * Z => snd se mod 9) [(py "!", 3)]) k
                (_target_residue 3 1).
Proof.
  apply (no_feasible_combination_iff ascii_only (py "AB") 1 ninefold_grid (Some (py "!"))
           "append" 64 3 3 [(py "!", 3)]).
  - vm_compute. reflexivity.
  - lia.
  - done.
  - vm_compute. reflexivity.
  - lia.
Defined.

(** ** gdk9/optimize.py: what apply_plan does to the text *)

Lemma interleaved_nil_l {A : Type} (l : list A) : interleaved [] l l.
Proof. induction l; by constructor. Qed.

Lemma interleaved_nil_r {A : Type} (l : list A) : interleaved l [] l.
Proof. induction l; by constructor. Qed.

Lemma interleaved_app {A : Type} (l1 l2 l r1 r2 r : list A) :
  interleaved l1 l2 l -> interleaved r1 r2 r -> interleaved (l1 ++ r1) (l2 ++ r2) (l ++ r).
Proof.
  induction 1 as [|x l1 l2 l _ IH|x l1 l2 l _ IH]; intros Hr; cbn; [done|..].
  - apply interleaved_left. by apply IH.
  - apply interleaved_right. by apply IH.
Qed.

Lemma interleaved_length {A : Type} (l1 l2 l : list A) :
  interleaved l1 l2 l -> length l = (length l1 + length l2)%nat.
Proof. induction 1; cbn; lia. Qed.

Lemma interleaved_perm {A : Type} (l1 l2 l : list A) :
  interleaved l1 l2 l -> l ≡ₚ l1 ++ l2.
Proof.
  induction 1 as [|x l1 l2 l _ IH|x l1 l2 l _ IH]; cbn; [done|by rewrite IH|].
  by rewrite IH, Permutation_middle.
Qed.

(** The intersperse loop keeps the characters and the symbols it has put
    in, each in their order. *)
Lemma intersperse_loop_interleaved interval inserts chars : forall i1 i_ins out seen out' i',
  intersperse_loop interval inserts chars i1 i_ins out = (out', i') ->
  interleaved seen (take i_ins inserts) out ->
  interleaved (seen ++ chars) (take i' inserts) out'.
Proof.
  induction chars as [|c chars IH]; intros i1 i_ins out seen out' i'; cbn.
  - intros [= <- <-]. by rewrite app_nil_r.
  - intros Hloop Hout.
    replace (seen ++ c :: chars) with ((seen ++ [c]) ++ chars) by (by rewrite <- app_assoc).
    assert (interleaved (seen ++ [c]) (take i_ins inserts) (out ++ [c])) as Hc.
    { rewrite <- (app_nil_r (take i_ins inserts)).
      apply interleaved_app; [done|]. by repeat constructor. }
    destruct (if i1 mod interval =? 0 then inserts !! i_ins else None) as [s|] eqn:E.
    + assert (inserts !! i_ins = Some s) as Hs by (by destruct (_ =? 0)).
      eapply IH; [exact Hloop|].
      rewrite (take_S_r _ _ _ Hs). rewrite <- (app_nil_r (seen ++ [c])).
      apply interleaved_app; [done|]. by repeat constructor.
    + by eapply IH.
Qed.

(** X16: [apply_plan] raises only for a plan with steps: a [ValueError] for
    a method other than append, prepend and intersperse, and for these
    three the [OverflowError] of a step whose symbol Python cannot repeat as
    often as its count.  The text it returns holds the characters of the
    given text and the symbols of the plan, each as often as its count, both
    in their order: after the text for append, before it for prepend. *)
Theorem apply_plan_keeps_text (txt : text) (plan : Plan) (spread : option Z) :
  match apply_plan txt plan spread with
  | Ok out =>
      (exists pieces, out = concat pieces /\
         interleaved (chars_of txt) (symbols_of (steps plan)) pieces) /\
      length out = (length txt + length (concat (symbols_of (steps plan))))%nat /\
      (p_method plan = "append"%string -> out = txt ++ concat (symbols_of (steps plan))) /\
      (p_method plan = "prepend"%string -> out = concat (symbols_of (steps plan)) ++ txt)
  | Err e =>
      steps plan <> [] /\
      ((e = UnsupportedMethod (p_method plan) /\
        p_method plan <> "append"%string /\ p_method plan <> "prepend"%string /\
        p_method plan <> "intersperse"%string) \/
       (e = OverflowError /\
        (p_method plan = "append"%string \/ p_method plan = "prepend"%string \/
         p_method plan = "intersperse"%string) /\
        Exists (fun sc : text * Z => str_mul (fst sc) (snd sc) = Err OverflowError)
          (steps plan)))
  end.
Proof.
  assert (concat (chars_of txt) = txt) as Htxt.
  { unfold chars_of. induction txt as [|c t IH]; cbn; [done|]. by rewrite IH. }
  assert (flat_map (fun sc : text * Z => str_repeat (fst sc) (snd sc)) (steps plan)
          = concat (symbols_of (steps plan))) as Hsuffix.
  { unfold symbols_of, str_repeat.
    induction (steps plan) as [|[s c] l IH]; [done|].
    cbn [flat_map fst snd]. by rewrite concat_app, IH. }
  assert (forall pieces,
            interleaved (chars_of txt) (symbols_of (steps plan)) pieces ->
            length (concat pieces)
            = (length txt + length (concat (symbols_of (steps plan))))%nat) as Hlen.
  { intros pieces Hi. apply interleaved_perm in Hi.
    rewrite Hi, concat_app, length_app. by rewrite Htxt. }
  unfold apply_plan. destruct (steps plan) as [|st sts] eqn:Hsteps.
  { cbn. rewrite app_nil_r. split; [|split; [lia|split; [done|done]]].
    exists (chars_of txt). split; [done|apply interleaved_nil_r]. }
  rewrite <- Hsteps in *.
  assert (steps plan <> []) as Hne by (by rewrite Hsteps).
  clear Hsteps st sts.
  destruct (String.eqb_spec (p_method plan) "append") as [Ha|Ha].
  { destruct (mapM _ _) as [parts|e] eqn:Ep; bind_simpl.
    2: { apply mapM_str_mul_error in Ep as [-> Hex]. split; [done|]. right. auto. }
    apply mapM_str_mul in Ep. rewrite Ep.
    rewrite Hsuffix. split; [|split; [by rewrite length_app|split; [done|]]].
    - exists (chars_of txt ++ symbols_of (steps plan)).
      rewrite concat_app, Htxt. split; [done|].
      rewrite <- (app_nil_r (chars_of txt)) at 1.
      rewrite <- (app_nil_l (symbols_of (steps plan))) at 1.
      apply interleaved_app; [apply interleaved_nil_r|apply interleaved_nil_l].
    - by rewrite Ha. }
  destruct (String.eqb_spec (p_method plan) "prepend") as [Hp|Hp].
  { destruct (mapM _ _) as [parts|e] eqn:Ep; bind_simpl.
    2: { apply mapM_str_mul_error in Ep as [-> Hex]. split; [done|]. right. auto. }
    apply mapM_str_mul in Ep. rewrite Ep.
    rewrite Hsuffix. split; [|split; [rewrite length_app; lia|split; [done|done]]].
    exists (symbols_of (steps plan) ++ chars_of txt).
    rewrite concat_app, Htxt. split; [done|].
    rewrite <- (app_nil_l (chars_of txt)) at 1.
    rewrite <- (app_nil_r (symbols_of (steps plan))) at 1.
    apply interleaved_app; [apply interleaved_nil_l|apply interleaved_nil_r]. }
  destruct (String.eqb_spec (p_method plan) "intersperse") as [Hi|Hi];
    [|split; [done|by left]].
  destruct (mapM _ _) as [parts|e] eqn:Ep; bind_simpl.
  2: { apply mapM_list_mul_error in Ep as [-> Hex]. split; [done|]. right. auto. }
  apply mapM_list_mul in Ep. rewrite Ep.
  assert (forall out,
            (exists pieces, out = concat pieces /\
               interleaved (chars_of txt) (symbols_of (steps plan)) pieces) ->
            (exists pieces, out = concat pieces /\
               interleaved (chars_of txt) (symbols_of (steps plan)) pieces) /\
            length out = (length txt + length (concat (symbols_of (steps plan))))%nat /\
            (p_method plan = "append"%string ->
             out = txt ++ concat (symbols_of (steps plan))) /\
            (p_method plan = "prepend"%string ->
             out = concat (symbols_of (steps plan)) ++ txt)) as Hall.
  { intros out Hex. split; [done|]. destruct Hex as (pieces & -> & Hpieces).
    split; [by apply Hlen|]. split; congruence. }
  destruct (chars_of txt) as [|c0 cs] eqn:Hchars.
  { apply Hall. exists (symbols_of (steps plan)). split; [done|apply interleaved_nil_l]. }
  rewrite <- Hchars in *. clear Hchars c0 cs.
  match goal with |- context [if ?b then _ else _] => destruct b eqn:Hn end.
  { apply Hall. exists (chars_of txt). split; [by rewrite Htxt|].
    apply Z.eqb_eq in Hn. destruct (symbols_of (steps plan)); [|cbn in Hn; lia].
    apply interleaved_nil_r. }
  set (interval := match spread with Some s => _ | None => _ end).
  destruct (intersperse_loop interval _ _ _ _ _) as [out i_ins] eqn:Hloop.
  apply Hall. exists (out ++ drop i_ins (symbols_of (steps plan))). split; [done|].
  pose proof (intersperse_loop_interleaved _ _ _ _ _ _ [] _ _ Hloop) as Hil.
  cbn [take app] in Hil. specialize (Hil interleaved_nil).
  rewrite <- (app_nil_r (chars_of txt)).
  rewrite <- (take_drop i_ins (symbols_of (steps plan))) at 1.
  apply interleaved_app; [done|apply interleaved_nil_l].
Qed.

(** ** gdk9/optimize.py: the exceptions of apply_edit_plan *)

Lemma buildable_true (l : list EditOp) :
  buildable l = true <->
  Forall (fun op => kind op = "ins"%string -> exists s, insert_str_of op = Ok s) l.
Proof.
  unfold buildable. induction l as [|op l IH]; [split; [constructor|done]|].
  rewrite filter_kind_cons, Forall_cons. unfold has_kind at 1.
  destruct (String.eqb_spec (kind op) "ins") as [Hk|Hk].
  - cbn [forallb]. rewrite andb_true_iff, IH. unfold can_build.
    destruct (insert_str_of op) as [s|e]; split.
    + intros [_ H]. split; [eauto|done].
    + intros [_ H]. done.
    + intros [? _]. done.
    + intros [H _]. by destruct (H Hk).
  - rewrite IH. split; [by intros H|by intros [_ ?]].
Qed.

Lemma buildable_false (l : list EditOp) :
  buildable l = false <->
  Exists (fun op => kind op = "ins"%string /\ insert_str_of op = Err OverflowError) l.
Proof.
  unfold buildable. induction l as [|op l IH]; [split; [done|by intros ?%Exists_nil]|].
  rewrite filter_kind_cons, Exists_cons. unfold has_kind at 1.
  destruct (String.eqb_spec (kind op) "ins") as [Hk|Hk].
  - cbn [forallb]. rewrite andb_false_iff, IH. unfold can_build.
    destruct (insert_str_of op) as [s|e] eqn:Es; split.
    + intros [?|H]; [done|by right].
    + intros [[_ ?]|H]; [done|by right].
    + intros _. left. split; [done|]. by apply str_mul_error in Es as ->.
    + intros _. by left.
  - rewrite IH. split; [by right|by intros [[? _]|?]].
Qed.

(** X17: [apply_edit_plan] raises exactly when the plan holds an insertion
    whose string Python cannot build, wherever that insertion points, and
    what it raises then is the [OverflowError] of the repetition; for every
    other plan it returns a text. *)
Theorem apply_edit_plan_raises (txt : text) (plan : EditPlan) :
  (forall e, apply_edit_plan txt plan = Err e -> e = OverflowError) /\
  (apply_edit_plan txt plan = Err OverflowError <->
   Exists (fun op => kind op = "ins"%string /\ insert_str_of op = Err OverflowError)
     (ops plan)) /\
  ((exists out, apply_edit_plan txt plan = Ok out) <->
   Forall (fun op => kind op = "ins"%string -> exists s, insert_str_of op = Ok s)
     (ops plan)).
Proof.
  rewrite <- buildable_true, <- buildable_false, apply_edit_plan_run.
  destruct (buildable (ops plan)); repeat split; try done.
  - eauto.
  - by intros e [= <-].
  - by intros [? ?].
Qed.

(** ** gdk9/optimize.py: the deletions of an edit plan *)

Lemma remove_at_none {A : Type} ps i (l : list A) :
  Forall (fun p => p < i) ps -> remove_at ps i l = l.
Proof.
  revert i. induction l as [|x l IH]; intros i Hps; cbn; [done|].
  rewrite bool_decide_eq_false_2.
  - f_equal. apply IH. eapply Forall_impl; [exact Hps|]. cbn. lia.
  - intros Hin. rewrite Forall_forall in Hps. apply Hps in Hin. lia.
Qed.

Lemma remove_at_ext {A : Type} ps ps' i (l : list A) :
  (forall p, p ∈ ps <-> p ∈ ps') -> remove_at ps i l = remove_at ps' i l.
Proof.
  intros Hps. revert i. induction l as [|x l IH]; intros i; cbn; [done|].
  rewrite (bool_decide_ext _ _ (Hps i)), !IH. done.
Qed.

(** A position outside the list removes nothing. *)
Lemma remove_at_outside {A : Type} p qs i (l : list A) :
  p < i \/ i + Z.of_nat (length l) <= p ->
  remove_at (p :: qs) i l = remove_at qs i l.
Proof.
  revert i. induction l as [|x l IH]; intros i Hp; cbn; [done|].
  cbn [length] in Hp.
  rewrite (bool_decide_ext (i ∈ p :: qs) (i ∈ qs)).
  - rewrite !IH by lia. done.
  - rewrite elem_of_cons. split; [intros [->|?]; [lia|done]|by right].
Qed.

(** Deleting the highest position first leaves the lower ones where they
    are. *)
Lemma remove_at_delete {A : Type} p qs i (l : list A) :
  Forall (fun q => q < p) qs -> i <= p < i + Z.of_nat (length l) ->
  remove_at qs i (delete (Z.to_nat (p - i)) l) = remove_at (p :: qs) i l.
Proof.
  intros Hqs. revert i. induction l as [|x l IH]; intros i Hp; cbn [length] in Hp; [lia|].
  destruct (decide (p = i)) as [->|Hne].
  - rewrite Z.sub_diag. cbn.
    rewrite bool_decide_eq_true_2 by (by left).
    rewrite !remove_at_none; [done| |done].
    constructor; [lia|]. eapply Forall_impl; [exact Hqs|]. cbn. lia.
  - replace (Z.to_nat (p - i)) with (S (Z.to_nat (p - (i + 1)))) by lia.
    cbn. rewrite (bool_decide_ext (i ∈ p :: qs) (i ∈ qs)).
    + rewrite IH by lia. done.
    + rewrite elem_of_cons. split; [intros [->|?]; done|by right].
Qed.

Lemma remove_at_chars ps i (txt : text) :
  concat (remove_at ps i (map (fun c => [c]) txt)) = remove_at ps i txt.
Proof.
  revert i. induction txt as [|c txt IH]; intros i; cbn; [done|].
  destruct (bool_decide (i ∈ ps)); cbn; by rewrite IH.
Qed.


(** In a list in descending order no position is above the first. *)
Lemma sorted_desc_head x l :
  is_sorted Z.geb (x :: l) -> Forall (fun y => pos y <= pos x) l.
Proof.
  revert x. induction l as [|y l IH]; intros x; [constructor|].
  intros [Hxy Hl]. constructor; [lia|].
  eapply Forall_impl; [by apply IH|]. cbn. lia.
Qed.

(** The deletion loop on positions in strictly descending order removes
    the characters at these positions. *)
Lemma foldl_apply_del (l : list EditOp) : forall chars : list text,
  is_sorted Z.geb l -> NoDup (map pos l) ->
  foldl apply_del chars l = remove_at (map pos l) 0 chars.
Proof.
  induction l as [|op l IH]; intros chars Hs Hnd; cbn [foldl map].
  - by rewrite remove_at_none.
  - pose proof (sorted_desc_head _ _ Hs) as Hhead.
    apply NoDup_cons in Hnd as [Hnin Hnd].
    assert (Forall (fun q => q < pos op) (map pos l)) as Hlt.
    { apply Forall_fmap. rewrite Forall_forall in Hhead |- *. intros y Hy. cbn.
      specialize (Hhead y Hy).
      assert (pos y <> pos op); [|lia].
      intros Heq. apply Hnin. rewrite <- Heq. apply list_elem_of_fmap. eauto. }
    rewrite IH; [|by destruct Hs|done].
    unfold apply_del, in_range.
    destruct (Z.leb_spec 0 (pos op)); cbn [andb].
    + destruct (Z.ltb_spec (pos op) (Z.of_nat (length chars))).
      * rewrite <- (remove_at_delete (pos op)) by (done || lia).
        by rewrite Z.sub_0_r.
      * rewrite remove_at_outside by lia. done.
    + rewrite remove_at_outside by lia. done.
Qed.

(** X18: a plan of deletions at positions that are all different removes
    exactly the characters the text has at these positions, in whatever
    order the plan lists them; positions the text does not have remove
    nothing. *)
Theorem deletions_remove_positions (txt : text) (plan : EditPlan) :
  Forall (fun op => kind op = "del"%string) (ops plan) ->
  NoDup (map pos (ops plan)) ->
  apply_edit_plan txt plan = Ok (remove_at (map pos (ops plan)) 0 txt).
Proof.
  intros Hdel Hnd. rewrite apply_edit_plan_run, buildable_no_ins.
  2: { eapply Forall_impl; [exact Hdel|]. cbn. unfold has_kind. by intros op ->. }
  f_equal. unfold run_edits.
  assert (filter (fun op => has_kind "del" op = true) (ops plan) = ops plan) as ->.
  { induction Hdel as [|op l Hk _ IH]; [done|].
    rewrite filter_kind_cons. unfold has_kind at 1. rewrite Hk. cbn.
    apply NoDup_cons in Hnd as [_ Hnd]. by rewrite IH. }
  rewrite !filter_kind_none; cycle 1.
  { eapply Forall_impl; [exact Hdel|]. cbn. by intros op ->. }
  { eapply Forall_impl; [exact Hdel|]. cbn. by intros op ->. }
  cbn [foldl sorted_asc sorted_by foldr].
  pose proof (sorted_by_perm Z.geb (ops plan)) as Hperm.
  rewrite foldl_apply_del.
  - rewrite remove_at_chars. apply remove_at_ext. intros p.
    by rewrite Hperm.
  - apply sorted_by_sorted, geb_total.
  - by rewrite Hperm.
Qed.

Lemma deletions_remove_positions_witness :
  apply_edit_plan (py "abcdef")
    (edit_plan_of [Build_EditOp "del" 1 None 1; Build_EditOp "del" 9 None 1;
                   Build_EditOp "del" 4 None 1])
  = Ok (remove_at (map pos (ops (edit_plan_of [Build_EditOp "del" 1 None 1;
                                               Build_EditOp "del" 9 None 1;
                                               Build_EditOp "del" 4 None 1])))
          0 (py "abcdef")).
Proof.
  apply (deletions_remove_positions (py "abcdef")
           (edit_plan_of [Build_EditOp "del" 1 None 1; Build_EditOp "del" 9 None 1;
                          Build_EditOp "del" 4 None 1])).
  - by repeat constructor.
  - apply (bool_decide_unpack _). vm_compute. exact I.
Defined.

(** ** gdk9/optimize.py: when the edit planner finds no plan *)

Lemma foldl_invariant_in {S A : Type} (g : S -> A -> S) (I : S -> Prop) l :
  (forall st y, y ∈ l -> I st -> I (g st y)) ->
  forall init, I init -> I (foldl g init l).
Proof.
  induction l as [|x l IH]; intros Hg init Hinit; cbn; [done|].
  apply IH.
  - intros st y Hy. apply Hg. by right.
  - apply Hg; [by left|done].
Qed.

(** One option applied to a slot that stands for a choice over the
    positions before. *)
Lemma dp_option_sound max_edits pds opts i res cnt (nb : odict best_entry) o :
  dp_sound max_edits (pds ++ [opts]) nb ->
  o ∈ opts ->
  (exists sel, selects pds sel /\ selection_delta sel mod 9 = res /\
               Z.of_nat (edits sel) = cnt) ->
  dp_sound max_edits (pds ++ [opts]) (dp_option max_edits i res cnt nb o).
Proof.
  intros Hnb Ho (sel & Hsel & Hdelta & Hedits). unfold dp_option.
  destruct (Z.gtb_spec (cnt + 1) max_edits) as [Hgt|Hle]; [done|].
  assert (dp_sound max_edits (pds ++ [opts])
            (od_set nb ((res + fst o) mod 9) ((cnt + 1, res, (i, fst o, snd o)) : best_entry)))
    as Hset.
  { intros k e. destruct (decide ((res + fst o) mod 9 = k)) as [<-|Hne].
    - rewrite od_get_set_eq. intros [= <-].
      exists (sel ++ [Some o]). split; [|split; [|split]].
      + apply Forall2_app; [done|]. by repeat constructor.
      + rewrite selection_delta_snoc, <- Hdelta. by rewrite Zplus_mod_idemp_l.
      + rewrite edits_snoc. cbn. lia.
      + left. cbn. lia.
    - rewrite od_get_set_ne by done. apply Hnb. }
  destruct (od_get nb ((res + fst o) mod 9)) as [e|]; [|done].
  by destruct (_ <? _).
Qed.

(** One position more: the slots stand for choices over one position more. *)
Lemma dp_position_sound max_edits pds opts i (best : odict best_entry) :
  dp_wf best -> dp_sound max_edits pds best ->
  dp_sound max_edits (pds ++ [opts]) (dp_position max_edits best (i, opts)).
Proof.
  intros Hwf Hs. unfold dp_position. cbn [fst snd].
  apply (foldl_invariant_in _ (dp_sound max_edits (pds ++ [opts]))).
  - intros st [res e] Hin Hst. cbn [fst snd].
    apply od_elem_get in Hin; [|apply (dw_keys _ Hwf)].
    destruct (Hs _ _ Hin) as (sel & Hsel & Hdelta & Hedits & _).
    apply (foldl_invariant_in _ (dp_sound max_edits (pds ++ [opts]))); [|done].
    intros st' o Ho Hst'. apply dp_option_sound; [done|done|].
    exists sel. by repeat split.
  - intros k e He. destruct (Hs _ _ He) as (sel & Hsel & Hdelta & Hedits & Hmax).
    exists (sel ++ [None]). split; [|split; [|split]].
    + apply Forall2_app; [done|]. by repeat constructor.
    + by rewrite selection_delta_snoc, Z.add_0_r.
    + rewrite edits_snoc. lia.
    + done.
Qed.

(** The table after all positions holds slots of choices only. *)
Lemma dp_table_sound max_edits pos_deltas :
  dp_sound max_edits pos_deltas (dp_table max_edits pos_deltas).
Proof.
  induction pos_deltas as [|opts pds IH] using rev_ind.
  - intros k e [-> ->]%best_init_get. exists []. split; [constructor|]. cbn. auto.
  - pose proof (dp_table_spec max_edits pds) as [Hwf _].
    unfold dp_table, enumerate in *.
    rewrite enumerate_from_snoc, foldl_app. cbn [foldl].
    by apply dp_position_sound.
Qed.

(** The table has a slot for a residue exactly when a choice of at most
    [max_edits] edits has this residue. *)
Lemma dp_table_slot max_edits pos_deltas k :
  0 <= max_edits ->
  (od_get (dp_table max_edits pos_deltas) k = None <->
   forall sel, selects pos_deltas sel -> Z.of_nat (edits sel) <= max_edits ->
               selection_delta sel mod 9 <> k).
Proof.
  intros Hmax. split.
  - intros Hnone sel Hsel Hedits Hdelta.
    destruct (dp_table_spec max_edits pos_deltas) as [_ Hcomp].
    destruct (Hcomp sel Hsel Hedits) as (e & He & _). congruence.
  - intros Hno. destruct (od_get _ k) as [e|] eqn:He; [exfalso|done].
    destruct (dp_table_sound max_edits pos_deltas k e He)
      as (sel & Hsel & Hdelta & Hedits & Hcount).
    apply (Hno sel Hsel); [lia|done].
Qed.

Section EditPlans.
Variable U : Unicode.

(** The insertion planner never raises the error of the edit planner. *)
Lemma optimize_attunement_no_edit_error txt target pr allowed_symbols method max_steps :
  optimize_attunement U txt target pr allowed_symbols method max_steps
    <> Err NoFeasibleEdit.
Proof.
  unfold optimize_attunement.
  destruct (string_energy U txt pr) as [[total dr]|e0] eqn:Ee; bind_simpl.
  2: { intros [= ->]. apply string_energy_error in Ee. by destruct Ee. }
  destruct (negb _); [done|].
  destruct (dr =? target); [done|].
  destruct (allowed_pairs U _ pr) as [[|a al]|e0] eqn:Ea; bind_simpl; [done| |].
  - destruct (minimal_residue_combo _ _ _) as [[seq|]|e0] eqn:Em; bind_simpl.
    + destruct (mapM _ _) as [es|e0] eqn:Es; bind_simpl; [done|].
      intros [= ->].
      assert (builtin_error NoFeasibleEdit) as [|]; [|done|done].
      eapply mapM_error; [|exact Es].
      intros [s c] e'. cbn. destruct (char_energy U s pr) eqn:Ec; bind_simpl; [done|].
      intros [= <-]. by eapply char_energy_error.
    + done.
    + intros [= ->]. apply minimal_residue_combo_error in Em. by destruct Em.
  - intros [= ->]. apply allowed_pairs_error in Ea. by destruct Ea.
Qed.

(** X19: for a text that is not attuned yet, [optimize_substitution] raises
    "No feasible substitution/deletion plan" exactly when no insertion
    symbols are given and no choice of at most [max_edits] edits, at most
    one of its options for each position, adds up to the residue that is
    missing. *)
Theorem no_feasible_edit_iff (txt : text) (target : Z) (pr : Principle)
  (subs : option (gmap text (list text))) (allow_delete : bool)
  (allowed_inserts : option text) (max_edits : Z) (total dr : Z)
  (pos_deltas : list (list edit_option)) :
  string_energy U txt pr = Ok (total, dr) ->
  1 <= target <= 9 -> dr <> target ->
  pos_deltas_of U pr subs allow_delete txt = Ok pos_deltas ->
  0 <= max_edits ->
  (optimize_substitution U txt target pr subs allow_delete allowed_inserts max_edits
     = Err NoFeasibleEdit <->
   (allowed_inserts = None \/ allowed_inserts = Some []) /\
   forall sel, selects pos_deltas sel -> Z.of_nat (edits sel) <= max_edits ->
               selection_delta sel mod 9 <> _target_residue total target).
Proof.
  intros He Ht Hdr Hpd Hmax.
  rewrite <- (dp_table_slot max_edits pos_deltas _ Hmax).
  unfold optimize_substitution. unfold pos_deltas_of in Hpd. rewrite He. bind_simpl.
  assert ((1 <=? target) && (target <=? 9) = true) as -> by lia. cbn [negb].
  destruct (Z.eqb_spec dr target); [done|].
  rewrite Hpd. bind_simpl.
  destruct (od_get _ (_target_residue total target)) as [e|] eqn:Hget.
  - destruct (reconstruct_total _ _ _ _ Hget) as [l Hl]. rewrite Hl. bind_simpl.
    split; [|by intros [_ ?]].
    destruct (planner_edits_apply txt (reverse l) "edit" target total dr total dr)
      as [out Hout].
    { apply Forall_reverse. eapply reconstruct_no_ins; [exact Hl|constructor]. }
    rewrite Hout. bind_simpl.
    destruct (string_energy U out pr) as [[nt nd]|e0] eqn:Eo; bind_simpl; [done|].
    intros [= ->]. apply string_energy_error in Eo. by destruct Eo.
  - destruct allowed_inserts as [[|c s]|].
    + split; [auto|done].
    + split; [|by intros [[?|?] _]].
      pose proof (optimize_attunement_no_edit_error txt target pr (Some (c :: s))
                    "append" 64) as Hatt.
      destruct (optimize_attunement U txt target pr _ "append" 64) as [plan|e0] eqn:Ea;
        bind_simpl; [|congruence].
      destruct (fallback_edits_apply U _ _ _ _ _ _ _ txt (Z.of_nat (length txt))
                  "edit" target total dr total dr Ea) as [out Hout].
      rewrite Hout. bind_simpl.
      destruct (string_energy U out pr) as [[nt nd]|e0] eqn:Eo; bind_simpl; [done|].
      intros [= ->]. apply string_energy_error in Eo. by destruct Eo.
    + split; [auto|done].
Qed.
End EditPlans.

Lemma no_feasible_edit_iff_witness :
  optimize_substitution ascii_only (py "1") 3 ninefold_grid None false None 8
    = Err NoFeasibleEdit <->
  ((None : option text) = None \/ (None : option text) = Some []) /\
  forall sel, selects [[]] sel -> Z.of_nat (edits sel) <= 8 ->
              selection_delta sel mod 9 <> _target_residue 1 3.
Proof.
  apply (no_feasible_edit_iff ascii_only (py "1") 3 ninefold_grid None false None 8 1 1
           [[]]).
  - vm_compute. reflexivity.
  - lia.
  - done.
  - vm_compute. reflexivity.
  - lia.
Defined.

(** ** gdk9/optimize.py: the insertion fallback of the edit planner *)

(** Sorting operations that all have the same position changes nothing. *)
Lemma sorted_asc_same_pos n (l : list EditOp) :
  Forall (fun op => pos op = n) l -> sorted_asc l = l.
Proof.
  unfold sorted_asc, sorted_by. induction 1 as [|x l Hx Hl IH]; cbn [foldr]; [done|].
  rewrite IH. destruct Hl as [|y l Hy _]; cbn; [done|].
  by rewrite Hx, Hy, Z.leb_refl.
Qed.

(** Insertions at the end of the given text: each goes in right after the
    text, before what was put in earlier. *)
Lemma foldl_apply_ins_end (txt : text) (l : list (text * Z)) : forall acc : text,
  Forall (fun sc : text * Z => 1 <= snd sc) l ->
  foldl place_ins (map (fun c => [c]) (txt ++ acc))
    (map (fun sc : text * Z =>
            Build_EditOp "ins" (Z.of_nat (length txt)) (Some (fst sc)) (snd sc)) l)
  = map (fun c => [c])
      (txt ++ concat (reverse (map (fun sc : text * Z => str_repeat (fst sc) (snd sc)) l))
           ++ acc).
Proof.
  assert (forall t : text, concat (map (fun c => [c]) t) = t) as Hjoin.
  { induction t as [|c t IH]; cbn; [done|]. by rewrite IH. }
  induction l as [|[s c] l IH]; intros acc Hc; cbn [map foldl]; [done|].
  apply Forall_cons in Hc as [Hc1 Hc]. cbn [snd] in Hc1.
  unfold place_ins at 2. cbn [pos ch count default].
  rewrite length_map, length_app.
  assert ((0 <=? Z.of_nat (length txt))
          && (Z.of_nat (length txt) <=? Z.of_nat (length txt + length acc)) = true)
    as -> by (apply andb_true_iff; split; apply Z.leb_le; lia).
  rewrite Nat2Z.id, firstn_map, skipn_map, !Hjoin.
  rewrite take_app_length, drop_app_length.
  unfold id. cbn [fst snd]. rewrite Z.max_r by lia.
  rewrite IH by done. f_equal. f_equal.
  rewrite reverse_cons, concat_app. cbn [concat]. by rewrite app_nil_r, <- app_assoc.
Qed.

Lemma symbols_of_blocks (l : list (text * Z)) :
  Forall (fun s : text => exists c, s = [c]) (symbols_of l) ->
  chars_of (concat (reverse (map (fun sc : text * Z => str_repeat (fst sc) (snd sc)) l)))
  ≡ₚ symbols_of l.
Proof.
  unfold symbols_of. induction l as [|[s c] l IH]; intros Hs; [done|].
  cbn [map flat_map fst snd] in *. apply Forall_app in Hs as [Hs1 Hs2].
  rewrite reverse_cons, concat_app, chars_of_app, IH by done. cbn [concat].
  rewrite app_nil_r, Permutation_app_comm. apply Permutation_app_tail.
  unfold str_repeat. by rewrite chars_of_concat.
Qed.

Section Fallback.
Variable U : Unicode.

(** X20: when no choice of at most [max_edits] substitutions and deletions
    adds up to the missing residue and insertion symbols are given, a plan
    [optimize_substitution] returns is the plan of [optimize_attunement]
    for these symbols, an insertion at the end of the text for every step:
    applied, it gives the text followed by the symbols of the steps, with
    the totals the plan records and the target as its digital root. *)
Theorem insertion_fallback_reaches_target (txt : text) (target : Z) (pr : Principle)
  (subs : option (gmap text (list text))) (allow_delete : bool)
  (symbols : text) (max_edits : Z) (total dr : Z)
  (pos_deltas : list (list edit_option)) (eplan : EditPlan) :
  optimize_substitution U txt target pr subs allow_delete (Some symbols) max_edits
    = Ok eplan ->
  string_energy U txt pr = Ok (total, dr) ->
  pos_deltas_of U pr subs allow_delete txt = Ok pos_deltas ->
  0 <= max_edits ->
  (forall sel, selects pos_deltas sel -> Z.of_nat (edits sel) <= max_edits ->
               selection_delta sel mod 9 <> _target_residue total target) ->
  exists plan suffix,
    optimize_attunement U txt target pr (Some symbols) "append" 64 = Ok plan /\
    ops eplan = map (fun sc : text * Z =>
                       Build_EditOp "ins" (Z.of_nat (length txt)) (Some (fst sc)) (snd sc))
                    (steps plan) /\
    apply_edit_plan txt eplan = Ok (txt ++ suffix) /\
    chars_of suffix ≡ₚ symbols_of (steps plan) /\
    string_energy U (txt ++ suffix) pr = Ok (e_total_after eplan, target) /\
    e_total_after eplan = p_total_after plan /\
    e_dr_after eplan = target.
Proof.
  intros Hopt He Hpd Hmax Hno.
  pose proof (string_energy_total U _ _ _ _ He) as [Htot Hdr].
  apply (dp_table_slot max_edits pos_deltas _ Hmax) in Hno as Hget.
  assert (_target_residue total target <> 0) as Hdelta.
  { intros H0. destruct (dp_table_spec max_edits pos_deltas) as [Hwf _].
    pose proof (dw_root _ Hwf) as Hroot. congruence. }
  revert Hopt. unfold optimize_substitution. unfold pos_deltas_of in Hpd.
  rewrite He. bind_simpl.
  destruct (negb _) eqn:Hrange; [done|].
  assert (1 <= target <= 9) as Ht by (apply negb_false_iff in Hrange; lia).
  destruct (Z.eqb_spec dr target) as [->|Hne].
  { exfalso. apply Hdelta. unfold _target_residue, _residue.
    rewrite Hdr, digital_root_nonneg_mod by done. by rewrite Z.sub_diag. }
  rewrite Hpd. bind_simpl. rewrite Hget.
  destruct symbols as [|c0 s0]; [intros [=]|].
  destruct (optimize_attunement U txt target pr _ "append" 64)
    as [plan|] eqn:Hplan; bind_simpl; [|intros [=]].
  assert (normalize_zero_to_nine pr = true \/ 0 < total \/ target <> 9) as Hcase.
  { destruct (normalize_zero_to_nine pr); [by left|right].
    destruct (decide (0 < total)); [by left|right]. intros ->.
    apply Hdelta. assert (total = 0) as -> by lia. done. }
  destruct (attunement_plan_energy U _ _ _ _ _ _ _ _ _ Hplan He Hcase)
    as (Hsym & Hsing & Hcounts & Hroot & Hdra).
  set (ops' := map (fun sc : text * Z =>
                      Build_EditOp "ins" (Z.of_nat (length txt)) (Some (fst sc)) (snd sc))
                   (steps plan)).
  set (suffix := concat (reverse (map (fun sc : text * Z => str_repeat (fst sc) (snd sc))
                                      (steps plan)))).
  assert (forall m t tb db ta da,
            apply_edit_plan txt (Build_EditPlan m t ops' tb db ta da) = Ok (txt ++ suffix))
    as Happly.
  { intros. rewrite apply_edit_plan_run. cbn [ops].
    rewrite buildable_all; cycle 1.
    { unfold ops'. apply Forall_fmap.
      eapply Forall_impl; [by eapply attunement_steps_small|].
      intros [s c] [[x Hx] Hc]. cbn [fst snd] in *. subst s.
      unfold compose, can_build, insert_str_of. cbn [ch count fst snd].
      change (default [] (Some [x])) with [x].
      rewrite str_mul_char; [done|]. unfold index_max. lia. }
    f_equal. unfold run_edits.
    assert (Forall (fun op => kind op = "ins"%string) ops') as Hins.
    { unfold ops'. apply Forall_fmap, Forall_true. done. }
    assert (filter (fun op => has_kind "ins" op = true) ops' = ops') as ->.
    { clear -Hins. induction Hins as [|op l Hk _ IH]; [done|].
      rewrite filter_kind_cons. unfold has_kind at 1. rewrite Hk. cbn. by rewrite IH. }
    rewrite !filter_kind_none; cycle 1.
    { eapply Forall_impl; [exact Hins|]. cbn. by intros op ->. }
    { eapply Forall_impl; [exact Hins|]. cbn. by intros op ->. }
    cbn [sorted_desc sorted_by foldr foldl].
    rewrite (sorted_asc_same_pos (Z.of_nat (length txt)))
      by (unfold ops'; apply Forall_fmap, Forall_true; done).
    pose proof (foldl_apply_ins_end txt (steps plan) [] Hcounts) as Hfold.
    rewrite !app_nil_r in Hfold. unfold ops'. rewrite Hfold.
    fold suffix. generalize (txt ++ suffix). clear.
    intros t. induction t as [|c t IH]; cbn; [done|]. by rewrite IH. }
  rewrite Happly. bind_simpl.
  assert (total_energy U pr (chars_of (txt ++ suffix)) (p_total_after plan)) as Hout.
  { replace (p_total_after plan) with (total + (p_total_after plan - total)) by lia.
    rewrite chars_of_app. apply total_energy_app; [by eapply total_energy_string_energy|].
    eapply total_energy_perm; [|exact Hsym]. symmetry. by apply symbols_of_blocks. }
  rewrite (string_energy_total_energy U pr _ _ Hout). bind_simpl.
  intros [= <-]. cbn [ops e_total_after e_dr_after].
  exists plan, suffix. split; [done|]. split; [done|]. split; [apply Happly|].
  split; [by apply symbols_of_blocks|].
  rewrite (string_energy_total_energy U pr _ _ Hout), Hroot. done.
Qed.
End Fallback.

Lemma insertion_fallback_reaches_target_witness :
  exists plan suffix,
    optimize_attunement ascii_only (py "1") 3 ninefold_grid (Some (py ".")) "append" 64
      = Ok plan /\
    ops (Build_EditPlan "edit" 3 [Build_EditOp "ins" 1 (Some (py ".")) 2] 1 1 3 3)
      = map (fun sc : text * Z =>
               Build_EditOp "ins" (Z.of_nat (length (py "1"))) (Some (fst sc)) (snd sc))
            (steps plan) /\
    apply_edit_plan (py "1")
      (Build_EditPlan "edit" 3 [Build_EditOp "ins" 1 (Some (py ".")) 2] 1 1 3 3)
      = Ok (py "1" ++ suffix) /\
    chars_of suffix ≡ₚ symbols_of (steps plan) /\
    string_energy ascii_only (py "1" ++ suffix) ninefold_grid
      = Ok (e_total_after
              (Build_EditPlan "edit" 3 [Build_EditOp "ins" 1 (Some (py ".")) 2] 1 1 3 3), 3) /\
    e_total_after (Build_EditPlan "edit" 3 [Build_EditOp "ins" 1 (Some (py ".")) 2] 1 1 3 3)
      = p_total_after plan /\
    e_dr_after (Build_EditPlan "edit" 3 [Build_EditOp "ins" 1 (Some (py ".")) 2] 1 1 3 3) = 3.
Proof.
  apply (insertion_fallback_reaches_target ascii_only (py "1") 3 ninefold_grid None false
           (py ".") 8 1 1 [[]]).
  - vm_compute. reflexivity.
  - vm_compute. reflexivity.
  - vm_compute. reflexivity.
  - lia.
  - intros sel Hsel _.
    apply Forall2_cons_inv_l in Hsel as (c & sel' & Hc & ->%Forall2_nil_inv_l & ->).
    destruct c as [o|]; [by apply not_elem_of_nil in Hc|]. by vm_compute.
Defined.

(** ** gdk9/optimize.py: the plans of the planners can be applied *)

Lemma apply_edit_plan_ops txt (p p' : EditPlan) :
  ops p = ops p' -> apply_edit_plan txt p = apply_edit_plan txt p'.
Proof. unfold apply_edit_plan. by intros ->. Qed.

Lemma mapM_str_mul_small (steps : list (text * Z)) :
  Forall (fun sc : text * Z => (exists c, fst sc = [c]) /\ 1 <= snd sc <= 9) steps ->
  exists parts, mapM (fun sc : text * Z => str_mul (fst sc) (snd sc)) steps = Ok parts.
Proof.
  induction 1 as [|[s c] steps [[x Hx] Hc] _ [parts IH]]; cbn [mapM]; [eauto|].
  cbn [fst snd] in *. subst s.
  pose proof (str_mul_char x c ltac:(unfold index_max; lia)) as Hmul.
  rewrite Z.max_r in Hmul by lia. rewrite Hmul. bind_simpl. rewrite IH. eauto.
Qed.

Lemma mapM_list_mul_small (steps : list (text * Z)) :
  Forall (fun sc : text * Z => (exists c, fst sc = [c]) /\ 1 <= snd sc <= 9) steps ->
  exists parts, mapM (fun sc : text * Z => list_mul (fst sc) (snd sc)) steps = Ok parts.
Proof.
  induction 1 as [|[s c] steps [_ Hc] _ [parts IH]]; cbn [mapM]; [eauto|].
  cbn [fst snd] in *.
  assert (list_mul s c = Ok (replicate (Z.to_nat c) s)) as ->.
  { unfold list_mul.
    assert (is_index c = true) as ->; [|done].
    unfold is_index, index_min, index_max.
    apply andb_true_iff; split; apply Z.leb_le; lia. }
  bind_simpl. rewrite IH. eauto.
Qed.

Section PlansApply.
Variable U : Unicode.

(** X21: a plan [optimize_attunement] has made for one of the methods
    append, prepend and intersperse is applied by [apply_plan] without an
    exception, whatever the spread: its steps repeat single characters at
    most nine times each. *)
Theorem attunement_plan_applies (txt : text) (target : Z) (pr : Principle)
  (allowed_symbols : option text) (method : string) (max_steps : Z) (plan : Plan)
  (spread : option Z) :
  optimize_attunement U txt target pr allowed_symbols method max_steps = Ok plan ->
  method = "append"%string \/ method = "prepend"%string \/ method = "intersperse"%string ->
  (exists out, apply_plan txt plan spread = Ok out) /\
  Forall (fun sc : text * Z => (exists c, fst sc = [c]) /\ 1 <= snd sc <= 9) (steps plan).
Proof.
  intros Hopt Hm.
  pose proof (attunement_steps_small U _ _ _ _ _ _ _ Hopt) as Hsmall.
  split; [|done].
  assert (p_method plan = method) as Hmeth.
  { destruct (string_energy U txt pr) as [[total dr]|] eqn:He.
    2: { unfold optimize_attunement in Hopt. rewrite He in Hopt. done. }
    by destruct (optimize_attunement_inv U _ _ _ _ _ _ _ _ _ Hopt He) as (_ & ? & _). }
  destruct (mapM_str_mul_small _ Hsmall) as [parts Hparts].
  destruct (mapM_list_mul_small _ Hsmall) as [lparts Hlparts].
  unfold apply_plan. destruct (steps plan) as [|st sts] eqn:Hsteps; [eauto|].
  rewrite <- Hsteps in *. rewrite Hmeth, Hparts, Hlparts. bind_simpl.
  destruct (String.eqb_spec method "append"); [eauto|].
  destruct (String.eqb_spec method "prepend"); [eauto|].
  destruct (String.eqb_spec method "intersperse"); [|by destruct Hm as [?|[?|?]]].
  destruct (chars_of txt); [eauto|].
  destruct (_ =? 0); [eauto|].
  destruct (intersperse_loop _ _ _ _ _ _). eauto.
Qed.

(** X22: a plan [optimize_substitution] returns is applied by
    [apply_edit_plan] without an exception, and the total and the digital
    root it records are those of the text that comes out, whether or not
    this is the target. *)
Theorem edit_plan_applies (txt : text) (target : Z) (pr : Principle)
  (subs : option (gmap text (list text))) (allow_delete : bool)
  (allowed_inserts : option text) (max_edits : Z) (eplan : EditPlan) :
  optimize_substitution U txt target pr subs allow_delete allowed_inserts max_edits
    = Ok eplan ->
  exists out,
    apply_edit_plan txt eplan = Ok out /\
    string_energy U out pr = Ok (e_total_after eplan, e_dr_after eplan).
Proof.
  unfold optimize_substitution.
  destruct (string_energy U txt pr) as [[total dr]|] eqn:He; bind_simpl; [|done].
  destruct (negb _); [done|].
  destruct (dr =? target); [intros [= <-]; by exists txt|].
  destruct (mapM _ (chars_of txt)) as [pds|]; bind_simpl; [|done].
  destruct (od_get _ _) as [en|].
  - destruct (reconstruct _ _ _ _) as [l|]; bind_simpl; [|done].
    destruct (apply_edit_plan _ _) as [out|] eqn:Hout; bind_simpl; [|done].
    destruct (string_energy U out pr) as [[nt nd]|] eqn:Eo; bind_simpl; [|done].
    intros [= <-]. exists out. split; [|done].
    rewrite <- Hout. by apply apply_edit_plan_ops.
  - destruct allowed_inserts as [[|c s]|]; [done| |done].
    destruct (optimize_attunement U txt target pr _ "append" 64) as [plan|];
      bind_simpl; [|done].
    destruct (apply_edit_plan _ _) as [out|] eqn:Hout; bind_simpl; [|done].
    destruct (string_energy U out pr) as [[nt nd]|] eqn:Eo; bind_simpl; [|done].
    intros [= <-]. exists out. split; [|done].
    rewrite <- Hout. by apply apply_edit_plan_ops.
Qed.
End PlansApply.

Lemma attunement_plan_applies_witness :
  (exists out,
     apply_plan (py "Hello, world!")
       (Build_Plan "intersperse" 7 [(py "?", 1)] 57 3 61 7) (Some 4) = Ok out) /\
  Forall (fun sc : text * Z => (exists c, fst sc = [c]) /\ 1 <= snd sc <= 9)
    (steps (Build_Plan "intersperse" 7 [(py "?", 1)] 57 3 61 7)).
Proof.
  apply (attunement_plan_applies ascii_only (py "Hello, world!") 7 ninefold_grid
           (Some (py ".!?*+")) "intersperse" 64).
  - vm_compute. reflexivity.
  - right. right. reflexivity.
Defined.

Lemma edit_plan_applies_witness :
  exists out,
    apply_edit_plan (py "123")
      (Build_EditPlan "edit" 7
         [Build_EditOp "del" 0 None 1; Build_EditOp "sub" 2 (Some (py "5")) 1] 6 6 5 5)
      = Ok out /\
    string_energy ascii_only out ninefold_grid = Ok (5, 5).
Proof.
  apply (edit_plan_applies ascii_only (py "123") 7 ninefold_grid
           (Some three_five_catalog) true None 8).
  vm_compute. reflexivity.
Defined.

(** ** gdk9/crypto.py: the key stream *)

Lemma mapO_map {A B : Type} (f : A -> outcome B) (g : A -> B) l :
  Forall (fun x => f x = Done (g x)) l -> mapO f l = Done (map g l).
Proof.
  induction 1 as [|x l Hx _ IH]; cbn; [done|]. rewrite Hx, IH. by outcome_simpl.
Qed.

Lemma mapM_map {A B : Type} (f : A -> result B) (g : A -> B) l :
  Forall (fun x => f x = Ok (g x)) l -> mapM f l = Ok (map g l).
Proof.
  induction 1 as [|x l Hx _ IH]; cbn; [done|]. rewrite Hx, IH. by bind_simpl.
Qed.

Section KeyStream.
Variable U : Unicode.

(** The energies of the key, 1 for an energy of 0. *)
Lemma key_energies key pr es :
  energies U key pr = Ok es ->
  mapM (fun ch => e ← char_energy U ch pr; Ok (if e =? 0 then 1 else e)) (chars_of key)
  = Ok (map (fun e => if e =? 0 then 1 else e) es).
Proof.
  unfold energies. generalize (chars_of key). intros l. revert es.
  induction l as [|s l IH]; intros es; cbn.
  - by intros [= <-].
  - destruct (char_energy U s pr) as [e|]; bind_simpl; [|done].
    destruct (mapM _ l) as [es'|] eqn:E; bind_simpl; [|done].
    intros [= <-]. revert IH. bind_simpl. intros IH. by rewrite (IH es' eq_refl).
Qed.

(** X23: for a key that is not empty and whose characters have energies,
    [_keystream] returns [length] numbers from 1 to 9 (none for a negative
    length): the energies of the characters of the key, 1 for an energy of
    0, over and over.  For the empty key it raises "Key must be non-empty",
    whatever the length asked for. *)
Theorem keystream_spec (pr : Principle) (key : text) (n : Z) (es : list Z) :
  key <> [] -> energies U key pr = Ok es ->
  (exists ks,
     _keystream U pr key n = Done ks /\
     length ks = Z.to_nat n /\
     Forall (fun k => 1 <= k <= 9) ks /\
     forall i : nat, (i < Z.to_nat n)%nat ->
       exists e, es !! (i mod length key)%nat = Some e /\
                 ks !! i = Some (if e =? 0 then 1 else e)) /\
  _keystream U pr [] n = Fail EmptyKey.
Proof.
  intros Hkey Hes. split; [|done].
  pose proof (energies_range U pr _ _ Hes) as Hrange.
  pose proof (energies_length U pr _ _ Hes) as Hlen.
  assert (0 < length key)%nat as Hpos by (destruct key; [done|cbn; lia]).
  unfold _keystream. destruct key as [|c0 key0] eqn:Ek; [done|]. rewrite <- Ek in *.
  rewrite (key_energies _ _ _ Hes). cbn [lift]. outcome_simpl.
  set (ks0 := map (fun e => if e =? 0 then 1 else e) es).
  assert (length ks0 = length key) as Hlen0 by (unfold ks0; by rewrite length_map).
  set (g := fun i : Z =>
              let k := default 0 (ks0 !! Z.to_nat (i mod Z.of_nat (length ks0))) in
              if k =? 0 then 1 else k).
  assert (forall i, 0 <= i ->
            exists e, es !! (Z.to_nat i mod length key)%nat = Some e /\
                      ks0 !! Z.to_nat (i mod Z.of_nat (length ks0))
                      = Some (if e =? 0 then 1 else e) /\
                      g i = (if e =? 0 then 1 else e) /\ 1 <= g i <= 9) as Hat.
  { intros i Hi. unfold g. rewrite Hlen0.
    assert (Z.to_nat (i mod Z.of_nat (length key)) = (Z.to_nat i mod length key)%nat) as ->.
    { rewrite <- (Z2Nat.id i) at 1 by done. rewrite <- Nat2Z.inj_mod. apply Nat2Z.id. }
    assert (Z.to_nat i mod length key < length es)%nat as Hlt.
    { rewrite Hlen. apply Nat.mod_upper_bound. lia. }
    destruct (lookup_lt_is_Some_2 _ _ Hlt) as [e He].
    assert (0 <= e <= 9) as Hr.
    { rewrite Forall_forall in Hrange. apply Hrange. by eapply list_elem_of_lookup_2. }
    exists e. split; [done|].
    assert (ks0 !! (Z.to_nat i mod length key)%nat = Some (if e =? 0 then 1 else e)) as Hk
      by (unfold ks0; by rewrite list_lookup_fmap, He).
    rewrite Hk. cbn. split; [done|].
    destruct (e =? 0) eqn:E; cbn; [split; [done|lia]|].
    rewrite E. split; [done|]. apply Z.eqb_neq in E. lia. }
  rewrite (mapO_map _ g).
  2:{ apply Forall_forall. intros i Hi. apply elem_of_seqZ in Hi.
      destruct (Hat i ltac:(lia)) as (e & _ & Hk & _). unfold g. by rewrite Hk. }
  eexists. split; [done|]. split; [by rewrite length_map, length_seqZ|]. split.
  - apply Forall_fmap, Forall_forall. intros i Hi. apply elem_of_seqZ in Hi.
    by destruct (Hat i ltac:(lia)) as (e & _ & _ & _ & He).
  - intros i Hi. destruct (Hat (Z.of_nat i) ltac:(lia)) as (e & He & _ & Hg & _).
    rewrite Nat2Z.id in He. exists e. split; [done|].
    rewrite list_lookup_fmap, lookup_seqZ_lt by lia. cbn. by rewrite Z.add_0_l, Hg.
Qed.
End KeyStream.

Lemma keystream_spec_witness :
  (exists ks,
     _keystream ascii_only ninefold_grid (py "AB ") 5 = Done ks /\
     length ks = Z.to_nat 5 /\
     Forall (fun k => 1 <= k <= 9) ks /\
     forall i : nat, (i < Z.to_nat 5)%nat ->
       exists e, [1; 2; 0] !! (i mod length (py "AB "))%nat = Some e /\
                 ks !! i = Some (if e =? 0 then 1 else e)) /\
  _keystream ascii_only ninefold_grid [] 5 = Fail EmptyKey.
Proof.
  apply (keystream_spec ascii_only ninefold_grid (py "AB ") 5 [1; 2; 0]);
    [done|vm_compute; reflexivity].
Defined.

(** ** gdk9/crypto.py: decrypt after encrypt *)

Lemma insert_str_perm s l : insert_str s l ≡ₚ s :: l.
Proof.
  induction l as [|x l IH]; cbn; [done|].
  destruct (str_le s x); [done|]. by rewrite IH, Permutation_swap.
Qed.

Lemma sorted_strs_perm l : sorted_strs l ≡ₚ l.
Proof.
  induction l as [|x l IH]; cbn; [done|]. by rewrite insert_str_perm, IH.
Qed.

Lemma known_symbols_NoDup pr : NoDup (known_symbols pr).
Proof.
  unfold known_symbols. rewrite sorted_strs_perm. apply NoDup_fst_map_to_list.
Qed.

Lemma known_symbols_elem pr s :
  s ∈ known_symbols pr <-> is_Some (symbol_energy pr !! s).
Proof.
  unfold known_symbols. rewrite sorted_strs_perm. rewrite list_elem_of_fmap. split.
  - intros ([k v] & -> & Hin). apply elem_of_map_to_list in Hin. by eexists.
  - intros [v Hv]. exists (s, v). split; [done|]. by apply elem_of_map_to_list.
Qed.

Lemma index_of_lookup s l i : index_of s l = Some i -> l !! i = Some s.
Proof.
  revert i. induction l as [|x l IH]; intros i; cbn; [done|].
  destruct (bool_decide_reflect (x = s)) as [->|Hne].
  - by intros [= <-].
  - destruct (index_of s l) as [j|]; [|done]. cbn. intros [= <-]. by apply IH.
Qed.

Lemma index_of_NoDup s l i : NoDup l -> l !! i = Some s -> index_of s l = Some i.
Proof.
  intros Hnd. revert i. induction Hnd as [|x l Hx Hnd IH]; intros i; [done|].
  destruct i as [|i]; cbn.
  - intros [= ->]. by rewrite bool_decide_eq_true_2.
  - intros Hi. rewrite bool_decide_eq_false_2.
    + by rewrite (IH i Hi).
    + intros ->. apply Hx. by eapply list_elem_of_lookup_2.
Qed.

Section RoundTrip.
Variable U : Unicode.
Variable u_isupper : Z -> bool.
Variable pr : Principle.

(** The symbols of the principle are single characters that are no
    letters, no digits and no white space. *)
Hypothesis symbols_plain :
  forall s, is_Some (symbol_energy pr !! s) ->
    exists c, s = [c] /\ chr_isalpha U c = false /\ chr_isdigit U c = false /\
              chr_isspace U c = false.

Lemma isalpha_char c : isalpha U [c] = chr_isalpha U c.
Proof. unfold isalpha, str_all. cbn. apply andb_true_r. Qed.

Lemma isdigit_char c : isdigit U [c] = chr_isdigit U c.
Proof. unfold isdigit, str_all. cbn. apply andb_true_r. Qed.

Lemma isspace_char c : isspace U [c] = chr_isspace U c.
Proof. unfold isspace, str_all. cbn. apply andb_true_r. Qed.

(** An ASCII letter turned by [k] is an ASCII letter of the same case, and
    turning it by [-k] gives the letter back. *)
Lemma rotate_letter_back c k :
  is_ascii c = true -> chr_isalpha U c = true ->
  exists c',
    _rotate_letter U u_isupper [c] k = Ok [c'] /\
    is_ascii c' = true /\ chr_isalpha U c' = true /\ ascii_letter c' = true /\
    _rotate_letter U u_isupper [c'] (- k) = Ok [c].
Proof.
  intros Ha Hal. unfold _rotate_letter. rewrite isalpha_char, Hal. cbn [negb].
  unfold chr_isalpha in Hal. rewrite Ha in Hal.
  unfold chr_isupper_any. rewrite Ha.
  destruct (chr_isupper c) eqn:Hup.
  - pose proof (Z.mod_pos_bound (c - 65 + k) 26 ltac:(lia)) as Hoff.
    set (off := (c - 65 + k) mod 26) in *.
    assert (is_ascii (65 + off) = true) as Ha' by (unfold is_ascii; lia).
    assert (chr_isupper (65 + off) = true) as Hup' by (unfold chr_isupper; lia).
    exists (65 + off). split; [done|]. split; [done|].
    rewrite isalpha_char. unfold chr_isalpha, ascii_letter. rewrite Ha', Hup'. cbn.
    split; [done|]. split; [done|]. do 2 f_equal.
    replace (65 + off - 65 + - k) with (off + - k) by lia.
    unfold off. rewrite Zplus_mod_idemp_l.
    replace (c - 65 + k + - k) with (c - 65) by lia.
    unfold chr_isupper in Hup. rewrite Z.mod_small by lia. lia.
  - cbn in Hal.
    pose proof (Z.mod_pos_bound (c - 97 + k) 26 ltac:(lia)) as Hoff.
    set (off := (c - 97 + k) mod 26) in *.
    assert (is_ascii (97 + off) = true) as Ha' by (unfold is_ascii; lia).
    assert (chr_isupper (97 + off) = false) as Hup' by (unfold chr_isupper; lia).
    assert (chr_islower (97 + off) = true) as Hlo' by (unfold chr_islower; lia).
    exists (97 + off). split; [done|]. split; [done|].
    rewrite isalpha_char. unfold chr_isalpha, ascii_letter. rewrite Ha', Hup', Hlo'. cbn.
    split; [done|]. split; [done|]. do 2 f_equal.
    replace (97 + off - 97 + - k) with (off + - k) by lia.
    unfold off. rewrite Zplus_mod_idemp_l.
    replace (c - 97 + k + - k) with (c - 97) by lia.
    unfold chr_islower in Hal. rewrite Z.mod_small by lia. lia.
Qed.

Lemma rotate_digit_back c k :
  is_ascii c = true -> chr_isdigit U c = true ->
  exists c',
    _rotate_digit U [c] k = Ok [c'] /\
    chr_isalpha U c' = false /\ chr_isdigit U c' = true /\
    _rotate_digit U [c'] (- k) = Ok [c].
Proof.
  intros Ha Hd. unfold _rotate_digit. rewrite isdigit_char, Hd. cbn [negb ord].
  bind_simpl.
  unfold chr_isdigit in Hd. rewrite Ha in Hd.
  pose proof (Z.mod_pos_bound (c - 48 + k mod 10) 10 ltac:(lia)) as Hoff.
  set (off := (c - 48 + k mod 10) mod 10) in *.
  assert (is_ascii (48 + off) = true) as Ha' by (unfold is_ascii; lia).
  exists (48 + off). split; [done|].
  rewrite isdigit_char. unfold chr_isalpha, chr_isdigit. rewrite Ha'.
  assert (chr_isupper (48 + off) || chr_islower (48 + off) = false) as ->
    by (unfold chr_isupper, chr_islower; lia).
  assert ((48 <=? 48 + off) && (48 + off <=? 57) = true) as -> by lia.
  split; [done|]. split; [done|]. cbn [negb]. do 2 f_equal.
  replace (48 + off - 48 + - k mod 10) with (off + - k mod 10) by lia.
  unfold off. rewrite Zplus_mod_idemp_l, <- Z.add_assoc, <- Zplus_mod_idemp_r.
  rewrite <- (Zplus_mod k (- k)), Z.add_opp_diag_r, Z.mod_0_l, Z.add_0_r by lia.
  rewrite Z.mod_small by lia. lia.
Qed.

Lemma rotate_symbol_back c k ch' :
  _rotate_symbol [c] k pr = Done ch' ->
  ch' = [c] /\ _rotate_symbol [c] (- k) pr = Done [c] \/
  exists c', ch' = [c'] /\ chr_isalpha U c' = false /\ chr_isdigit U c' = false /\
             chr_isspace U c' = false /\ _rotate_symbol [c'] (- k) pr = Done [c].
Proof.
  unfold _rotate_symbol.
  destruct (index_of [c] (known_symbols pr)) as [idx|] eqn:Hidx.
  - apply index_of_lookup in Hidx as Hc.
    pose proof (lookup_lt_Some _ _ _ Hc) as Hlt.
    set (n := Z.of_nat (length (known_symbols pr))) in *.
    pose proof (Z.mod_pos_bound (Z.of_nat idx + k) n ltac:(lia)) as Hj.
    destruct (known_symbols pr !! Z.to_nat ((Z.of_nat idx + k) mod n)) as [s|] eqn:Hs;
      [|done].
    intros [= <-]. right.
    assert (s ∈ known_symbols pr) as Hin by (by eapply list_elem_of_lookup_2).
    apply known_symbols_elem, symbols_plain in Hin as (c' & -> & Hal & Hd & Hsp).
    exists c'. split; [done|]. split; [done|]. split; [done|]. split; [done|].
    unfold _rotate_symbol.
    rewrite (index_of_NoDup _ _ _ (known_symbols_NoDup pr) Hs).
    rewrite Z2Nat.id by lia. fold n.
    rewrite Zplus_mod_idemp_l.
    replace (Z.of_nat idx + k + - k) with (Z.of_nat idx) by lia.
    rewrite Z.mod_small by lia. by rewrite Nat2Z.id, Hc.
  - intros [= <-]. by left.
Qed.

(** One character: what [encrypt] makes of it, [decrypt] turns back. *)
Lemma rotate_char_back c k ch' :
  (chr_isalpha U c || chr_isdigit U c = true -> is_ascii c = true) ->
  rotate_char U u_isupper pr [c] k = Done ch' ->
  exists c', ch' = [c'] /\ rotate_char U u_isupper pr [c'] (- k) = Done [c].
Proof.
  intros Hplain. unfold rotate_char at 1.
  rewrite isalpha_char, isdigit_char, isspace_char.
  destruct (chr_isalpha U c) eqn:Hal.
  { destruct (rotate_letter_back c k (Hplain eq_refl) Hal)
      as (c' & -> & Ha' & Hal' & _ & Hback).
    intros [= <-]. exists c'. split; [done|].
    unfold rotate_char. by rewrite isalpha_char, Hal', Hback. }
  destruct (chr_isdigit U c) eqn:Hd.
  { destruct (rotate_digit_back c k (Hplain eq_refl) Hd) as (c' & -> & Hal' & Hd' & Hback).
    intros [= <-]. exists c'. split; [done|].
    unfold rotate_char. by rewrite isalpha_char, isdigit_char, Hal', Hd', Hback. }
  destruct (chr_isspace U c) eqn:Hsp.
  { intros [= <-]. exists c. split; [done|].
    unfold rotate_char. by rewrite isalpha_char, isdigit_char, isspace_char, Hal, Hd, Hsp. }
  intros [[-> Hback]|(c' & -> & Hal' & Hd' & Hsp' & Hback)]%rotate_symbol_back.
  - exists c. split; [done|].
    unfold rotate_char. by rewrite isalpha_char, isdigit_char, isspace_char, Hal, Hd, Hsp.
  - exists c'. split; [done|].
    unfold rotate_char.
    by rewrite isalpha_char, isdigit_char, isspace_char, Hal', Hd', Hsp'.
Qed.

(** The loop of [encrypt] and, on what it gives, the loop of [decrypt]. *)
Lemma rotate_text_back (ks : list Z) (txt : text) : forall i out,
  Forall (fun c => chr_isalpha U c || chr_isdigit U c = true -> is_ascii c = true) txt ->
  mapO (fun ich : Z * text =>
          match ks !! Z.to_nat (fst ich) with
          | Some k => rotate_char U u_isupper pr (snd ich) k
          | None => Fail IndexOutOfRange
          end) (enumerate_from i (chars_of txt)) = Done out ->
  mapO (fun ich : Z * text =>
          match ks !! Z.to_nat (fst ich) with
          | Some k => rotate_char U u_isupper pr (snd ich) (- k)
          | None => Fail IndexOutOfRange
          end) (enumerate_from i out) = Done (chars_of txt) /\
  Forall (fun s : text => exists c, s = [c]) out /\ length out = length txt.
Proof.
  induction txt as [|c txt IH]; intros i out Hplain; cbn.
  - by intros [= <-].
  - apply Forall_cons in Hplain as [Hc Hplain]. fold (chars_of txt).
    destruct (ks !! Z.to_nat i) as [k|] eqn:Hk; outcome_simpl; [|done].
    destruct (rotate_char U u_isupper pr [c] k) as [ch'|] eqn:Hrot; [|done].
    match goal with
    | |- context [mapO ?f (enumerate_from (i + 1) (chars_of txt))] =>
        destruct (mapO f (enumerate_from (i + 1) (chars_of txt))) as [out'|] eqn:Hout
    end; [|done].
    intros [= <-].
    destruct (rotate_char_back c k ch' Hc Hrot) as (c' & -> & Hback).
    destruct (IH (i + 1) out' Hplain Hout) as (Hdec & Hsing & Hlen).
    cbn. rewrite Hk, Hback. revert Hdec. outcome_simpl. intros ->.
    split; [done|]. split; [constructor; eauto|by rewrite Hlen].
Qed.

(** X24: on a text whose letters and digits are ASCII, under a principle
    whose symbols are single characters that are no letters, digits or
    white space, [decrypt] gives back the text that [encrypt] has turned
    into a cipher text, which is as long as the text. *)
Theorem decrypt_encrypt (txt key cipher : text) :
  Forall (fun c => chr_isalpha U c || chr_isdigit U c = true -> is_ascii c = true) txt ->
  encrypt U u_isupper txt key pr = Done cipher ->
  decrypt U u_isupper cipher key pr = Done txt /\ length cipher = length txt.
Proof.
  intros Hplain. unfold encrypt, decrypt.
  destruct (_keystream U pr key (Z.of_nat (length txt))) as [ks|] eqn:Hks;
    outcome_simpl; [|done].
  unfold rotate_text, enumerate.
  match goal with
  | |- context [mapO ?f (enumerate_from 0 (chars_of txt))] =>
      destruct (mapO f (enumerate_from 0 (chars_of txt))) as [out|] eqn:Hout
  end; [|done].
  intros [= <-].
  destruct (rotate_text_back ks txt 0 out Hplain Hout) as (Hdec & Hsing & Hlen).
  assert (length (concat out) = length txt) as Hlen'.
  { rewrite <- Hlen. transitivity (length (chars_of (concat out))).
    - unfold chars_of. by rewrite length_map.
    - by rewrite (chars_of_concat out Hsing). }
  rewrite Hlen', Hks, (chars_of_concat out Hsing).
  revert Hdec. outcome_simpl. intros ->. split; [|done].
  f_equal. clear. unfold chars_of. induction txt as [|c t IH]; cbn; [done|]. by rewrite IH.
Qed.
End RoundTrip.

(** The symbols of the Ninefold Grid are single characters that are no
    letters, digits or white space. *)
Lemma ninefold_symbols_plain s :
  is_Some (symbol_energy ninefold_grid !! s) ->
  exists c, s = [c] /\ chr_isalpha ascii_only c = false /\
            chr_isdigit ascii_only c = false /\ chr_isspace ascii_only c = false.
Proof.
  intros Hs. apply known_symbols_elem in Hs.
  assert (Forall (fun s : text =>
                    exists c, s = [c] /\ chr_isalpha ascii_only c = false /\
                              chr_isdigit ascii_only c = false /\
                              chr_isspace ascii_only c = false)
            (known_symbols ninefold_grid)) as Hall.
  { vm_compute known_symbols. repeat constructor; eexists; (split; [reflexivity|]);
      vm_compute; done. }
  rewrite Forall_forall in Hall. by apply Hall.
Qed.

Lemma decrypt_encrypt_witness :
  decrypt ascii_only (fun _ => false) [74; 114; 32; 51; 52; 44] (py "K9") ninefold_grid
    = Done (py "Hi 42!") /\
  length [74; 114; 32; 51; 52; 44] = length (py "Hi 42!").
Proof.
  apply (decrypt_encrypt ascii_only (fun _ => false) ninefold_grid ninefold_symbols_plain
           (py "Hi 42!") (py "K9") [74; 114; 32; 51; 52; 44]).
  - repeat constructor.
  - vm_compute. reflexivity.
Defined.

(** ** gdk9/crypto.py: letters beyond ASCII *)

Section LettersToAscii.
Variable U : Unicode.
Variable u_isupper : Z -> bool.
Variable pr : Principle.

(** Whatever letter is turned, the outcome is an ASCII letter. *)
Lemma rotate_letter_ascii c k :
  chr_isalpha U c = true ->
  exists c', rotate_char U u_isupper pr [c] k = Done [c'] /\
             ascii_letter c' = true /\ chr_isalpha U c' = true.
Proof.
  intros Hal. unfold rotate_char, _rotate_letter.
  unfold isalpha, str_all. cbn [forallb]. rewrite Hal. cbn [andb negb lift].
  set (base := if chr_isupper_any u_isupper c then 65 else 97).
  assert (base = 65 \/ base = 97) as Hbase
    by (unfold base; destruct (chr_isupper_any u_isupper c); auto).
  pose proof (Z.mod_pos_bound (c - base + k) 26 ltac:(lia)) as Hoff.
  set (off := (c - base + k) mod 26) in *. clearbody off base.
  exists (base + off). split; [done|].
  assert (ascii_letter (base + off) = true) as Hl.
  { unfold ascii_letter, chr_isupper, chr_islower.
    destruct Hbase as [-> | ->]; apply orb_true_iff; [left|right]; lia. }
  split; [done|]. unfold chr_isalpha.
  assert (is_ascii (base + off) = true) as ->; [|done].
  unfold is_ascii. destruct Hbase as [-> | ->]; lia.
Qed.

Lemma rotate_text_letters (dir : Z -> Z) (ks : list Z) (txt : text) : forall i out,
  Forall (fun c => chr_isalpha U c = true) txt ->
  mapO (fun ich : Z * text =>
          match ks !! Z.to_nat (fst ich) with
          | Some k => rotate_char U u_isupper pr (snd ich) (dir k)
          | None => Fail IndexOutOfRange
          end) (enumerate_from i (chars_of txt)) = Done out ->
  length (concat out) = length txt /\
  Forall (fun a => ascii_letter a = true) (concat out) /\
  Forall (fun a => chr_isalpha U a = true) (concat out).
Proof.
  induction txt as [|c txt IH]; intros i out Hal; cbn.
  - by intros [= <-].
  - apply Forall_cons in Hal as [Hc Hal]. fold (chars_of txt).
    destruct (ks !! Z.to_nat i) as [k|] eqn:Hk; outcome_simpl; [|done].
    destruct (rotate_letter_ascii c (dir k) Hc) as (c' & -> & Hl & Hal').
    match goal with
    | |- context [mapO ?f (enumerate_from (i + 1) (chars_of txt))] =>
        destruct (mapO f (enumerate_from (i + 1) (chars_of txt))) as [out'|] eqn:Hout
    end; [|done].
    intros [= <-]. destruct (IH (i + 1) out' Hal Hout) as (Hlen & Hall & Halp).
    cbn. split; [by rewrite Hlen|]. split; by constructor.
Qed.

(** X25: [encrypt] turns a text of letters into ASCII letters, as many as
    the text has, and [decrypt] turns these into ASCII letters again: a
    letter that is not ASCII does not come back. *)
Theorem encrypt_letters_ascii (txt key cipher : text) :
  Forall (fun c => chr_isalpha U c = true) txt ->
  encrypt U u_isupper txt key pr = Done cipher ->
  length cipher = length txt /\
  Forall (fun a => ascii_letter a = true) cipher /\
  exists back,
    decrypt U u_isupper cipher key pr = Done back /\
    length back = length txt /\
    Forall (fun a => ascii_letter a = true) back.
Proof.
  intros Hal. unfold encrypt, decrypt.
  destruct (_keystream U pr key (Z.of_nat (length txt))) as [ks|] eqn:Hks;
    outcome_simpl; [|done].
  unfold rotate_text, enumerate.
  match goal with
  | |- context [mapO ?f (enumerate_from 0 (chars_of txt))] =>
      destruct (mapO f (enumerate_from 0 (chars_of txt))) as [out|] eqn:Hout
  end; [|done].
  intros [= <-].
  destruct (rotate_text_letters (fun k => k) ks txt 0 out Hal Hout) as (Hlen & Hall & Halp).
  split; [done|]. split; [done|]. rewrite Hlen, Hks.
  assert (exists out2,
            mapO (fun ich : Z * text =>
                    match ks !! Z.to_nat (fst ich) with
                    | Some k => rotate_char U u_isupper pr (snd ich) (- k)
                    | None => Fail IndexOutOfRange
                    end) (enumerate_from 0 (chars_of (concat out))) = Done out2)
    as [out2 Hout2].
  { (* the key stream is long enough for the cipher text *)
    assert (forall (t : text) i,
              Forall (fun a => chr_isalpha U a = true) t ->
              (Z.to_nat i + length t <= length ks)%nat -> 0 <= i ->
              exists out2,
                mapO (fun ich : Z * text =>
                        match ks !! Z.to_nat (fst ich) with
                        | Some k => rotate_char U u_isupper pr (snd ich) (- k)
                        | None => Fail IndexOutOfRange
                        end) (enumerate_from i (chars_of t)) = Done out2) as Hgo.
    { induction t as [|c t IH]; intros i Ht Hi Hi0; cbn; [eauto|].
      apply Forall_cons in Ht as [Hc Ht]. fold (chars_of t). cbn [length] in Hi.
      destruct (lookup_lt_is_Some_2 ks (Z.to_nat i) ltac:(lia)) as [k ->].
      destruct (rotate_letter_ascii c (- k) Hc) as (c' & -> & _). outcome_simpl.
      destruct (IH (i + 1) Ht ltac:(lia) ltac:(lia)) as [out2 ->]. eauto. }
    apply Hgo; [done| |done].
    assert (length ks = length txt); [|lia].
    clear -Hks. unfold _keystream in Hks. destruct key as [|c0 key0]; [done|].
    destruct (mapM _ _) as [ks0|]; cbn [lift] in Hks; revert Hks; outcome_simpl; [|done].
    intros Hks.
    assert (forall (f : Z -> outcome Z) l out, mapO f l = Done out -> length out = length l)
      as Hmap.
    { clear. intros f l. induction l as [|x l IH]; intros out; cbn; [by intros [= <-]|].
      destruct (f x); outcome_simpl; [|done].
      destruct (mapO f l) as [o|]; [|done]. intros [= <-]. cbn. by rewrite (IH o). }
    apply Hmap in Hks. rewrite Hks, length_seqZ. lia. }
  rewrite Hout2. outcome_simpl. exists (concat out2). split; [done|].
  destruct (rotate_text_letters Z.opp ks (concat out) 0 out2 Halp Hout2)
    as (Hlen2 & Hall2 & _).
  split; [by rewrite Hlen2|done].
Qed.
End LettersToAscii.

Lemma encrypt_letters_ascii_witness :
  length [121; 67] = length [223; 65] /\
  Forall (fun a => ascii_letter a = true) [121; 67] /\
  exists back,
    decrypt latin1_sample (fun _ => false) [121; 67] (py "K") ninefold_grid = Done back /\
    length back = length [223; 65] /\
    Forall (fun a => ascii_letter a = true) back.
Proof.
  apply (encrypt_letters_ascii latin1_sample (fun _ => false) ninefold_grid
           [223; 65] (py "K") [121; 67]).
  - repeat constructor.
  - vm_compute. reflexivity.
Defined.
